(** * py-boggle: the path search engine and the interactive session

    A shallow embedding of [utils.py] (grid helpers, the prefix-pruned
    backtracking search and its three modes) and of [model.py] (the
    interactive path under construction, word checking and scoring),
    followed by the properties proved about them.

    Conventions of the embedding:
    - a Python [int] is a [Z]; a coordinate is a pair of ints;
    - a Python [str] is a [string], a character being whatever [ascii]
      stands for; [len], [+] and [startswith] are [String.length],
      [String.app] (written [+:+]) and [String.prefix];
    - an [Iterable] of words is a list, a collection that can be iterated
      more than once;
    - a [list] is a [list]; indexing follows Python, negative indices
      included ([py_index]);
    - a [set] of words is a [gset string];
    - the [dict] of [max_score_paths] is an association list in insertion
      order, since [dict.values()] is iterated in that order;
    - a call either returns a value or raises ([res]); the recursion of
      [__backtracking_action] is driven by a depth budget computed from
      the board, shown below never to run out; the limits of the
      interpreter (recursion depth, memory) are not part of the model. *)

From Stdlib Require Import ZArith String Ascii List Lia Bool DecimalString.
From stdpp Require Import base decidable option list gmap sets strings.

Open Scope string_scope.
Open Scope list_scope.
Open Scope Z_scope.

(** ** Python primitives *)

Module Py.

(** The exceptions the modelled code can raise. *)
Inductive exn : Type :=
| IndexError
| ValueError.

(** The outcome of a call: a value, an exception, or the depth budget
    of the recursion running out ([Timeout] is an artefact of the
    embedding; [SearchFacts.start_trace_not_timeout] shows that the
    search never yields it). *)
Inductive res (A : Type) : Type :=
| Ok (a : A)
| Raise (e : exn)
| Timeout.

Arguments Ok {A} a.
Arguments Raise {A} e.
Arguments Timeout {A}.

Definition bind {A B : Type} (m : res A) (k : A -> res B) : res B :=
  match m with
  | Ok a => k a
  | Raise e => Raise e
  | Timeout => Timeout
  end.

(** [l[i]] for a Python list: a negative index counts from the end. *)
Definition py_index {A : Type} (l : list A) (i : Z) : res A :=
  let n := Z.of_nat (length l) in
  let j := if 0 <=? i then i else n + i in
  if (0 <=? j) && (j <? n)
  then match l !! Z.to_nat j with
       | Some a => Ok a
       | None => Raise IndexError
       end
  else Raise IndexError.

(** [s[:k]] for a Python string: a negative bound counts from the end
    and is clamped at 0; a bound past the end is clamped at [len(s)]. *)
Definition py_slice_to (s : string) (k : Z) : string :=
  let n := Z.of_nat (String.length s) in
  let j := if 0 <=? k then k else Z.max 0 (n + k) in
  String.substring 0 (Z.to_nat (Z.min j n)) s.

(** [list.remove(x)]: drops the first occurrence, [ValueError] if there
    is none. *)
Fixpoint py_remove {A : Type} `{EqDecision A} (x : A) (l : list A)
  : res (list A) :=
  match l with
  | [] => Raise ValueError
  | y :: l' =>
      if decide (y = x) then Ok l'
      else bind (py_remove x l') (fun r => Ok (y :: r))
  end.

(** [max(l, key=len)]: the first element of maximal length,
    [ValueError] on an empty list. *)
Fixpoint py_max_len_from {A : Type} (best : list A) (l : list (list A))
  : list A :=
  match l with
  | [] => best
  | p :: l' =>
      if (length best <? length p)%nat
      then py_max_len_from p l'
      else py_max_len_from best l'
  end.

Definition py_max_len {A : Type} (l : list (list A)) : res (list A) :=
  match l with
  | [] => Raise ValueError
  | p :: l' => Ok (py_max_len_from p l')
  end.

(** [l.pop()]: drops the last element, [IndexError] on an empty list. *)
Definition py_pop {A : Type} (l : list A) : res (list A) :=
  match l with
  | [] => Raise IndexError
  | _ => Ok (removelast l)
  end.

(** A [for] loop whose body updates the loop state or raises. *)
Fixpoint for_each {A S : Type} (body : S -> A -> res S) (l : list A)
  (s : S) : res S :=
  match l with
  | [] => Ok s
  | x :: l' =>
      match body s x with
      | Ok s' => for_each body l' s'
      | Raise e => Raise e
      | Timeout => Timeout
      end
  end.

(** [range(k)] as a list of ints. *)
Definition py_range (k : nat) : list Z := map Z.of_nat (seq 0 k).

End Py.

Export Py.

(** [res] is used through stdpp's monad notation [x ← m; k]. *)
#[export] Instance res_ret : MRet res := @Ok.
#[export] Instance res_bind : MBind res := fun A B k m => bind m k.

(** ** utils.py: the grid *)

Abbreviation Coord := (Z * Z)%type.
Abbreviation Path := (list Coord).
Abbreviation Board := (list (list string)).

Module Utils.

Definition NEIGHBOURS_DELTA : list (string * Coord) :=
  [ ("N", (-1, 0)); ("NE", (-1, 1)); ("E", (0, 1)); ("SE", (1, 1));
    ("S", (1, 0)); ("SW", (1, -1)); ("W", (0, -1)); ("NW", (-1, -1)) ].

(** [NEIGHBOURS_DELTA.values()], in insertion order. *)
Definition delta_values : list Coord := map snd NEIGHBOURS_DELTA.

Global Arguments delta_values : simpl never.

Definition get_value_by_coordinate (board : Board) (coordinate : Coord)
  : res string :=
  let '(row, col) := coordinate in
  r ← py_index board row;
  py_index r col.

Global Arguments get_value_by_coordinate : simpl never.

Definition are_neighbours (coordinate1 coordinate2 : Coord) : bool :=
  let '(row1, col1) := coordinate1 in
  existsb (fun d : Coord =>
             bool_decide ((row1 + d.1, col1 + d.2) = coordinate2))
          delta_values.

(** The loop of [is_valid_path]: at each index but the last, the
    neighbour test comes first and the cell value second; [Ok None] is
    the early [return None]. *)
Fixpoint is_valid_path_loop (board : Board) (path : Path) (word : string)
  : res (option string) :=
  match path with
  | [] => Raise IndexError
  | [c] =>
      v ← get_value_by_coordinate board c;
      Ok (Some (word +:+ v))
  | c :: (c' :: _) as rest =>
      if are_neighbours c c'
      then v ← get_value_by_coordinate board c;
           is_valid_path_loop board rest (word +:+ v)
      else Ok None
  end.

Definition is_valid_path (board : Board) (path : Path) (words : list string)
  : res (option string) :=
  r ← is_valid_path_loop board path "";
  match r with
  | None => Ok None
  | Some word =>
      if bool_decide (word ∈ words) then Ok (Some word) else Ok None
  end.

(** [len(board[0])] is evaluated only when the row test has passed
    ([and] short-circuits), hence never on an empty board. *)
Definition is_coordinate_in_board (board : Board) (coordinate : Coord)
  : bool :=
  (0 <=? coordinate.1) && (coordinate.1 <? Z.of_nat (length board))
  && match board with
     | [] => false
     | row0 :: _ =>
         (0 <=? coordinate.2) && (coordinate.2 <? Z.of_nat (length row0))
     end.

Definition find_neighbour_coordinate (coordinate delta : Coord) : Coord :=
  (coordinate.1 + delta.1, coordinate.2 + delta.2).

Definition filter_words_set_by_prefix (words_set : gset string)
  (prefix : string) : gset string :=
  filter (fun s => String.prefix prefix s = true) words_set.

(** *** The shared traversal

    [curr_path] is one list object, appended to before the recursive
    call and popped after it: the path is threaded through the calls as
    state, next to the dataset. The update functions receive the path
    itself and store a copy of it ([path[:]]), which for a value is the
    path as it is at that point. *)

Section Backtracking.

Context {D : Type}.
Variable stop_condition : Z -> Path -> string -> bool.
Variable data_update_func : D -> Path -> string -> D.
Variable n : Z.
Variable board : Board.

Fixpoint backtracking_action (fuel : nat) (words_set : gset string)
  (dataset : D) (curr_path : Path) (curr_word : string)
  : res (D * Path) :=
  match fuel with
  | O => Timeout
  | S fuel' =>
      if stop_condition n curr_path curr_word then
        if bool_decide (curr_word ∈ words_set)
        then Ok (data_update_func dataset curr_path curr_word, curr_path)
        else Ok (dataset, curr_path)
      else
        for_each
          (fun (st : D * Path) (delta : Coord) =>
             let '(dataset, curr_path) := st in
             last ← py_index curr_path (-1);
             let neighbour := find_neighbour_coordinate last delta in
             if negb (is_coordinate_in_board board neighbour) then Ok st
             else if bool_decide (neighbour ∈ curr_path) then Ok st
             else
               v ← get_value_by_coordinate board neighbour;
               let new_word := curr_word +:+ v in
               let filtered_words :=
                 filter_words_set_by_prefix words_set new_word in
               if bool_decide (size filtered_words = 0%nat) then Ok st
               else
                 st' ← backtracking_action fuel' filtered_words dataset
                        (curr_path ++ [neighbour]) new_word;
                 curr_path' ← py_pop st'.2;
                 Ok (st'.1, curr_path'))
          delta_values (dataset, curr_path)
  end.

(** The number of cells [is_coordinate_in_board] accepts. *)
Definition area : nat := (length board * length (hd [] board))%nat.

(** The depth budget of the recursion: a path never holds more than
    one cell outside that region, and no cell twice. *)
Definition depth_budget : nat := S area.

Definition backtracking_start (words : list string) (dataset : D)
  : res D :=
  let words_set : gset string := list_to_set words in
  for_each
    (fun (dataset : D) (row_index : Z) =>
       row ← py_index board row_index;
       for_each
         (fun (dataset : D) (col_index : Z) =>
            let coordinate := (row_index, col_index) in
            curr_word ← get_value_by_coordinate board coordinate;
            let filtered_words :=
              filter_words_set_by_prefix words_set curr_word in
            if bool_decide (size filtered_words = 0%nat) then Ok dataset
            else
              let curr_path := [coordinate] in
              st ← backtracking_action depth_budget words_set dataset
                     curr_path curr_word;
              Ok st.1)
         (py_range (length row)) dataset)
    (py_range (length board)) dataset.

End Backtracking.

(** *** The three search modes

    Each mode declares a local [stop] and a local [update]:
    [stop_len_path] is the [stop] of [find_length_n_paths],
    [stop_len_word] the one of [find_length_n_words] and of
    [max_score_paths]; [update_list] is the [update] of the two list
    modes and [update_dict] the one of [max_score_paths]. *)

Definition stop_len_path (n : Z) (path : Path) (word : string) : bool :=
  bool_decide (Z.of_nat (length path) = n).

Definition stop_len_word (n : Z) (path : Path) (word : string) : bool :=
  bool_decide (Z.of_nat (String.length word) = n).

Definition update_list (lst_paths : list Path) (path : Path) (word : string)
  : list Path :=
  lst_paths ++ [path].

Definition find_length_n_paths (n : Z) (board : Board) (words : list string)
  : res (list Path) :=
  backtracking_start stop_len_path update_list n board words [].

Definition find_length_n_words (n : Z) (board : Board) (words : list string)
  : res (list Path) :=
  backtracking_start stop_len_word update_list n board words [].

(** The dict of [max_score_paths], in insertion order. *)
Abbreviation Dict := (list (string * list Path)).

(** [dict_paths[word].append(path[:])]: the list under the key [word]
    grows by the path; a dict holds a key once. *)
Definition dict_append (word : string) (path : Path) (d : Dict) : Dict :=
  map (fun kv : string * list Path =>
         if decide (kv.1 = word) then (kv.1, kv.2 ++ [path]) else kv) d.

Definition update_dict (dict_paths : Dict) (path : Path) (word : string)
  : Dict :=
  let dict_paths :=
    if bool_decide (word ∈ dict_paths.*1) then dict_paths
    else dict_paths ++ [(word, [])] in
  dict_append word path dict_paths.

(** [word_lengths] is a set of ints; the loop visits it in the order
    [elements] lists it, about which nothing but completeness and the
    absence of repetitions is used. *)
Definition max_score_paths (board : Board) (words : list string)
  : res (list Path) :=
  let word_lengths : gset Z :=
    list_to_set (map (fun s => Z.of_nat (String.length s)) words) in
  dict_paths ←
    for_each
      (fun (dict_paths : Dict) (length : Z) =>
         backtracking_start stop_len_word update_dict length board words
           dict_paths)
      (elements word_lengths) [];
  for_each
    (fun (longest_paths : list Path) (lst_paths : list Path) =>
       p ← py_max_len lst_paths;
       Ok (longest_paths ++ [p]))
    dict_paths.*2 [].

End Utils.

(** ** model.py: the interactive session *)

Module Model.

Import Utils.

Record Model : Type := mkModel {
  board : Board;
  words_collection : gset string;
  words_found : gset string;
  current_word : string;
  current_path : Path;
  score : Z
}.

Definition set_current_path (self : Model) (p : Path) : Model :=
  mkModel self.(board) self.(words_collection) self.(words_found)
          self.(current_word) p self.(score).

Definition set_current_word (self : Model) (w : string) : Model :=
  mkModel self.(board) self.(words_collection) self.(words_found)
          w self.(current_path) self.(score).

Definition set_words_found (self : Model) (f : gset string) : Model :=
  mkModel self.(board) self.(words_collection) f
          self.(current_word) self.(current_path) self.(score).

Definition set_score (self : Model) (s : Z) : Model :=
  mkModel self.(board) self.(words_collection) self.(words_found)
          self.(current_word) self.(current_path) s.

(** [Model()] *)
Definition init : Model := mkModel [[]] ∅ ∅ "" [] 0.

(** [int(math.pow(k, 2))] for an int [k]. The square is computed in
    binary64, where it is the exact square as long as that does not
    exceed [float_exact]; the embedding is meant for that range, and
    the statements about the score carry it as a hypothesis. *)
Definition float_exact : Z := 2 ^ 53.

Definition int_pow2 (k : Z) : Z := k * k.

Definition increase_score (self : Model) : Model * Z :=
  let s := self.(score) + int_pow2 (Z.of_nat (length self.(current_path))) in
  (set_score self s, s).

(** [self.__current_path and self.__current_path[-1] == board_coordinate] *)
Definition last_is (path : Path) (board_coordinate : Coord) : bool :=
  match path with
  | [] => false
  | _ =>
      match py_index path (-1) with
      | Ok c => bool_decide (c = board_coordinate)
      | _ => false
      end
  end.

(** A method returns the session as the call leaves it, also when it
    raises, together with the outcome of the call. *)
Definition update_word_and_path (self : Model) (board_coordinate : Coord)
  : Model * res unit :=
  let '(y, x) := board_coordinate in
  if last_is self.(current_path) board_coordinate then
    (* undo *)
    match py_remove board_coordinate self.(current_path) with
    | Ok p =>
        let self := set_current_path self p in
        match get_value_by_coordinate self.(board) (y, x) with
        | Ok v =>
            let slice_index :=
              Z.of_nat (String.length self.(current_word))
              - Z.of_nat (String.length v) in
            (set_current_word self
               (py_slice_to self.(current_word) slice_index), Ok ())
        | Raise e => (self, Raise e)
        | Timeout => (self, Timeout)
        end
    | Raise e => (self, Raise e)
    | Timeout => (self, Timeout)
    end
  else
    (* add *)
    match get_value_by_coordinate self.(board) (y, x) with
    | Ok v =>
        let self := set_current_word self (self.(current_word) +:+ v) in
        (set_current_path self (self.(current_path) ++ [board_coordinate]),
         Ok ())
    | Raise e => (self, Raise e)
    | Timeout => (self, Timeout)
    end.

(** The four messages of [check_word]. *)
Definition msg_not_a_word (w : string) : string :=
  "'" +:+ w +:+ "' is not a word".
Definition msg_already_found (w : string) : string :=
  "You already found '" +:+ w +:+ "'".
Definition msg_found (w : string) : string :=
  "You found '" +:+ w +:+ "'".
Definition msg_found_nice (w : string) : string :=
  "You found '" +:+ w +:+ "'. Nice work!".

Definition check_word (self : Model) : Model * string :=
  let existing_word :=
    bool_decide (self.(current_word) ∉ self.(words_collection)) in
  if existing_word then (self, msg_not_a_word self.(current_word))
  else
    let word_found :=
      bool_decide (self.(current_word) ∈ self.(words_found)) in
    if word_found then (self, msg_already_found self.(current_word))
    else
      let self :=
        set_words_found self ({[ self.(current_word) ]} ∪ self.(words_found)) in
      let self := (increase_score self).1 in
      if (Z.of_nat (String.length self.(current_word)) <? 6)
      then (self, msg_found self.(current_word))
      else (self, msg_found_nice self.(current_word)).

Definition reset_current_input (self : Model) : Model :=
  set_current_path (set_current_word self "") [].

Definition is_coordinate_in_boundaries (self : Model) (coordinate : Coord)
  : bool :=
  (0 <=? coordinate.1) && (coordinate.1 <? Z.of_nat (length self.(board)))
  && match self.(board) with
     | [] => false
     | row0 :: _ =>
         (0 <=? coordinate.2) && (coordinate.2 <? Z.of_nat (length row0))
     end.

Definition get_buttons_to_enable (self : Model) : res (list Coord) :=
  base ← py_index self.(current_path) (-1);
  let '(base_row, base_col) := base in
  let button_coordinates_list := [(base_row, base_col)] in
  Ok (fold_left
        (fun (button_coordinates_list : list Coord) (delta : Coord) =>
           let '(delta_row, delta_col) := delta in
           let neighbour_coordinate :=
             (base_row + delta_row, base_col + delta_col) in
           let inbounds :=
             is_coordinate_in_boundaries self neighbour_coordinate in
           let not_chosen :=
             bool_decide (neighbour_coordinate ∉ self.(current_path)) in
           if inbounds && not_chosen
           then button_coordinates_list ++ [neighbour_coordinate]
           else button_coordinates_list)
        delta_values button_coordinates_list).

End Model.

(** ** The vocabulary of the statements

    Notions the properties are stated with, defined on their own rather
    than through the code: adjacency as a distance, cells by their
    non-negative indices, the word a path spells. *)

Module Spec.

(** Two cells touch: they differ, by at most one row and one column. *)
Definition adjacent8 (a b : Coord) : Prop :=
  Z.abs (a.1 - b.1) <= 1 /\ Z.abs (a.2 - b.2) <= 1 /\ a <> b.

(** Every consecutive pair of the path touches. *)
Fixpoint linked (p : Path) : Prop :=
  match p with
  | a :: (b :: _) as t => adjacent8 a b /\ linked t
  | _ => True
  end.

(** The symbol of a cell of the grid, for a coordinate inside it. *)
Definition cell (board : Board) (c : Coord) : option string :=
  if (0 <=? c.1) && (0 <=? c.2)
  then row ← board !! Z.to_nat c.1; row !! Z.to_nat c.2
  else None.

(** The coordinate names a cell of the grid. *)
Definition in_grid (board : Board) (c : Coord) : Prop :=
  is_Some (cell board c).

(** The coordinate lies outside the grid's dimensions. *)
Definition outside_grid (board : Board) (c : Coord) : Prop :=
  c.1 < 0 \/ c.2 < 0 \/ Z.of_nat (length board) <= c.1 \/
  exists row, board !! Z.to_nat c.1 = Some row /\
              Z.of_nat (length row) <= c.2.

(** The word a path spells, when all its coordinates are in the grid. *)
Fixpoint spelled_word (board : Board) (p : Path) : option string :=
  match p with
  | [] => Some ""
  | c :: p' =>
      v ← cell board c;
      w ← spelled_word board p';
      Some (v +:+ w)
  end.

(** A path as the data model has it: non-empty, on the grid, without
    repetition, each step to a touching cell. *)
Definition simple_path (board : Board) (p : Path) : Prop :=
  p <> [] /\ NoDup p /\ Forall (in_grid board) p /\ linked p.

(** The rectangle the bounds tests of the code measure: the number of
    rows by the length of the first row. *)
Definition in_rectangle (board : Board) (c : Coord) : Prop :=
  0 <= c.1 < Z.of_nat (length board) /\
  0 <= c.2 < Z.of_nat (length (hd [] board)).

(** A grid as the data model has it: all rows of one length, no cell
    with an empty symbol. *)
Definition rectangular (board : Board) : Prop :=
  Forall (fun row => length row = length (hd [] board)) board.

Definition no_empty_symbol (board : Board) : Prop :=
  Forall (Forall (fun s : string => s <> "")) board.

Definition grid (board : Board) : Prop :=
  rectangular board /\ no_empty_symbol board.

(** An index Python accepts for a sequence of [n] elements, and the
    position it selects. *)
Definition index_ok (n i : Z) : Prop := - n <= i < n.

Definition position (n i : Z) : nat :=
  Z.to_nat (if 0 <=? i then i else n + i).

(** The element an index stands for: counted from the front, from 0, when
    the index is not negative; counted from the end, from -1, when it
    is. *)
Definition selected {A : Type} (l : list A) (i : Z) : option A :=
  if 0 <=? i then l !! Z.to_nat i else reverse l !! Z.to_nat (- i - 1).

(** [board[r][c]] does not raise. *)
Definition addressable (board : Board) (c : Coord) : Prop :=
  index_ok (Z.of_nat (length board)) c.1 /\
  forall row,
    board !! position (Z.of_nat (length board)) c.1 = Some row ->
    index_ok (Z.of_nat (length row)) c.2.

(** The score a path earns, the square of its number of cells, and the
    score of a selection of paths. *)
Definition path_score (p : Path) : Z := Z.of_nat (length p) ^ 2.

Definition total_score (l : list Path) : Z :=
  foldr (fun p s => path_score p + s) 0 l.

(** Every symbol of the board is one character. *)
Definition single_char (board : Board) : Prop :=
  Forall (Forall (fun s : string => String.length s = 1%nat)) board.

(** A path under construction and its word are in step: the path, which
    may be empty, has no repetition, stays on the grid, each step to a
    touching cell, and the word is the one it spells. *)
Definition in_step (board : Board) (path : Path) (word : string) : Prop :=
  NoDup path /\ Forall (in_grid board) path /\ linked path /\
  spelled_word board path = Some word.

End Spec.

(** ** The trace of the traversal

    The pairs (path, word) that the traversal hands to its update
    function, in the order it does so, as a function of its own, without
    dataset and without a path threaded as state.
    [SearchFacts.backtracking_action_trace] and
    [SearchFacts.backtracking_start_trace] show that the code computes the
    fold of its update function over this list, and leaves the path as it
    found it. *)

Module Trace.

Import Utils.

(** The results of the calls of [f] on the elements of [l], joined in
    order; the first call that does not return decides the outcome. *)
Fixpoint collect {A B : Type} (f : A -> res (list B)) (l : list A)
  : res (list B) :=
  match l with
  | [] => Ok []
  | x :: l' =>
      r ← f x;
      rs ← collect f l';
      Ok (r ++ rs)
  end.

Section Trace.

Variable stop_condition : Z -> Path -> string -> bool.
Variable n : Z.
Variable board : Board.

(** One round of the loop over the deltas: what the exploration of the
    neighbour in direction [delta] hands over, [rec] being the recursive
    call. *)
Definition branch (rec : gset string -> Path -> string ->
                         res (list (Path * string)))
  (words_set : gset string) (curr_path : Path) (curr_word : string)
  (delta : Coord) : res (list (Path * string)) :=
  last ← py_index curr_path (-1);
  let neighbour := find_neighbour_coordinate last delta in
  if negb (is_coordinate_in_board board neighbour) then Ok []
  else if bool_decide (neighbour ∈ curr_path) then Ok []
  else
    v ← get_value_by_coordinate board neighbour;
    let new_word := curr_word +:+ v in
    let filtered_words := filter_words_set_by_prefix words_set new_word in
    if bool_decide (size filtered_words = 0%nat) then Ok []
    else rec filtered_words (curr_path ++ [neighbour]) new_word.

Fixpoint action_trace (fuel : nat) (words_set : gset string)
  (curr_path : Path) (curr_word : string) : res (list (Path * string)) :=
  match fuel with
  | O => Timeout
  | S fuel' =>
      if stop_condition n curr_path curr_word then
        if bool_decide (curr_word ∈ words_set)
        then Ok [(curr_path, curr_word)]
        else Ok []
      else
        collect (branch (action_trace fuel') words_set curr_path curr_word)
          delta_values
  end.

(** What the traversal started at one cell hands over. *)
Definition start_cell (words_set : gset string) (row_index col_index : Z)
  : res (list (Path * string)) :=
  let coordinate := (row_index, col_index) in
  curr_word ← get_value_by_coordinate board coordinate;
  let filtered_words := filter_words_set_by_prefix words_set curr_word in
  if bool_decide (size filtered_words = 0%nat) then Ok []
  else action_trace (depth_budget board) words_set [coordinate] curr_word.

Definition start_trace (words : list string) : res (list (Path * string)) :=
  let words_set : gset string := list_to_set words in
  collect
    (fun row_index : Z =>
       row ← py_index board row_index;
       collect (start_cell words_set row_index) (py_range (length row)))
    (py_range (length board)).

End Trace.

(** Handing the pairs of a trace to an update function, one by one. *)
Definition feed {D : Type} (data_update_func : D -> Path -> string -> D)
  (tr : list (Path * string)) (dataset : D) : D :=
  fold_left (fun d x => data_update_func d x.1 x.2) tr dataset.

(** The paths a trace hands over with the word [w], in order. *)
Definition paths_for (w : string) (tr : list (Path * string)) : list Path :=
  (filter (fun x : Path * string => x.2 = w) tr).*1.

(** The dict of [max_score_paths] records a trace: its keys are distinct
    and are the words of the trace, and each word is mapped to the paths
    handed over with it, in order. *)
Definition dict_records (tr : list (Path * string)) (d : Dict) : Prop :=
  NoDup d.*1 /\
  (forall x, x ∈ tr -> x.2 ∈ d.*1) /\
  (forall k lst, (k, lst) ∈ d -> lst <> [] /\ lst = paths_for k tr).

End Trace.

(** ** gui.py: the widgets the controller drives

    Of the window, the part the two callbacks of the controller read and
    write: the [state] option of the board buttons, the texts of the
    labels, the score, the list of words found and whether a job that
    clears the answer is pending. Layout, colours of the buttons and the
    countdown are left out; a timer firing is not an operation of this
    model. *)

Module Gui.

Inductive tk_state : Type :=
| NORMAL
| DISABLED.

(** The outcome of a callback: it returns, or an exception of the model
    comes through, or a dict lookup fails; [OutOfBudget] passes on a
    [Timeout] of the model, which the methods called here never give. *)
Inductive outcome : Type :=
| Returned
| Raised (e : exn)
| RaisedKeyError
| OutOfBudget.

Definition LIGHT_TEXT_FG_COLOR : string := "#FDFDFD".

(** [str(k)] for an int. *)
Definition py_str (k : Z) : string := NilEmpty.string_of_int (Z.to_int k).

Record GUI : Type := mkGUI {
  buttons_board : gmap Coord tk_state;
  label_current_word : string * string;
  label_word_input : string;
  word_input_label_job : bool;
  score : Z;
  label_score : string;
  label_words_found : list string
}.

Definition set_buttons_board (self : GUI) (b : gmap Coord tk_state) : GUI :=
  mkGUI b self.(label_current_word) self.(label_word_input)
        self.(word_input_label_job) self.(score) self.(label_score)
        self.(label_words_found).

Definition set_all_board_buttons_state (self : GUI) (state : tk_state)
  : GUI :=
  set_buttons_board self ((fun _ => state) <$> self.(buttons_board)).

(** The loop stops at the first coordinate without a button, the buttons
    before it enabled. *)
Fixpoint enable_given_board_buttons (self : GUI)
  (buttons_to_enable : list Coord) : GUI * outcome :=
  match buttons_to_enable with
  | [] => (self, Returned)
  | coordinate :: rest =>
      match self.(buttons_board) !! coordinate with
      | Some _ =>
          enable_given_board_buttons
            (set_buttons_board self
               (<[coordinate := NORMAL]> self.(buttons_board)))
            rest
      | None => (self, RaisedKeyError)
      end
  end.

Definition update_board_buttons_state (self : GUI)
  (buttons_to_enable : list Coord) : GUI * outcome :=
  let self := set_all_board_buttons_state self DISABLED in
  enable_given_board_buttons self buttons_to_enable.

(** [__clear_word_input_job] cancels the pending job, and a new one is
    scheduled. *)
Definition button_check_on_press (self : GUI) (response : string) : GUI :=
  let self :=
    mkGUI self.(buttons_board) self.(label_current_word) response
          self.(word_input_label_job) self.(score) self.(label_score)
          self.(label_words_found) in
  let self := set_all_board_buttons_state self NORMAL in
  let self :=
    mkGUI self.(buttons_board) self.(label_current_word)
          self.(label_word_input) false self.(score) self.(label_score)
          self.(label_words_found) in
  mkGUI self.(buttons_board) self.(label_current_word)
        self.(label_word_input) true self.(score) self.(label_score)
        self.(label_words_found).

Definition add_word_to_words_found (self : GUI) (word : string) : GUI :=
  mkGUI self.(buttons_board) self.(label_current_word)
        self.(label_word_input) self.(word_input_label_job) self.(score)
        self.(label_score) (self.(label_words_found) ++ [word]).

Definition update_current_word (self : GUI) (content fg_color : string)
  : GUI :=
  mkGUI self.(buttons_board) (content, fg_color) self.(label_word_input)
        self.(word_input_label_job) self.(score) self.(label_score)
        self.(label_words_found).

Definition update_score (self : GUI) (score : Z) : GUI :=
  mkGUI self.(buttons_board) self.(label_current_word)
        self.(label_word_input) self.(word_input_label_job) score
        (py_str score) self.(label_words_found).

End Gui.

(** ** boggle.py: the two callbacks of a round *)

Module Controller.

Record Controller : Type := mkController {
  model : Model.Model;
  gui : Gui.GUI
}.

(** The callback of the board button at [coordinate]. *)
Definition board_button_callback (self : Controller) (coordinate : Coord)
  : Controller * Gui.outcome :=
  let '(m, r) := Model.update_word_and_path self.(model) coordinate in
  match r with
  | Ok _ =>
      let shown (g : Gui.GUI) :=
        Gui.update_current_word g m.(Model.current_word)
          Gui.LIGHT_TEXT_FG_COLOR in
      match m.(Model.current_path) with
      | _ :: _ =>
          match Model.get_buttons_to_enable m with
          | Ok buttons_to_enable =>
              match Gui.update_board_buttons_state self.(gui)
                      buttons_to_enable with
              | (g, Gui.Returned) => (mkController m (shown g), Gui.Returned)
              | (g, o) => (mkController m g, o)
              end
          | Raise e => (mkController m self.(gui), Gui.Raised e)
          | Timeout => (mkController m self.(gui), Gui.OutOfBudget)
          end
      | [] =>
          let g := Gui.set_all_board_buttons_state self.(gui) Gui.NORMAL in
          (mkController m (shown g), Gui.Returned)
      end
  | Raise e => (mkController m self.(gui), Gui.Raised e)
  | Timeout => (mkController m self.(gui), Gui.OutOfBudget)
  end.

Definition on_check_button_pressed (self : Controller) : Controller :=
  let '(m, response) := Model.check_word self.(model) in
  let g := Gui.update_current_word self.(gui) "" Gui.LIGHT_TEXT_FG_COLOR in
  let g := Gui.button_check_on_press g response in
  let g := Gui.update_score g m.(Model.score) in
  let g :=
    if String.prefix "You found" response
    then Gui.add_word_to_words_found g m.(Model.current_word)
    else g in
  let m := Model.reset_current_input m in
  mkController m g.

(** What the player does in a round: press a board button or the check
    button. *)
Inductive event : Type :=
| PressBoard (coordinate : Coord)
| PressCheck.

Definition handle (self : Controller) (ev : event)
  : Controller * Gui.outcome :=
  match ev with
  | PressBoard coordinate => board_button_callback self coordinate
  | PressCheck => (on_check_button_pressed self, Gui.Returned)
  end.

(** The events in turn, up to the first callback that raises. *)
Fixpoint run (self : Controller) (evs : list event)
  : Controller * Gui.outcome :=
  match evs with
  | [] => (self, Gui.Returned)
  | ev :: evs' =>
      match handle self ev with
      | (self', Gui.Returned) => run self' evs'
      | failed => failed
      end
  end.

(** The window calls the callback of a board button only while the button
    is in state [NORMAL]: every board button of the run is pressed in
    that state. *)
Fixpoint pressable (self : Controller) (evs : list event) : Prop :=
  match evs with
  | [] => True
  | ev :: evs' =>
      match ev with
      | PressBoard coordinate =>
          self.(gui).(Gui.buttons_board) !! coordinate = Some Gui.NORMAL
      | PressCheck => True
      end /\
      pressable (handle self ev).1 evs'
  end.

End Controller.

(** ** The vocabulary of a round *)

Module Round.

Import Controller.

(** The cell is offered to the player: it is a cell of the grid and the
    path is empty, or ends with it, or ends with a cell that touches it
    and does not hold it yet. *)
Definition offered (m : Model.Model) (c : Coord) : Prop :=
  Spec.in_grid m.(Model.board) c /\
  (m.(Model.current_path) = [] \/
   last m.(Model.current_path) = Some c \/
   exists b, last m.(Model.current_path) = Some b /\
             Spec.adjacent8 b c /\ (c ∉ m.(Model.current_path))).

(** The window and the session agree: the board is rectangular and has a
    button for each of its cells and no other; path and word are in
    step; the buttons in state [NORMAL] are the cells offered; the words
    found are words of the collection and are the words listed in the
    window; the score shown is the score. *)
Definition agree (self : Controller) : Prop :=
  let m := self.(model) in
  let g := self.(gui) in
  Spec.rectangular m.(Model.board) /\
  (forall c, is_Some (g.(Gui.buttons_board) !! c) <->
             Spec.in_grid m.(Model.board) c) /\
  Spec.in_step m.(Model.board) m.(Model.current_path)
    m.(Model.current_word) /\
  (forall c, g.(Gui.buttons_board) !! c = Some Gui.NORMAL <->
             offered m c) /\
  m.(Model.words_found) ⊆ m.(Model.words_collection) /\
  list_to_set g.(Gui.label_words_found) = m.(Model.words_found) /\
  g.(Gui.score) = m.(Model.score).

End Round.

(** * Properties *)

(** ** Python primitives *)

(** Case analysis on the integer comparisons of a goal. *)
Ltac zify_bool :=
  repeat match goal with
    | |- context [?a <=? ?b] => destruct (Z.leb_spec a b)
    | |- context [?a <? ?b] => destruct (Z.ltb_spec a b)
    end; simpl; try lia.

Section PyFacts.

Context {A : Type}.
Implicit Types (l : list A) (i : Z).

Lemma py_index_nonneg l i :
  0 <= i ->
  py_index l i = match l !! Z.to_nat i with
                 | Some a => Ok a
                 | None => Raise IndexError
                 end.
Proof.
  intros Hi. unfold py_index. cbv zeta. zify_bool; try done.
  rewrite lookup_ge_None_2; [done|lia].
Qed.

Lemma py_index_ok_iff l i :
  (exists a, py_index l i = Ok a) <->
  Spec.index_ok (Z.of_nat (length l)) i.
Proof.
  unfold py_index, Spec.index_ok. cbv zeta. zify_bool;
    try (split; [intros [a Ha]; discriminate | lia]).
  - destruct (lookup_lt_is_Some_2 l (Z.to_nat i)) as [a Ha]; [lia|].
    rewrite Ha. split; [lia | eauto].
  - destruct (lookup_lt_is_Some_2 l (Z.to_nat (Z.of_nat (length l) + i)))
      as [a Ha]; [lia|].
    rewrite Ha. split; [lia | eauto].
Qed.

Lemma py_index_ok_position l i a :
  py_index l i = Ok a ->
  l !! Spec.position (Z.of_nat (length l)) i = Some a.
Proof.
  unfold py_index, Spec.position.
  destruct (_ && _); [|discriminate].
  destruct (l !! _) eqn:E; [|discriminate]. by intros [= ->].
Qed.

Lemma py_index_selected l i a :
  py_index l i = Ok a -> Spec.selected l i = Some a.
Proof.
  unfold py_index, Spec.selected. cbv zeta.
  destruct (Z.leb_spec 0 i) as [Hi|Hi].
  - destruct (_ && _); [|discriminate].
    destruct (l !! _) eqn:E; [|discriminate]. by intros [= ->].
  - destruct (Z.leb_spec 0 (Z.of_nat (length l) + i)); [|discriminate].
    destruct (Z.ltb_spec (Z.of_nat (length l) + i) (Z.of_nat (length l)));
      [|discriminate].
    simpl. destruct (l !! _) eqn:E; [|discriminate]. intros [= ->].
    rewrite reverse_lookup by lia. rewrite <- E. f_equal. lia.
Qed.

Lemma py_index_raises l i e : py_index l i = Raise e -> e = IndexError.
Proof.
  unfold py_index. destruct (_ && _); [|by intros [= <-]].
  destruct (l !! _); [discriminate | by intros [= <-]].
Qed.

Lemma py_index_not_timeout l i : py_index l i <> Timeout.
Proof.
  unfold py_index. destruct (_ && _); [|discriminate].
  destruct (l !! _); discriminate.
Qed.

Lemma py_index_last l a : py_index (l ++ [a]) (-1) = Ok a.
Proof.
  unfold py_index. cbv zeta. rewrite length_app. simpl length.
  replace (Z.of_nat (length l + 1) + -1) with (Z.of_nat (length l)) by lia.
  zify_bool.
  rewrite Nat2Z.id, lookup_app_r by lia.
  by rewrite Nat.sub_diag.
Qed.

Lemma py_pop_snoc l a : py_pop (l ++ [a]) = Ok l.
Proof.
  unfold py_pop. destruct (l ++ [a]) eqn:E.
  - by destruct l.
  - rewrite <- E. by rewrite removelast_last.
Qed.

Context `{EqDecision A}.

Lemma py_remove_fresh_snoc l a : a ∉ l -> py_remove a (l ++ [a]) = Ok l.
Proof.
  induction l as [|b l IH]; simpl; intros Hn.
  - by rewrite decide_True.
  - rewrite decide_False by (intros ->; apply Hn; left).
    rewrite IH; [done|]. intros ?; apply Hn; by right.
Qed.

Lemma py_remove_elem l a : a ∈ l -> exists l', py_remove a l = Ok l'.
Proof.
  induction l as [|b l IH]; simpl; intros Hin.
  - by apply elem_of_nil in Hin.
  - destruct (decide (b = a)); [eauto|].
    apply elem_of_cons in Hin as [->|Hin]; [done|].
    destruct (IH Hin) as [l' ->]. simpl. eauto.
Qed.

End PyFacts.

(** ** The grid *)

Module GridFacts.

Import Utils.

Lemma are_neighbours_adjacent8 (a b : Coord) :
  are_neighbours a b = true <-> Spec.adjacent8 a b.
Proof.
  destruct a as [r1 c1], b as [r2 c2].
  unfold are_neighbours, Spec.adjacent8, delta_values. simpl.
  rewrite !orb_true_iff, !bool_decide_eq_true. split.
  - intros H.
    repeat (destruct H as [H|H]); try discriminate;
      injection H as <- <-; (split; [lia | split; [lia|]]);
      intros [= ? ?]; lia.
  - intros (Hr & Hc & Hne).
    assert (Hr' : r2 = r1 + -1 \/ r2 = r1 + 0 \/ r2 = r1 + 1) by lia.
    assert (Hc' : c2 = c1 + -1 \/ c2 = c1 + 0 \/ c2 = c1 + 1) by lia.
    destruct Hr' as [->| [->| ->]], Hc' as [->| [->| ->]]; auto 10.
    exfalso. apply Hne. f_equal; lia.
Qed.

(** A touching cell is reached from [a] by one of the eight deltas. *)
Lemma adjacent8_delta (a b : Coord) :
  Spec.adjacent8 a b ->
  exists d, d ∈ delta_values /\ find_neighbour_coordinate a d = b.
Proof.
  intros H%are_neighbours_adjacent8. destruct a as [r1 c1].
  unfold are_neighbours in H. apply existsb_exists in H as (d & Hd & Hb).
  apply bool_decide_eq_true in Hb. exists d. split; [|done].
  by apply list_elem_of_In.
Qed.

Lemma delta_adjacent8 (a d : Coord) :
  d ∈ delta_values -> Spec.adjacent8 a (find_neighbour_coordinate a d).
Proof.
  intros Hd. apply are_neighbours_adjacent8. destruct a as [r1 c1].
  unfold are_neighbours. apply existsb_exists. exists d.
  split; [by apply list_elem_of_In|]. by apply bool_decide_eq_true.
Qed.

(** Inside the grid, [board[r][c]] is the cell. *)
Lemma get_value_cell (board : Board) (c : Coord) (v : string) :
  Spec.cell board c = Some v -> get_value_by_coordinate board c = Ok v.
Proof.
  destruct c as [r k]. unfold Spec.cell, get_value_by_coordinate. simpl.
  destruct (Z.leb_spec 0 r); [|discriminate].
  destruct (Z.leb_spec 0 k); [|discriminate]. simpl.
  destruct (board !! Z.to_nat r) as [row|] eqn:Hrow; [|discriminate].
  simpl. intros Hv.
  rewrite py_index_nonneg, Hrow by done. simpl.
  rewrite py_index_nonneg, Hv by done. done.
Qed.

Lemma get_value_cell_inv (board : Board) (c : Coord) (v : string) :
  0 <= c.1 -> 0 <= c.2 ->
  get_value_by_coordinate board c = Ok v -> Spec.cell board c = Some v.
Proof.
  destruct c as [r k]. unfold Spec.cell, get_value_by_coordinate. simpl.
  intros Hr Hk.
  destruct (Z.leb_spec 0 r); [|lia].
  destruct (Z.leb_spec 0 k); [|lia]. simpl.
  rewrite py_index_nonneg by done.
  destruct (board !! Z.to_nat r) as [row|]; [|discriminate]. simpl.
  rewrite py_index_nonneg by done.
  destruct (row !! Z.to_nat k); [|discriminate]. by intros [= ->].
Qed.

Lemma get_value_raises (board : Board) (c : Coord) (e : exn) :
  get_value_by_coordinate board c = Raise e -> e = IndexError.
Proof.
  destruct c as [r k]. unfold get_value_by_coordinate.
  destruct (py_index board r) as [row| |] eqn:E; simpl.
  - apply py_index_raises.
  - intros [= <-]. by apply py_index_raises in E.
  - discriminate.
Qed.

Lemma get_value_not_timeout (board : Board) (c : Coord) :
  get_value_by_coordinate board c <> Timeout.
Proof.
  destruct c as [r k]. unfold get_value_by_coordinate.
  destruct (py_index board r) as [row| |] eqn:E; simpl.
  - apply py_index_not_timeout.
  - discriminate.
  - by apply py_index_not_timeout in E.
Qed.

(** [board[r][c]] returns exactly at the indices Python accepts. *)
Lemma get_value_addressable (board : Board) (c : Coord) :
  (exists v, get_value_by_coordinate board c = Ok v) <->
  Spec.addressable board c.
Proof.
  destruct c as [r k]. unfold get_value_by_coordinate, Spec.addressable.
  simpl. split.
  - intros [v Hv].
    destruct (py_index board r) as [row| |] eqn:E; try discriminate.
    simpl in Hv. split; [apply py_index_ok_iff; eauto|].
    intros row' Hrow'. apply py_index_ok_position in E.
    rewrite E in Hrow'. injection Hrow' as <-.
    apply py_index_ok_iff; eauto.
  - intros [Hr Hk]. apply py_index_ok_iff in Hr as [row Hrow].
    rewrite Hrow. simpl. apply py_index_ok_iff, Hk.
    by apply py_index_ok_position.
Qed.

(** What [board[r][c]] returns is the element the two indices stand
    for. *)
Lemma get_value_selected (board : Board) (c : Coord) (v : string) :
  get_value_by_coordinate board c = Ok v ->
  exists row, Spec.selected board c.1 = Some row /\
              Spec.selected row c.2 = Some v.
Proof.
  destruct c as [r k]. unfold get_value_by_coordinate. simpl.
  destruct (py_index board r) as [row| |] eqn:E; simpl; [|done..].
  intros Hv. exists row. split; by apply py_index_selected.
Qed.

Lemma is_coordinate_in_board_rectangle (board : Board) (c : Coord) :
  is_coordinate_in_board board c = true <-> Spec.in_rectangle board c.
Proof.
  unfold is_coordinate_in_board, Spec.in_rectangle.
  destruct board as [|row0 board]; simpl.
  - rewrite andb_false_r. split; [done | lia].
  - rewrite !andb_true_iff, !Z.leb_le, !Z.ltb_lt. lia.
Qed.

(** On a rectangular board the rectangle is the grid. *)
Lemma in_rectangle_in_grid (board : Board) (c : Coord) :
  Spec.rectangular board ->
  Spec.in_rectangle board c <-> Spec.in_grid board c.
Proof.
  intros Hrect. unfold Spec.in_rectangle, Spec.in_grid, Spec.cell.
  destruct c as [r k]. simpl. split.
  - intros [Hr Hk].
    destruct (Z.leb_spec 0 r); [|lia]. destruct (Z.leb_spec 0 k); [|lia].
    simpl.
    destruct (lookup_lt_is_Some_2 board (Z.to_nat r)) as [row Hrow]; [lia|].
    rewrite Hrow. simpl. apply lookup_lt_is_Some_2.
    eapply Forall_lookup_1 in Hrect; [|done]. simpl in Hrect. lia.
  - destruct (Z.leb_spec 0 r); [|by intros [? [=]]].
    destruct (Z.leb_spec 0 k); [|by intros [? [=]]]. simpl.
    destruct (board !! Z.to_nat r) as [row|] eqn:Hrow;
      [|by intros [? [=]]].
    simpl. intros Hk%lookup_lt_is_Some_1.
    pose proof (lookup_lt_Some _ _ _ Hrow).
    eapply Forall_lookup_1 in Hrect; [|done]. simpl in Hrect. lia.
Qed.

End GridFacts.

(** ** Strings *)

Section StringFacts.

Implicit Types (s t u w p : string).

Lemma str_app_cons a s t : String a s +:+ t = String a (s +:+ t).
Proof. reflexivity. Qed.

Lemma str_app_nil_r s : s +:+ "" = s.
Proof. induction s as [|a s IH]; [done|]. by rewrite str_app_cons, IH. Qed.

Lemma str_app_assoc s t u : (s +:+ t) +:+ u = s +:+ (t +:+ u).
Proof.
  induction s as [|a s IH]; [done|]. by rewrite !str_app_cons, IH.
Qed.

Lemma str_length_app s t :
  String.length (s +:+ t) = (String.length s + String.length t)%nat.
Proof.
  induction s as [|a s IH]; [done|]. rewrite str_app_cons. simpl. by rewrite IH.
Qed.

Lemma str_substring_app s t :
  String.substring 0 (String.length s) (s +:+ t) = s.
Proof.
  induction s as [|a s IH].
  - simpl. by destruct t.
  - rewrite str_app_cons. simpl. by rewrite IH.
Qed.

Lemma str_prefix_app p s : String.prefix p (p +:+ s) = true.
Proof.
  induction p as [|a p IH]; [by destruct s|].
  rewrite str_app_cons. simpl. by destruct (ascii_dec a a).
Qed.

Lemma py_slice_to_app s t :
  py_slice_to (s +:+ t)
    (Z.of_nat (String.length (s +:+ t)) - Z.of_nat (String.length t)) = s.
Proof.
  unfold py_slice_to. cbv zeta. rewrite str_length_app.
  destruct (Z.leb_spec 0
    (Z.of_nat (String.length s + String.length t) - Z.of_nat (String.length t)));
    [|lia].
  replace (Z.to_nat _) with (String.length s) by lia.
  apply str_substring_app.
Qed.

End StringFacts.

(** ** The interactive session *)

Module SessionFacts.

Import Utils Model.

(** The guard of the undo branch holds when the path ends with the
    coordinate. *)
Lemma last_is_spec (path : Path) (c : Coord) :
  last_is path c = true <-> last path = Some c.
Proof.
  destruct (decide (path = [])) as [->|Hne]; [done|].
  destruct (exists_last Hne) as (p & b & ->).
  unfold last_is. rewrite py_index_last, last_snoc.
  destruct p; simpl; rewrite bool_decide_eq_true; naive_solver.
Qed.

Lemma last_is_false (path : Path) (c : Coord) :
  last path <> Some c -> last_is path c = false.
Proof.
  intros H. apply not_true_is_false. by rewrite last_is_spec.
Qed.

Lemma last_elem_of (path : Path) (c : Coord) : last path = Some c -> c ∈ path.
Proof.
  destruct (decide (path = [])) as [->|Hne]; [done|].
  destruct (exists_last Hne) as (p & b & ->).
  rewrite last_snoc. intros [= ->]. apply elem_of_app. right. by left.
Qed.

(** The loop of [get_buttons_to_enable] keeps the deltas that pass the
    test, in order. *)
Lemma fold_left_select {A B : Type} (keep : A -> bool) (f : A -> B)
  (body : list B -> A -> list B) (ds : list A) (acc : list B) :
  (forall acc d, body acc d = if keep d then acc ++ [f d] else acc) ->
  fold_left body ds acc = acc ++ map f (filter (fun d => keep d = true) ds).
Proof.
  intros Hbody. revert acc. induction ds as [|d ds IH]; intros acc; simpl.
  - by rewrite app_nil_r.
  - rewrite IH, Hbody, filter_cons.
    destruct (keep d) eqn:E.
    + rewrite decide_True by done. simpl. by rewrite <- app_assoc.
    + rewrite decide_False by done. done.
Qed.

(** The two branches of [update_word_and_path]. *)
Lemma update_word_and_path_add (self : Model) (c : Coord) (v : string) :
  last self.(current_path) <> Some c ->
  get_value_by_coordinate self.(board) c = Ok v ->
  update_word_and_path self c
  = (mkModel self.(board) self.(words_collection) self.(words_found)
       (self.(current_word) +:+ v) (self.(current_path) ++ [c])
       self.(score),
     Ok ()).
Proof.
  intros Hlast Hv. unfold update_word_and_path. destruct c as [y x].
  rewrite (last_is_false _ _ Hlast), Hv. reflexivity.
Qed.

Lemma update_word_and_path_add_raises (self : Model) (c : Coord) (e : exn) :
  last self.(current_path) <> Some c ->
  get_value_by_coordinate self.(board) c = Raise e ->
  update_word_and_path self c = (self, Raise e).
Proof.
  intros Hlast Hv. unfold update_word_and_path. destruct c as [y x].
  rewrite (last_is_false _ _ Hlast), Hv. reflexivity.
Qed.

Lemma update_word_and_path_retract (b : Board) (wc wf : gset string)
  (w v : string) (p : Path) (c : Coord) (s : Z) :
  c ∉ p ->
  get_value_by_coordinate b c = Ok v ->
  update_word_and_path (mkModel b wc wf (w +:+ v) (p ++ [c]) s) c
  = (mkModel b wc wf w p s, Ok ()).
Proof.
  intros Hfresh Hv. unfold update_word_and_path. destruct c as [y x].
  cbn [current_path board current_word].
  rewrite (proj2 (last_is_spec (p ++ [(y, x)]) (y, x))) by apply last_snoc.
  rewrite py_remove_fresh_snoc by done.
  cbn [set_current_path set_current_word current_path board current_word
       words_collection words_found score].
  by rewrite Hv, py_slice_to_app.
Qed.

End SessionFacts.

(** ** Claims about the grid and the session *)

Import Utils Model GridFacts SessionFacts.

(** C9, counterexample. The coordinate (-1, -1) lies outside the
    dimensions of a one-cell grid, yet [__get_value_by_coordinate] returns
    the symbol of the cell and [update_word_and_path] adds it: Python
    counts a negative index from the end of the list. *)
Lemma get_value_negative_index_wraps :
  let board := [["a"]] in
  Spec.outside_grid board (-1, -1) /\
  get_value_by_coordinate board (-1, -1) = Ok "a" /\
  update_word_and_path (mkModel board ∅ ∅ "" [] 0) (-1, -1)
  = (mkModel board ∅ ∅ "a" [(-1, -1)] 0, Ok ()).
Proof.
  split; [left; simpl; lia|]. split; reflexivity.
Qed.

(** C9, as amended. Requesting the value at a coordinate whose row index
    is not in [-rows, rows), or whose column index is not in
    [-len, len) for the length of the selected row, raises [IndexError],
    in [__get_value_by_coordinate] and in the board indexing of
    [update_word_and_path]. At every other coordinate the value returned
    is the element the indices stand for, a negative index counting from
    the end: the row is the one [Spec.selected] gives for the row index,
    the value the one it gives in that row for the column index, and
    [update_word_and_path], where the coordinate is not the last of the
    path, adds this value to the word. *)
Theorem get_value_out_of_range_raises (board : Board) (c : Coord) :
  (~ Spec.addressable board c ->
   get_value_by_coordinate board c = Raise IndexError /\
   forall self : Model,
     self.(Model.board) = board ->
     (update_word_and_path self c).2 = Raise IndexError) /\
  (Spec.addressable board c ->
   exists (row : list string) (v : string),
     Spec.selected board c.1 = Some row /\
     Spec.selected row c.2 = Some v /\
     get_value_by_coordinate board c = Ok v /\
     forall self : Model,
       self.(Model.board) = board ->
       last self.(current_path) <> Some c ->
       update_word_and_path self c
       = (mkModel board self.(words_collection) self.(words_found)
            (self.(current_word) +:+ v) (self.(current_path) ++ [c])
            self.(score),
          Ok ())).
Proof.
  split.
  - intros Hna.
    assert (Hraise : get_value_by_coordinate board c = Raise IndexError).
    { destruct (get_value_by_coordinate board c) as [v|e|] eqn:E.
      - exfalso. apply Hna, get_value_addressable. eauto.
      - by rewrite (get_value_raises _ _ _ E).
      - by apply get_value_not_timeout in E. }
    split; [done|]. intros self <-.
    unfold update_word_and_path. destruct c as [y x].
    destruct (last_is (current_path self) (y, x)) eqn:Hlast.
    + apply last_is_spec, last_elem_of, py_remove_elem in Hlast as [p ->].
      unfold set_current_path; simpl. by rewrite Hraise.
    + by rewrite Hraise.
  - intros [v Hv]%get_value_addressable.
    destruct (get_value_selected _ _ _ Hv) as (row & Hrow & Hcol).
    exists row, v. do 3 (split; [done|]).
    intros self <- Hlast. by apply update_word_and_path_add.
Qed.

Lemma get_value_out_of_range_raises_witness :
  get_value_by_coordinate [["a"]] (1, 0) = Raise IndexError /\
  get_value_by_coordinate [["a"; "b"]; ["c"; "d"]] (-1, -2) = Ok "c".
Proof.
  split.
  - apply (get_value_out_of_range_raises [["a"]] (1, 0)).
    intros [H _]. unfold Spec.index_ok in H. simpl in H. lia.
  - destruct (get_value_out_of_range_raises
                [["a"; "b"]; ["c"; "d"]] (-1, -2)) as [_ H].
    destruct H as (row & v & Hrow & Hcol & Hget & _).
    + split; [unfold Spec.index_ok; simpl; lia|].
      intros row Hrow. vm_compute in Hrow. injection Hrow as <-.
      unfold Spec.index_ok. simpl. lia.
    + vm_compute in Hrow. injection Hrow as <-.
      vm_compute in Hcol. injection Hcol as <-. exact Hget.
Defined.

(** C10. [is_valid_path] returns the spelled word of every non-empty path
    on the grid whose consecutive coordinates touch and whose spelled
    word is in [words]; that the coordinates are distinct is not asked
    for, so a path that comes back to a cell is accepted. *)
Theorem is_valid_path_accepts (board : Board) (path : Path)
  (words : list string) (w : string) :
  path <> [] ->
  Spec.linked path ->
  Spec.spelled_word board path = Some w ->
  w ∈ words ->
  is_valid_path board path words = Ok (Some w).
Proof.
  intros Hne Hlinked Hw Hin. unfold is_valid_path.
  assert (Hloop : forall acc,
    is_valid_path_loop board path acc = Ok (Some (acc +:+ w))).
  { clear Hin. revert w Hw.
    induction path as [|c path IH]; [done|]. intros w Hw acc.
    simpl in Hw.
    destruct (Spec.cell board c) as [v|] eqn:Hv; [|done]. simpl in Hw.
    destruct (Spec.spelled_word board path) as [w'|] eqn:Hw'; [|done].
    injection Hw as <-.
    apply get_value_cell in Hv.
    destruct path as [|c' path].
    - simpl in Hw'. injection Hw' as <-. simpl. rewrite Hv. simpl.
      by rewrite str_app_nil_r.
    - destruct Hlinked as [Hadj Hlinked].
      apply are_neighbours_adjacent8 in Hadj.
      change (is_valid_path_loop board (c :: c' :: path) acc)
        with (if are_neighbours c c'
              then v ← get_value_by_coordinate board c;
                   is_valid_path_loop board (c' :: path) (acc +:+ v)
              else Ok None).
      rewrite Hadj, Hv. simpl bind.
      change (is_valid_path_loop board (c' :: path) (acc +:+ v)
              = Ok (Some (acc +:+ v +:+ w'))).
      rewrite (IH ltac:(done) Hlinked w' eq_refl).
      by rewrite str_app_assoc. }
  rewrite Hloop. simpl. by rewrite bool_decide_true.
Qed.

Lemma is_valid_path_accepts_witness :
  ~ NoDup [(0, 0); (0, 1); (0, 0)] /\
  is_valid_path [["a"; "b"]] [(0, 0); (0, 1); (0, 0)] ["aba"]
  = Ok (Some "aba").
Proof.
  split.
  - intros H. apply NoDup_cons_1_1 in H. apply H. right. left.
  - apply (is_valid_path_accepts [["a"; "b"]] [(0, 0); (0, 1); (0, 0)]
             ["aba"] "aba").
    + discriminate.
    + simpl. unfold Spec.adjacent8. simpl. repeat split; try lia; discriminate.
    + reflexivity.
    + left.
Defined.

(** C5, counterexample. With the path (0,0), (0,1) on the board and the
    word "ab", toggling (0,0), which is in the path and not its last
    cell, extends both the path and the word. *)
Lemma update_word_and_path_revisit_changes :
  let self := mkModel [["a"; "b"]] ∅ ∅ "ab" [(0, 0); (0, 1)] 0 in
  let self' := (update_word_and_path self (0, 0)).1 in
  (0, 0) ∈ self.(current_path) /\
  last self.(current_path) <> Some (0, 0) /\
  self'.(current_path) = [(0, 0); (0, 1); (0, 0)] /\
  self'.(current_word) = "aba" /\
  self'.(current_path) <> self.(current_path) /\
  self'.(current_word) <> self.(current_word).
Proof.
  simpl. split; [left|]. repeat split; discriminate.
Qed.

(** C5, as amended. [update_word_and_path] does not reject a coordinate
    that is already in the path: when the coordinate is not the last
    element of the path, present in it or not, and addresses a cell of
    the board, the call appends it to the path and its symbol to the
    word, and returns normally. The session relies on its caller to offer
    the cells of [get_buttons_to_enable] only. *)
Theorem update_word_and_path_revisit_appends (self : Model) (c : Coord)
  (v : string) :
  c ∈ self.(current_path) ->
  last self.(current_path) <> Some c ->
  get_value_by_coordinate self.(board) c = Ok v ->
  update_word_and_path self c
  = (mkModel self.(board) self.(words_collection) self.(words_found)
       (self.(current_word) +:+ v) (self.(current_path) ++ [c])
       self.(score),
     Ok ()).
Proof.
  intros _ Hlast Hv. by apply update_word_and_path_add.
Qed.

Lemma update_word_and_path_revisit_appends_witness :
  update_word_and_path
    (mkModel [["a"; "b"]] ∅ ∅ "ab" [(0, 0); (0, 1)] 0) (0, 0)
  = (mkModel [["a"; "b"]] ∅ ∅ "aba" [(0, 0); (0, 1); (0, 0)] 0, Ok ()).
Proof.
  apply (update_word_and_path_revisit_appends
           (mkModel [["a"; "b"]] ∅ ∅ "ab" [(0, 0); (0, 1)] 0) (0, 0) "a").
  - left.
  - discriminate.
  - reflexivity.
Defined.

(** C6, counterexample. With an empty path [get_buttons_to_enable] does
    not return the coordinates of the grid: it raises [IndexError] on
    [self.__current_path[-1]]. *)
Lemma get_buttons_to_enable_empty_path_raises :
  let self := mkModel [["a"; "b"]] ∅ ∅ "" [] 0 in
  self.(current_path) = [] /\
  get_buttons_to_enable self = Raise IndexError.
Proof. split; reflexivity. Qed.

(** C6, as amended. When the path is non-empty, [get_buttons_to_enable]
    returns the last cell of the path followed by exactly the cells that
    touch it, lie within the bounds (a row below the number of rows, a
    column below the length of the first row) and are not in the path.
    When the path is empty it raises [IndexError]: the controller calls
    it on a non-empty path only and enables every button otherwise. *)
Theorem get_buttons_to_enable_spec (self : Model) :
  (self.(current_path) = [] ->
   get_buttons_to_enable self = Raise IndexError) /\
  (forall (p : Path) (b : Coord),
     self.(current_path) = p ++ [b] ->
     exists l : list Coord,
       get_buttons_to_enable self = Ok (b :: l) /\
       forall c : Coord,
         c ∈ l <->
         Spec.adjacent8 b c /\ Spec.in_rectangle self.(board) c /\
         c ∉ self.(current_path)).
Proof.
  split.
  - intros Hp. unfold get_buttons_to_enable. by rewrite Hp.
  - intros p b Hp. unfold get_buttons_to_enable.
    rewrite Hp, py_index_last. destruct b as [br bc].
    cbn [mbind res_bind bind].
    rewrite (fold_left_select
      (fun d : Coord =>
         is_coordinate_in_boundaries self (br + d.1, bc + d.2)
         && bool_decide ((br + d.1, bc + d.2) ∉ p ++ [(br, bc)]))
      (fun d : Coord => (br + d.1, bc + d.2)))
      by (by intros acc [dr dc]).
    eexists. split; [reflexivity|]. intros c.
    rewrite list_elem_of_fmap. setoid_rewrite list_elem_of_filter.
    change (is_coordinate_in_boundaries self)
      with (is_coordinate_in_board self.(board)).
    split.
    + intros (d & -> & Hkeep & Hd).
      apply andb_true_iff in Hkeep as [Hin Hnot].
      apply bool_decide_eq_true in Hnot.
      apply is_coordinate_in_board_rectangle in Hin.
      split; [|done]. by apply (delta_adjacent8 (br, bc) d).
    + intros (Hadj & Hin & Hnot).
      apply adjacent8_delta in Hadj as (d & Hd & <-).
      exists d. split; [done|]. split; [|done].
      apply andb_true_iff. split.
      * by apply is_coordinate_in_board_rectangle.
      * by apply bool_decide_eq_true.
Qed.

Lemma get_buttons_to_enable_spec_witness :
  let self := mkModel [["C"; "A"; "T"]] ∅ ∅ "C" [(0, 0)] 0 in
  exists l : list Coord,
    get_buttons_to_enable self = Ok ((0, 0) :: l) /\
    forall c : Coord,
      c ∈ l <->
      Spec.adjacent8 (0, 0) c /\ Spec.in_rectangle self.(board) c /\
      c ∉ self.(current_path).
Proof.
  intros self.
  apply (proj2 (get_buttons_to_enable_spec self) [] (0, 0)).
  reflexivity.
Defined.

(** C7. [check_word] answers that the current word is not a word when it
    is absent from the word collection, and that it was already found
    when it is in the collection and among the words found; in both cases
    the session, its score and its found words included, is unchanged.
    Otherwise the word joins the words found, the score grows by the
    square of the number of cells of the path (for a square within the
    exact range of [math.pow]), and the answer is the plain message for a
    word of fewer than 6 characters and the "Nice work!" one from 6 on. *)
Theorem check_word_spec (self : Model) :
  let w := self.(current_word) in
  (w ∉ self.(words_collection) ->
   check_word self = (self, msg_not_a_word w)) /\
  (w ∈ self.(words_collection) -> w ∈ self.(words_found) ->
   check_word self = (self, msg_already_found w)) /\
  (w ∈ self.(words_collection) -> w ∉ self.(words_found) ->
   Z.of_nat (length self.(current_path)) ^ 2 <= float_exact ->
   (check_word self).1
   = mkModel self.(board) self.(words_collection)
       ({[ w ]} ∪ self.(words_found)) w self.(current_path)
       (self.(score) + Z.of_nat (length self.(current_path)) ^ 2) /\
   ((String.length w < 6)%nat -> (check_word self).2 = msg_found w) /\
   ((6 <= String.length w)%nat -> (check_word self).2 = msg_found_nice w)).
Proof.
  intros w. unfold check_word. fold w.
  split; [|split].
  - intros Hn. by rewrite bool_decide_true.
  - intros Hin Hf.
    rewrite bool_decide_false by (by intros H; apply H).
    by rewrite bool_decide_true.
  - intros Hin Hnf _.
    rewrite bool_decide_false by (by intros H; apply H).
    rewrite bool_decide_false by done.
    cbn [increase_score set_words_found set_score fst current_word
         current_path score board words_collection words_found].
    fold w. unfold int_pow2. rewrite Z.pow_2_r.
    destruct (Z.ltb_spec (Z.of_nat (String.length w)) 6);
      (split; [done|]); split; intros; (done || lia).
Qed.

Lemma check_word_spec_witness :
  let self :=
    mkModel [["C"; "A"; "T"]] {[ "CAT" ]} ∅ "CAT" [(0, 0); (0, 1); (0, 2)] 0 in
  (check_word self).1
  = mkModel [["C"; "A"; "T"]] {[ "CAT" ]} ({[ "CAT" ]} ∪ ∅) "CAT"
      [(0, 0); (0, 1); (0, 2)] (0 + Z.of_nat 3 ^ 2) /\
  ((String.length "CAT" < 6)%nat ->
   (check_word self).2 = msg_found "CAT") /\
  ((6 <= String.length "CAT")%nat ->
   (check_word self).2 = msg_found_nice "CAT").
Proof.
  intros self.
  apply (proj2 (proj2 (check_word_spec self))).
  - change ("CAT" ∈ ({[ "CAT" ]} : gset string)).
    by apply elem_of_singleton_2.
  - change ("CAT" ∉ (∅ : gset string)). apply not_elem_of_empty.
  - unfold float_exact. simpl. lia.
Defined.

(** C8. Toggling a coordinate that is not in the path and toggling it
    again leaves the path and the word as they were before the first
    call; when the coordinate addresses a cell of the board both calls
    return normally, the first having appended the coordinate and its
    symbol, and the whole session is restored. The path need not even be
    free of repetitions. *)
Theorem update_word_and_path_undo (self : Model) (c : Coord) :
  c ∉ self.(current_path) ->
  let s1 := (update_word_and_path self c).1 in
  let s2 := (update_word_and_path s1 c).1 in
  s2.(current_path) = self.(current_path) /\
  s2.(current_word) = self.(current_word) /\
  forall v : string,
    get_value_by_coordinate self.(board) c = Ok v ->
    (update_word_and_path self c).2 = Ok () /\
    s1.(current_path) = self.(current_path) ++ [c] /\
    s1.(current_word) = self.(current_word) +:+ v /\
    (update_word_and_path s1 c).2 = Ok () /\
    s2 = self.
Proof.
  intros Hfresh.
  assert (Hl : last self.(current_path) <> Some c).
  { intros H. by apply Hfresh, last_elem_of. }
  destruct (get_value_by_coordinate self.(board) c) as [v|e|] eqn:Hv.
  - rewrite (update_word_and_path_add self c v Hl Hv).
    destruct self as [b wc wf w p s]. cbn [fst snd] in *.
    simpl in Hfresh, Hv.
    cbn [current_path board current_word words_collection words_found score].
    rewrite (update_word_and_path_retract b wc wf w v p c s Hfresh Hv).
    cbn [fst snd current_path current_word].
    split; [done|]. split; [done|]. by intros v' [= <-].
  - rewrite (update_word_and_path_add_raises self c e Hl Hv).
    cbn [fst snd].
    rewrite (update_word_and_path_add_raises self c e Hl Hv).
    split; [done|]. split; [done|]. intros v' [=].
  - by apply get_value_not_timeout in Hv.
Qed.

Lemma update_word_and_path_undo_witness :
  let self := mkModel [["C"; "A"; "T"]] ∅ ∅ "C" [(0, 0)] 0 in
  let s1 := (update_word_and_path self (0, 1)).1 in
  let s2 := (update_word_and_path s1 (0, 1)).1 in
  s2.(current_path) = [(0, 0)] /\ s2.(current_word) = "C".
Proof.
  intros self s1 s2.
  destruct (update_word_and_path_undo self (0, 1)) as (Hp & Hw & _).
  - intros H. apply list_elem_of_singleton in H. discriminate.
  - split; [exact Hp | exact Hw].
Defined.

(** ** The search engine *)

Module SearchFacts.

Import Utils Trace GridFacts.

(** Reduction of the monad operations only. *)
Tactic Notation "res_simpl" := cbn [mbind res_bind bind].
Tactic Notation "res_simpl" "in" hyp(H) := cbn [mbind res_bind bind] in H.

(** *** Loops *)

Section Loops.

Context {A B S : Type}.

Lemma fold_left_inv (I : S -> Prop) (g : S -> B -> S) (r : list B) (s : S) :
  (forall s b, I s -> I (g s b)) -> I s -> I (fold_left g r s).
Proof.
  intros Hg. revert s. induction r as [|b r IH]; simpl; auto.
Qed.

(** A loop whose body folds [g] over the results of [f] folds [g] over
    the results [collect] joins. *)
Lemma for_each_collect (I : S -> Prop) (g : S -> B -> S)
  (body : S -> A -> res S) (f : A -> res (list B)) (l : list A) :
  (forall s b, I s -> I (g s b)) ->
  (forall s x, I s -> x ∈ l ->
               body s x = (r ← f x; Ok (fold_left g r s))) ->
  forall s, I s ->
            for_each body l s = (rs ← collect f l; Ok (fold_left g rs s)).
Proof.
  intros Hg. induction l as [|x l IH]; intros Hbody s Hs; [done|].
  simpl. rewrite (Hbody s x Hs) by left.
  destruct (f x) as [r| |]; simpl; [|done..].
  rewrite IH.
  - destruct (collect f l) as [rs| |]; simpl; [|done..].
    by rewrite fold_left_app.
  - intros s' x' Hs' Hx'. apply Hbody; [done | by right].
  - by apply fold_left_inv.
Qed.

(** [collect] returns when every call does, and then joins what they
    return. *)
Lemma collect_ok (f : A -> res (list B)) (l : list A) (rs : list B) :
  collect f l = Ok rs ->
  forall y, y ∈ rs <-> exists x r, x ∈ l /\ f x = Ok r /\ y ∈ r.
Proof.
  revert rs. induction l as [|x l IH]; simpl; intros rs.
  - intros [= <-] y. split; [by intros ?%elem_of_nil|].
    by intros (x & r & ?%elem_of_nil & _).
  - destruct (f x) as [r| |] eqn:Hfx; simpl; [|done..].
    destruct (collect f l) as [rs'| |]; simpl; [|done..].
    intros [= <-] y. rewrite elem_of_app, (IH rs' eq_refl). split.
    + intros [Hy|(x' & r' & Hx' & Hf & Hy)].
      * exists x, r. split; [left|]; done.
      * exists x', r'. split; [right|]; done.
    + intros (x' & r' & [->|Hx']%elem_of_cons & Hf & Hy).
      * left. congruence.
      * right. eauto.
Qed.

Lemma collect_not_timeout (f : A -> res (list B)) (l : list A) :
  (forall x, x ∈ l -> f x <> Timeout) -> collect f l <> Timeout.
Proof.
  induction l as [|x l IH]; simpl; intros Hf; [done|].
  destruct (f x) as [r| |] eqn:Hfx; simpl.
  - destruct (collect f l) as [rs| |] eqn:Hc; simpl; [done..|].
    exfalso. apply IH; [|done]. intros x' Hx'. apply Hf. by right.
  - done.
  - exfalso. by apply (Hf x); [left|].
Qed.

Lemma collect_not_raise (f : A -> res (list B)) (l : list A) (e : exn) :
  (forall x, x ∈ l -> f x <> Raise e) -> collect f l <> Raise e.
Proof.
  induction l as [|x l IH]; simpl; intros Hf; [done|].
  destruct (f x) as [r|e'|] eqn:Hfx; simpl.
  - destruct (collect f l) as [rs|e'|] eqn:Hc; simpl; [done| |done].
    intros [= ->]. apply IH; [|done]. intros x' Hx'. apply Hf. by right.
  - intros [= ->]. by apply (Hf x); [left|].
  - done.
Qed.

Lemma collect_ok_inv (f : A -> res (list B)) (l : list A) (rs : list B) :
  collect f l = Ok rs -> forall x, x ∈ l -> exists r, f x = Ok r.
Proof.
  revert rs. induction l as [|x l IH]; simpl; intros rs Hc x' Hx'.
  - by apply elem_of_nil in Hx'.
  - destruct (f x) as [r| |] eqn:Hfx; simpl in Hc; [|done..].
    destruct (collect f l) as [rs'| |]; simpl in Hc; [|done..].
    apply elem_of_cons in Hx' as [->|Hx']; [eauto|].
    by apply (IH rs').
Qed.

Lemma collect_returns (f : A -> res (list B)) (l : list A) :
  (forall x, x ∈ l -> exists r, f x = Ok r) -> exists rs, collect f l = Ok rs.
Proof.
  induction l as [|x l IH]; simpl; intros Hf; [eauto|].
  destruct (Hf x) as [r ->]; [left|]. simpl.
  destruct IH as [rs ->]; [|simpl; eauto].
  intros x' Hx'. apply Hf. by right.
Qed.

End Loops.

(** *** The code computes the fold of its update function over the trace *)

Section ActionTrace.

Context {D : Type}.
Variable stop_condition : Z -> Path -> string -> bool.
Variable data_update_func : D -> Path -> string -> D.
Variable n : Z.
Variable board : Board.

Lemma feed_state (tr : list (Path * string)) (dataset : D) (path : Path) :
  fold_left (fun (st : D * Path) x => (data_update_func st.1 x.1 x.2, st.2))
    tr (dataset, path)
  = (feed data_update_func tr dataset, path).
Proof.
  revert dataset. induction tr as [|x tr IH]; intros dataset; [done|].
  simpl. by rewrite IH.
Qed.

Lemma backtracking_action_trace (fuel : nat) (words_set : gset string)
  (dataset : D) (curr_path : Path) (curr_word : string) :
  backtracking_action stop_condition data_update_func n board fuel words_set
    dataset curr_path curr_word
  = (tr ← action_trace stop_condition n board fuel words_set curr_path
            curr_word;
     Ok (feed data_update_func tr dataset, curr_path)).
Proof.
  revert words_set dataset curr_path curr_word.
  induction fuel as [|fuel IH]; intros ws ds path word; [done|].
  cbn [backtracking_action action_trace].
  destruct (stop_condition n path word).
  { by destruct (bool_decide (word ∈ ws)). }
  rewrite (for_each_collect (fun st : D * Path => st.2 = path)
             (fun st x => (data_update_func st.1 x.1 x.2, st.2))
             _
             (branch board (action_trace stop_condition n board fuel)
                ws path word)).
  - destruct (collect _ _) as [rs| |]; simpl; [|done..].
    by rewrite feed_state.
  - done.
  - intros [ds' path'] delta Hst _. simpl in Hst. subst path'.
    unfold branch.
    destruct (py_index path (-1)) as [last| |]; simpl; [|done..].
    destruct (is_coordinate_in_board board _); simpl; [|done].
    destruct (bool_decide (_ ∈ path)); [done|].
    destruct (get_value_by_coordinate board _) as [v| |]; simpl; [|done..].
    destruct (bool_decide (size _ = 0%nat)); [done|].
    rewrite IH.
    destruct (action_trace _ _ _ _ _ _ _) as [tr| |]; simpl; [|done..].
    rewrite py_pop_snoc. simpl. by rewrite feed_state.
  - done.
Qed.

Lemma backtracking_start_trace (words : list string) (dataset : D) :
  backtracking_start stop_condition data_update_func n board words dataset
  = (tr ← start_trace stop_condition n board words;
     Ok (feed data_update_func tr dataset)).
Proof.
  unfold backtracking_start, start_trace.
  apply (for_each_collect (fun _ => True)); [done| |done].
  intros ds row_index _ _.
  destruct (py_index board row_index) as [row| |]; res_simpl; [|done..].
  apply (for_each_collect (fun _ => True)); [done| |done].
  intros ds' col_index _ _. unfold start_cell.
  destruct (get_value_by_coordinate board _) as [w| |]; res_simpl; [|done..].
  destruct (bool_decide (size _ = 0%nat)); [done|].
  rewrite backtracking_action_trace.
  by destruct (action_trace _ _ _ _ _ _ _) as [tr| |].
Qed.

End ActionTrace.


(** *** Paths on the grid *)

Section Paths.

Variable board : Board.
Implicit Types (p q : Path) (b c : Coord) (w v : string).

Lemma linked_snoc p b c :
  Spec.linked (p ++ [b]) -> Spec.adjacent8 b c ->
  Spec.linked ((p ++ [b]) ++ [c]).
Proof.
  intros Hl Hadj. induction p as [|a p IH]; [by simpl|].
  destruct p as [|a' p]; simpl in *; [tauto|].
  destruct Hl as [Ha Hl]. split; [done|]. by apply IH.
Qed.

Lemma linked_app_inv p q : Spec.linked (p ++ q) -> Spec.linked q.
Proof.
  induction p as [|a p IH]; [done|].
  destruct p as [|a' p]; simpl.
  - destruct q; [done|]. by intros [_ ?].
  - intros [_ H]. by apply IH.
Qed.

(** The step from the last cell of [p ++ [b]] to the rest of the path. *)
Lemma linked_middle p b c q :
  Spec.linked ((p ++ [b]) ++ c :: q) -> Spec.adjacent8 b c.
Proof.
  rewrite <- app_assoc. intros H%linked_app_inv. simpl in H. tauto.
Qed.

Lemma spelled_word_app p q w :
  Spec.spelled_word board (p ++ q) = Some w <->
  exists w1 w2, Spec.spelled_word board p = Some w1 /\
                Spec.spelled_word board q = Some w2 /\ w = w1 +:+ w2.
Proof.
  revert w. induction p as [|a p IH]; intros w; simpl.
  - split; [intros H; by exists "", w|].
    by intros (w1 & w2 & [= <-] & -> & ->).
  - destruct (Spec.cell board a) as [v|]; simpl;
      [|split; [done | by intros (? & ? & [=] & _)]].
    destruct (Spec.spelled_word board (p ++ q)) as [w'|] eqn:E; simpl.
    + destruct (proj1 (IH w') eq_refl) as (w1 & w2 & -> & Hq & ->).
      simpl. split.
      * intros [= <-]. exists (v +:+ w1), w2.
        by rewrite str_app_assoc.
      * intros (w1' & w2' & [= <-] & Hq' & ->).
        rewrite Hq in Hq'. injection Hq' as <-.
        by rewrite str_app_assoc.
    + split; [done|]. intros (w1 & w2 & H1 & H2 & ->).
      destruct (Spec.spelled_word board p) as [w1'|] eqn:Hp; [|done].
      assert (None = Some (w1' +:+ w2)) as [=].
      apply IH. eauto.
Qed.

Lemma spelled_word_singleton c v :
  Spec.spelled_word board [c] = Some v <-> Spec.cell board c = Some v.
Proof.
  simpl. destruct (Spec.cell board c) as [v'|]; simpl; [|done].
  by rewrite str_app_nil_r.
Qed.

Lemma spelled_word_snoc p c w v :
  Spec.spelled_word board p = Some w -> Spec.cell board c = Some v ->
  Spec.spelled_word board (p ++ [c]) = Some (w +:+ v).
Proof.
  intros Hp Hc. apply spelled_word_app. exists w, v.
  by rewrite spelled_word_singleton.
Qed.

Lemma simple_path_snoc p c :
  Spec.simple_path board p ->
  (forall b, last p = Some b -> Spec.adjacent8 b c) ->
  Spec.in_grid board c -> c ∉ p ->
  Spec.simple_path board (p ++ [c]).
Proof.
  intros (Hne & Hnd & Hin & Hl) Hadj Hc Hfresh.
  split; [by destruct p|]. split; [|split].
  - apply NoDup_app. split; [done|]. split; [|apply NoDup_singleton].
    intros x Hx ->%list_elem_of_singleton. done.
  - apply Forall_app. split; [done|]. by apply Forall_singleton.
  - destruct (exists_last Hne) as (p' & b & ->).
    apply linked_snoc; [done|]. apply Hadj, last_snoc.
Qed.

Lemma simple_path_singleton c :
  Spec.in_grid board c -> Spec.simple_path board [c].
Proof.
  intros Hc. split; [done|]. split; [apply NoDup_singleton|].
  split; [by apply Forall_singleton | done].
Qed.

(** A cell the bounds test accepts and [board[r][c]] returns a value for
    is a cell of the grid. *)
Lemma in_board_value_cell c v :
  is_coordinate_in_board board c = true ->
  get_value_by_coordinate board c = Ok v ->
  Spec.cell board c = Some v.
Proof.
  intros [[] []]%is_coordinate_in_board_rectangle Hv.
  apply get_value_cell_inv; [lia..|done].
Qed.

(** No more distinct cells than the rectangle has. *)
Lemma rectangle_pigeonhole (l : list Coord) :
  NoDup l -> Forall (Spec.in_rectangle board) l ->
  (length l <= area board)%nat.
Proof.
  intros Hnd Hin. unfold area.
  set (cells := map (fun rc : nat * nat => (Z.of_nat rc.1, Z.of_nat rc.2))
                  (list_prod (seq 0 (length board))
                             (seq 0 (length (hd [] board))))).
  assert (Hlen : length cells = (length board * length (hd [] board))%nat).
  { unfold cells. by rewrite length_map, length_prod, !length_seq. }
  rewrite <- Hlen. apply submseteq_length, NoDup_submseteq; [done|].
  intros [r c] Hrc. eapply Forall_forall in Hin; [|done].
  destruct Hin as [Hr Hc]. simpl in Hr, Hc.
  apply list_elem_of_fmap. exists (Z.to_nat r, Z.to_nat c). split.
  - simpl. f_equal; lia.
  - apply list_elem_of_In, in_prod; apply in_seq; lia.
Qed.

End Paths.

(** *** The prefix filter *)

Lemma filter_words_elem (ws : gset string) (prefix w : string) :
  w ∈ filter_words_set_by_prefix ws prefix <->
  String.prefix prefix w = true /\ w ∈ ws.
Proof. unfold filter_words_set_by_prefix. by rewrite elem_of_filter. Qed.

Lemma filter_words_size_zero (ws : gset string) (prefix : string) :
  size (filter_words_set_by_prefix ws prefix) = 0%nat <->
  forall w, w ∈ ws -> String.prefix prefix w = false.
Proof.
  rewrite size_empty_iff. split.
  - intros He w Hw. apply not_true_is_false. intros Hp.
    apply (not_elem_of_empty (C := gset string) w), He, filter_words_elem.
    done.
  - intros Hall w. split; [|by intros ?%not_elem_of_empty].
    intros [Hp Hw]%filter_words_elem. rewrite (Hall w Hw) in Hp. done.
Qed.

(** *** One round of the loop over the deltas *)

Section Branch.

Variable board : Board.
Variable rec : gset string -> Path -> string -> res (list (Path * string)).

(** The round either hands nothing over, or [board[r][c]] raises, or it
    is the recursive call on the path extended by a fresh cell of the
    grid that touches the last one. *)
Lemma branch_cases (ws : gset string) (p : Path) (b : Coord) (word : string)
  (d : Coord) :
  d ∈ delta_values ->
  let c := find_neighbour_coordinate b d in
  branch board rec ws (p ++ [b]) word d = Ok [] \/
  (Spec.in_rectangle board c /\ Spec.cell board c = None /\
   branch board rec ws (p ++ [b]) word d = Raise IndexError) \/
  (exists v,
     Spec.adjacent8 b c /\ Spec.in_rectangle board c /\ (c ∉ p ++ [b]) /\
     Spec.cell board c = Some v /\
     branch board rec ws (p ++ [b]) word d
     = rec (filter_words_set_by_prefix ws (word +:+ v)) ((p ++ [b]) ++ [c])
         (word +:+ v)).
Proof.
  intros Hd c. unfold branch. rewrite py_index_last. res_simpl.
  fold c. destruct (is_coordinate_in_board board c) eqn:Hin; simpl; [|by left].
  destruct (bool_decide (c ∈ p ++ [b])) eqn:Hmem; [by left|].
  apply bool_decide_eq_false in Hmem.
  pose proof (proj1 (is_coordinate_in_board_rectangle board c) Hin) as Hrect.
  destruct (get_value_by_coordinate board c) as [v|e|] eqn:Hv; res_simpl.
  - destruct (bool_decide (size _ = 0%nat)); [by left|].
    right. right. exists v. split; [by apply delta_adjacent8|].
    split; [done|]. split; [done|]. split; [|done].
    by apply in_board_value_cell.
  - right. left. rewrite (get_value_raises _ _ _ Hv). split; [done|].
    split; [|done]. destruct (Spec.cell board c) as [v|] eqn:Hc; [|done].
    apply get_value_cell in Hc. congruence.
  - by apply get_value_not_timeout in Hv.
Qed.

(** The round towards a fresh cell of the grid with which the word is
    still the prefix of a live word is the recursive call. *)
Lemma branch_descends (ws : gset string) (p : Path) (b c : Coord)
  (word v w : string) :
  Spec.adjacent8 b c -> Spec.in_rectangle board c -> c ∉ (p ++ [b]) ->
  Spec.cell board c = Some v ->
  w ∈ ws -> String.prefix (word +:+ v) w = true ->
  exists d, d ∈ delta_values /\
    branch board rec ws (p ++ [b]) word d
    = rec (filter_words_set_by_prefix ws (word +:+ v)) ((p ++ [b]) ++ [c])
        (word +:+ v).
Proof.
  intros (d & Hd & Hc)%adjacent8_delta Hin Hfresh Hv Hw Hp.
  exists d. split; [done|]. unfold branch. rewrite py_index_last. res_simpl.
  rewrite Hc.
  rewrite (proj2 (is_coordinate_in_board_rectangle board c) Hin). simpl.
  rewrite bool_decide_false by done.
  rewrite (get_value_cell _ _ _ Hv). res_simpl.
  rewrite bool_decide_false; [done|].
  intros Hz. rewrite filter_words_size_zero in Hz.
  rewrite (Hz w Hw) in Hp. done.
Qed.

End Branch.

(** *** The trace of [__backtracking_action] *)

Section ActionTraceFacts.

Variable stop_condition : Z -> Path -> string -> bool.
Variable n : Z.
Variable board : Board.

(** Whatever is handed over is a path of the data model that extends
    nothing but the grid: it satisfies the stop predicate with the word it
    spells, and that word is live. *)
Lemma action_trace_sound (fuel : nat) (ws : gset string) (path : Path)
  (word : string) (tr : list (Path * string)) :
  Spec.simple_path board path ->
  Spec.spelled_word board path = Some word ->
  action_trace stop_condition n board fuel ws path word = Ok tr ->
  forall x, x ∈ tr ->
    stop_condition n x.1 x.2 = true /\ x.2 ∈ ws /\
    Spec.simple_path board x.1 /\ Spec.spelled_word board x.1 = Some x.2.
Proof.
  revert ws path word tr.
  induction fuel as [|fuel IH]; intros ws path word tr Hsimple Hword; [done|].
  cbn [action_trace]. destruct (stop_condition n path word) eqn:Hstop.
  - destruct (bool_decide (word ∈ ws)) eqn:Hmem; intros [= <-] x Hx.
    + apply list_elem_of_singleton in Hx as ->.
      by apply bool_decide_eq_true in Hmem.
    + by apply elem_of_nil in Hx.
  - intros Hc x Hx.
    apply (collect_ok _ _ _ Hc) in Hx as (d & r & Hd & Hr & Hx).
    destruct (exists_last (proj1 Hsimple)) as (p & b & ->).
    destruct (branch_cases board
                (action_trace stop_condition n board fuel) ws p b word d Hd)
      as [H|[(_ & _ & H)|(v & Hadj & Hin & Hfresh & Hv & H)]];
      rewrite H in Hr.
    + injection Hr as <-. by apply elem_of_nil in Hx.
    + done.
    + destruct (IH _ _ _ _ (simple_path_snoc board _ _ Hsimple
                              ltac:(by rewrite last_snoc; intros ? [= <-])
                              ltac:(by exists v) Hfresh)
                  (spelled_word_snoc board _ _ _ _ Hword Hv) Hr x Hx)
        as (Hs & Hws & Hq).
      split; [done|]. split; [|done].
      by apply filter_words_elem in Hws as [_ ?].
Qed.

(** The depth budget is never spent: the cells after the first are
    distinct cells of the rectangle. *)
Lemma action_trace_not_timeout (fuel : nat) (ws : gset string) (c0 : Coord)
  (rest : Path) (word : string) :
  NoDup rest -> Forall (Spec.in_rectangle board) rest ->
  (area board < fuel + length rest)%nat ->
  action_trace stop_condition n board fuel ws (c0 :: rest) word <> Timeout.
Proof.
  revert ws rest word.
  induction fuel as [|fuel IH]; intros ws rest word Hnd Hin Hfuel.
  { pose proof (rectangle_pigeonhole board rest Hnd Hin). lia. }
  cbn [action_trace]. destruct (stop_condition n (c0 :: rest) word).
  { by destruct (bool_decide (word ∈ ws)). }
  apply collect_not_timeout. intros d Hd.
  destruct (exists_last (l := c0 :: rest) ltac:(done)) as (p & b & Heq).
  rewrite Heq.
  destruct (branch_cases board
              (action_trace stop_condition n board fuel) ws p b word d Hd)
    as [H|[(_ & _ & H)|(v & Hadj & Hc & Hfresh & Hv & H)]];
    rewrite H; [done..|].
  rewrite <- Heq in Hfresh |- *.
  apply not_elem_of_cons in Hfresh as [_ Hfresh].
  apply (IH _ (rest ++ [_])).
  - apply NoDup_app. split; [done|]. split; [|apply NoDup_singleton].
    by intros x Hx ->%list_elem_of_singleton.
  - apply Forall_app. split; [done|]. by apply Forall_singleton.
  - rewrite length_app. simpl. lia.
Qed.

(** On a rectangular board nothing raises. *)
Lemma action_trace_not_raise (fuel : nat) (ws : gset string) (path : Path)
  (word : string) (e : exn) :
  Spec.rectangular board -> path <> [] ->
  action_trace stop_condition n board fuel ws path word <> Raise e.
Proof.
  intros Hrect. revert ws path word.
  induction fuel as [|fuel IH]; intros ws path word Hne; [done|].
  cbn [action_trace]. destruct (stop_condition n path word).
  { by destruct (bool_decide (word ∈ ws)). }
  apply collect_not_raise. intros d Hd.
  destruct (exists_last Hne) as (p & b & ->).
  destruct (branch_cases board
              (action_trace stop_condition n board fuel) ws p b word d Hd)
    as [H|[(Hc & Hnone & H)|(v & _ & _ & _ & _ & H)]];
    rewrite H.
  - done.
  - apply (in_rectangle_in_grid board _ Hrect) in Hc as [v Hv]. congruence.
  - apply IH. by destruct (p ++ [b]).
Qed.

(** Every path of the data model that extends the current one, spells a
    live word and satisfies the stop predicate, no path on the way to it
    doing so, is handed over. *)
Lemma action_trace_complete (fuel : nat) (ws : gset string)
  (path rest : Path) (word w : string) (tr : list (Path * string)) :
  Spec.rectangular board ->
  Spec.simple_path board (path ++ rest) ->
  path <> [] ->
  Spec.spelled_word board path = Some word ->
  Spec.spelled_word board (path ++ rest) = Some w ->
  w ∈ ws ->
  stop_condition n (path ++ rest) w = true ->
  (forall q1 q2 w1,
     path ++ rest = q1 ++ q2 -> q1 <> [] -> q2 <> [] ->
     Spec.spelled_word board q1 = Some w1 ->
     stop_condition n q1 w1 = false) ->
  action_trace stop_condition n board fuel ws path word = Ok tr ->
  (path ++ rest, w) ∈ tr.
Proof.
  intros Hrect. revert ws path rest word tr.
  induction fuel as [|fuel IH];
    intros ws path rest word tr Hsimple Hne Hword Hw Hlive Hstop Hfirst;
    [done|].
  cbn [action_trace]. destruct rest as [|c rest].
  - rewrite app_nil_r in *. assert (word = w) as -> by congruence.
    rewrite Hstop, bool_decide_true by done. intros [= <-]. left.
  - rewrite (Hfirst path (c :: rest) word eq_refl Hne ltac:(done) Hword).
    intros Hc.
    destruct (exists_last Hne) as (p & b & ->).
    destruct Hsimple as (_ & Hnd & Hin & Hl).
    apply spelled_word_app in Hw as (w1 & w2 & Hw1 & Hw2 & ->).
    assert (w1 = word) as -> by congruence.
    simpl in Hw2.
    destruct (Spec.cell board c) as [v|] eqn:Hv; [|done]. simpl in Hw2.
    destruct (Spec.spelled_word board rest) as [w3|] eqn:Hw3; [|done].
    injection Hw2 as <-.
    assert (Hgrid : Spec.in_grid board c).
    { eapply Forall_forall in Hin; [done|].
      apply elem_of_app. right. left. }
    assert (Hfresh : c ∉ p ++ [b]).
    { apply NoDup_app in Hnd as (_ & Hdisj & _).
      intros Hx. apply (Hdisj c Hx). left. }
    destruct (branch_descends board
                (action_trace stop_condition n board fuel) ws p b c word v
                (word +:+ v +:+ w3))
      as (d & Hd & Hbranch).
    + by apply (linked_middle p b c rest).
    + by apply in_rectangle_in_grid.
    + done.
    + done.
    + done.
    + rewrite <- str_app_assoc. apply str_prefix_app.
    + destruct (collect_ok_inv _ _ _ Hc d Hd) as [r Hr].
      apply (collect_ok _ _ _ Hc). exists d, r. split; [done|].
      split; [done|]. rewrite Hbranch in Hr.
      replace ((p ++ [b]) ++ c :: rest) with (((p ++ [b]) ++ [c]) ++ rest)
        in * by (by rewrite <- (app_assoc _ [c] rest)).
      eapply (IH _ ((p ++ [b]) ++ [c]) rest (word +:+ v) r);
        [| | | | | | |exact Hr].
      * split; [by destruct (p ++ [b])|]. done.
      * by destruct (p ++ [b]).
      * by apply spelled_word_snoc.
      * apply spelled_word_app. exists (word +:+ v), w3.
        split; [by apply spelled_word_snoc|]. split; [done|].
        by rewrite str_app_assoc.
      * apply filter_words_elem. split; [|done].
        rewrite <- str_app_assoc. apply str_prefix_app.
      * done.
      * done.
Qed.

End ActionTraceFacts.

(** *** The trace of [__backtracking_start] *)

Lemma elem_of_py_range (k : nat) (x : Z) :
  x ∈ py_range k <-> 0 <= x < Z.of_nat k.
Proof.
  unfold py_range. rewrite list_elem_of_fmap. split.
  - intros (i & -> & Hi%elem_of_seq). lia.
  - intros Hx. exists (Z.to_nat x). split; [lia|]. apply elem_of_seq. lia.
Qed.

Lemma py_index_range {A : Type} (l : list A) (x : Z) :
  x ∈ py_range (length l) ->
  exists a, py_index l x = Ok a /\ l !! Z.to_nat x = Some a.
Proof.
  intros Hx%elem_of_py_range.
  destruct (lookup_lt_is_Some_2 l (Z.to_nat x)) as [a Ha]; [lia|].
  exists a. split; [|done]. rewrite py_index_nonneg by lia. by rewrite Ha.
Qed.

Section StartTraceFacts.

Variable stop_condition : Z -> Path -> string -> bool.
Variable n : Z.
Variable board : Board.

(** The loops of [__backtracking_start] visit cells of the grid. *)
Lemma start_cell_value (r c : Z) (row : list string) :
  r ∈ py_range (length board) -> py_index board r = Ok row ->
  c ∈ py_range (length row) ->
  exists v, get_value_by_coordinate board (r, c) = Ok v /\
            Spec.cell board (r, c) = Some v.
Proof.
  intros Hr Hrow Hc.
  destruct (py_index_range row c Hc) as (v & Hv & _).
  exists v. assert (Hval : get_value_by_coordinate board (r, c) = Ok v).
  { unfold get_value_by_coordinate. by rewrite Hrow. }
  split; [done|].
  apply elem_of_py_range in Hr, Hc.
  apply get_value_cell_inv; simpl; [lia..|done].
Qed.

(** A cell of the grid is visited by the loops. *)
Lemma cell_visited (r c : Z) (v : string) :
  Spec.cell board (r, c) = Some v ->
  exists row, r ∈ py_range (length board) /\ py_index board r = Ok row /\
              c ∈ py_range (length row).
Proof.
  unfold Spec.cell. simpl.
  destruct (Z.leb_spec 0 r); [|done]. destruct (Z.leb_spec 0 c); [|done].
  simpl. destruct (board !! Z.to_nat r) as [row|] eqn:Hrow; [|done]. simpl.
  intros Hv. exists row.
  pose proof (lookup_lt_Some _ _ _ Hrow).
  pose proof (lookup_lt_Some _ _ _ Hv).
  split; [apply elem_of_py_range; lia|].
  split; [|apply elem_of_py_range; lia].
  rewrite py_index_nonneg by done. by rewrite Hrow.
Qed.

Lemma start_trace_sound (words : list string) (tr : list (Path * string)) :
  start_trace stop_condition n board words = Ok tr ->
  forall x, x ∈ tr ->
    stop_condition n x.1 x.2 = true /\ x.2 ∈ words /\
    Spec.simple_path board x.1 /\ Spec.spelled_word board x.1 = Some x.2.
Proof.
  unfold start_trace. intros Hc x Hx.
  apply (collect_ok _ _ _ Hc) in Hx as (r & rs & Hr & Hrow & Hx).
  destruct (py_index board r) as [row| |] eqn:Hrowr; [|done..].
  res_simpl in Hrow.
  apply (collect_ok _ _ _ Hrow) in Hx as (c & cs & Hcol & Hcell & Hx).
  destruct (start_cell_value r c row Hr Hrowr Hcol) as (v & Hv & Hcv).
  unfold start_cell in Hcell. rewrite Hv in Hcell. res_simpl in Hcell.
  destruct (bool_decide (size _ = 0%nat));
    [injection Hcell as <-; by apply elem_of_nil in Hx|].
  destruct (action_trace_sound stop_condition n board _ _ _ _ _
              (simple_path_singleton board _ ltac:(by exists v))
              (proj2 (spelled_word_singleton board _ _) Hcv) Hcell x Hx)
    as (Hs & Hw & Hq).
  split; [done|]. split; [|done]. by apply elem_of_list_to_set in Hw.
Qed.

Lemma start_trace_not_timeout (words : list string) :
  start_trace stop_condition n board words <> Timeout.
Proof.
  unfold start_trace. apply collect_not_timeout. intros r Hr.
  destruct (py_index board r) as [row| |] eqn:Hrow; res_simpl.
  - apply collect_not_timeout. intros c Hc. unfold start_cell.
    destruct (get_value_by_coordinate board (r, c)) as [v| |] eqn:Hv;
      res_simpl; [|done|by apply get_value_not_timeout in Hv].
    destruct (bool_decide (size _ = 0%nat)); [done|].
    apply action_trace_not_timeout;
      [apply NoDup_nil_2 | apply Forall_nil_2 |].
    unfold depth_budget. simpl. lia.
  - done.
  - by apply py_index_not_timeout in Hrow.
Qed.

Lemma start_trace_not_raise (words : list string) (e : exn) :
  Spec.rectangular board ->
  start_trace stop_condition n board words <> Raise e.
Proof.
  intros Hrect. unfold start_trace. apply collect_not_raise. intros r Hr.
  destruct (py_index_range board r Hr) as (row & Hrow & _).
  rewrite Hrow. res_simpl.
  apply collect_not_raise. intros c Hc. unfold start_cell.
  destruct (start_cell_value r c row Hr Hrow Hc) as (v & -> & _). res_simpl.
  destruct (bool_decide (size _ = 0%nat)); [done|].
  by apply action_trace_not_raise.
Qed.

(** On a rectangular board the search returns. *)
Lemma start_trace_returns (words : list string) :
  Spec.rectangular board ->
  exists tr, start_trace stop_condition n board words = Ok tr.
Proof.
  intros Hrect.
  destruct (start_trace stop_condition n board words) as [tr|e|] eqn:E.
  - eauto.
  - by apply start_trace_not_raise in E.
  - by apply start_trace_not_timeout in E.
Qed.

Lemma start_trace_complete (words : list string) (tr : list (Path * string))
  (q : Path) (w : string) :
  Spec.rectangular board ->
  start_trace stop_condition n board words = Ok tr ->
  Spec.simple_path board q ->
  Spec.spelled_word board q = Some w ->
  w ∈ words ->
  stop_condition n q w = true ->
  (forall q1 q2 w1,
     q = q1 ++ q2 -> q1 <> [] -> q2 <> [] ->
     Spec.spelled_word board q1 = Some w1 ->
     stop_condition n q1 w1 = false) ->
  (q, w) ∈ tr.
Proof.
  intros Hrect Htr Hsimple Hw Hlive Hstop Hfirst.
  destruct q as [|[r c] rest]; [by destruct Hsimple|].
  pose proof Hw as Hw'. simpl in Hw'.
  destruct (Spec.cell board (r, c)) as [v|] eqn:Hv; [|done]. simpl in Hw'.
  destruct (Spec.spelled_word board rest) as [w'|] eqn:Hrest; [|done].
  injection Hw' as <-.
  destruct (cell_visited r c v Hv) as (row & Hr & Hrow & Hc).
  unfold start_trace in Htr.
  destruct (collect_ok_inv _ _ _ Htr r Hr) as [rs Hrs].
  apply (collect_ok _ _ _ Htr). exists r, rs. split; [done|].
  split; [done|]. rewrite Hrow in Hrs. res_simpl in Hrs.
  destruct (collect_ok_inv _ _ _ Hrs c Hc) as [cs Hcs].
  apply (collect_ok _ _ _ Hrs). exists c, cs. split; [done|].
  split; [done|]. unfold start_cell in Hcs.
  rewrite (get_value_cell _ _ _ Hv) in Hcs. res_simpl in Hcs.
  rewrite bool_decide_false in Hcs.
  - apply (action_trace_complete stop_condition n board
             (depth_budget board) (list_to_set words) [(r, c)] rest v
             (v +:+ w') cs); try done.
    + by apply spelled_word_singleton.
    + by apply elem_of_list_to_set.
  - intros Hz. rewrite filter_words_size_zero in Hz.
    pose proof (str_prefix_app v w') as Hp.
    rewrite (Hz (v +:+ w')) in Hp; [done|].
    by apply elem_of_list_to_set.
Qed.

End StartTraceFacts.

(** *** The two list modes *)

Lemma feed_update_list (tr : list (Path * string)) (lst_paths : list Path) :
  feed update_list tr lst_paths = lst_paths ++ tr.*1.
Proof.
  revert lst_paths. induction tr as [|x tr IH]; intros l.
  - by rewrite app_nil_r.
  - change (feed update_list (x :: tr) l)
      with (feed update_list tr (update_list l x.1 x.2)).
    rewrite IH. unfold update_list. by rewrite <- app_assoc.
Qed.

Lemma find_length_n_paths_trace (n : Z) (board : Board)
  (words : list string) :
  find_length_n_paths n board words
  = (tr ← start_trace stop_len_path n board words; Ok tr.*1).
Proof.
  unfold find_length_n_paths. rewrite backtracking_start_trace.
  destruct (start_trace _ _ _ _) as [tr| |]; res_simpl; [|done..].
  by rewrite feed_update_list.
Qed.

Lemma find_length_n_words_trace (n : Z) (board : Board)
  (words : list string) :
  find_length_n_words n board words
  = (tr ← start_trace stop_len_word n board words; Ok tr.*1).
Proof.
  unfold find_length_n_words. rewrite backtracking_start_trace.
  destruct (start_trace _ _ _ _) as [tr| |]; res_simpl; [|done..].
  by rewrite feed_update_list.
Qed.

(** A non-empty path through cells with non-empty symbols spells a
    non-empty word. *)
Lemma cell_not_empty (board : Board) (c : Coord) (v : string) :
  Spec.no_empty_symbol board -> Spec.cell board c = Some v -> v <> "".
Proof.
  unfold Spec.cell. intros Hne.
  destruct (_ && _); [|done].
  destruct (board !! Z.to_nat c.1) as [row|] eqn:Hrow; [|done]. simpl.
  intros Hv. eapply Forall_lookup_1 in Hne; [|done].
  by eapply Forall_lookup_1 in Hne.
Qed.

Lemma spelled_word_not_empty (board : Board) (q : Path) (w : string) :
  Spec.no_empty_symbol board -> q <> [] ->
  Spec.spelled_word board q = Some w -> (0 < String.length w)%nat.
Proof.
  intros Hne Hq. destruct q as [|c q]; [done|]. simpl.
  destruct (Spec.cell board c) as [v|] eqn:Hv; [|done]. simpl.
  destruct (Spec.spelled_word board q) as [w'|]; [|done]. simpl.
  intros [= <-]. rewrite str_length_app.
  apply (cell_not_empty board c v Hne) in Hv. destruct v; [done|].
  simpl. lia.
Qed.

(** With non-empty symbols, no path on the way to a path whose word has
    [n] characters has a word of [n] characters. *)
Lemma stop_len_word_first (board : Board) (n : Z) (q q1 q2 : Path)
  (w w1 : string) :
  Spec.no_empty_symbol board ->
  Spec.spelled_word board q = Some w ->
  stop_len_word n q w = true ->
  q = q1 ++ q2 -> q2 <> [] ->
  Spec.spelled_word board q1 = Some w1 ->
  stop_len_word n q1 w1 = false.
Proof.
  intros Hne Hw Hstop -> Hq2 Hw1.
  apply spelled_word_app in Hw as (w1' & w2 & Hw1' & Hw2 & ->).
  assert (w1' = w1) as -> by congruence.
  apply (spelled_word_not_empty board q2 w2 Hne Hq2) in Hw2.
  apply bool_decide_eq_true in Hstop. rewrite str_length_app in Hstop.
  apply bool_decide_eq_false. lia.
Qed.

(** A trace no pair can belong to is empty. *)
Lemma list_empty_no_elem {A : Type} (l : list A) :
  (forall x, x ∈ l -> False) -> l = [].
Proof.
  destruct l as [|x l]; [done|]. intros H. destruct (H x). left.
Qed.

(** Without words nothing is live, whatever the board. *)
Lemma start_trace_no_words (stop_condition : Z -> Path -> string -> bool)
  (n : Z) (board : Board) :
  start_trace stop_condition n board [] = Ok [].
Proof.
  assert (Hnil : forall {A B : Type} (f : A -> res (list B)) (l : list A),
             (forall x, x ∈ l -> f x = Ok []) -> collect f l = Ok []).
  { intros A B f l. induction l as [|x l IH]; intros Hf; [done|].
    simpl. rewrite Hf by left. res_simpl.
    rewrite IH; [done|]. intros x' Hx'. apply Hf. by right. }
  unfold start_trace. apply Hnil. intros r Hr.
  destruct (py_index_range board r Hr) as (row & Hrow & _).
  rewrite Hrow. res_simpl. apply Hnil. intros c Hc.
  destruct (start_cell_value board r c row Hr Hrow Hc) as (v & Hv & _).
  unfold start_cell. rewrite Hv. res_simpl.
  rewrite bool_decide_true; [done|].
  apply filter_words_size_zero. intros w Hw.
  by apply elem_of_list_to_set, elem_of_nil in Hw.
Qed.

End SearchFacts.

(** ** Claims about the search *)

Import SearchFacts Trace.

(** C1. [find_length_n_paths] never exhausts its depth budget and, on a
    rectangular board, returns a list; every path of the list it returns
    has exactly [n] cells, which are distinct cells of the grid, each
    touching the next, and the word the path spells is in [words]. *)
Theorem find_length_n_paths_sound (n : Z) (board : Board)
  (words : list string) :
  find_length_n_paths n board words <> Timeout /\
  (Spec.rectangular board ->
   exists l, find_length_n_paths n board words = Ok l) /\
  forall (l : list Path) (p : Path),
    find_length_n_paths n board words = Ok l -> p ∈ l ->
    Z.of_nat (length p) = n /\
    NoDup p /\ Forall (Spec.in_grid board) p /\ Spec.linked p /\
    exists w, Spec.spelled_word board p = Some w /\ w ∈ words.
Proof.
  rewrite find_length_n_paths_trace. split; [|split].
  - pose proof (start_trace_not_timeout stop_len_path n board words).
    by destruct (start_trace _ _ _ _).
  - intros Hrect.
    destruct (start_trace_returns stop_len_path n board words Hrect)
      as [tr ->].
    by exists tr.*1.
  - intros l p.
    destruct (start_trace stop_len_path n board words) as [tr| |] eqn:Htr;
      [|done..].
    intros [= <-] ([q w] & -> & Hx)%list_elem_of_fmap.
    destruct (start_trace_sound _ _ _ _ _ Htr _ Hx)
      as (Hstop & Hw & (_ & Hnd & Hin & Hl) & Hsp).
    simpl in *. apply bool_decide_eq_true in Hstop. eauto 10.
Qed.

Lemma find_length_n_paths_sound_witness :
  let board := [["C"; "A"; "T"]; ["X"; "X"; "X"]; ["X"; "X"; "X"]] in
  let p := [(0, 0); (0, 1); (0, 2)] in
  Z.of_nat (length p) = 3 /\
  NoDup p /\ Forall (Spec.in_grid board) p /\ Spec.linked p /\
  exists w, Spec.spelled_word board p = Some w /\ w ∈ ["CAT"; "AT"; "CA"].
Proof.
  intros board p.
  apply (proj2 (proj2 (find_length_n_paths_sound 3 board
                         ["CAT"; "AT"; "CA"])) [p] p).
  - vm_compute. reflexivity.
  - left.
Defined.

(** C2. The list [find_length_n_words] returns holds only paths of the
    data model whose word has exactly [n] characters and is in [words];
    on a grid of the data model it returns, and every such path is in the
    list: the prefix filter removes none. *)
Theorem find_length_n_words_exact (n : Z) (board : Board)
  (words : list string) :
  (forall (l : list Path) (p : Path),
     find_length_n_words n board words = Ok l -> p ∈ l ->
     Spec.simple_path board p /\
     exists w, Spec.spelled_word board p = Some w /\
               Z.of_nat (String.length w) = n /\ w ∈ words) /\
  (Spec.grid board ->
   exists l, find_length_n_words n board words = Ok l /\
     forall p : Path,
       p ∈ l <->
       Spec.simple_path board p /\
       exists w, Spec.spelled_word board p = Some w /\
                 Z.of_nat (String.length w) = n /\ w ∈ words).
Proof.
  rewrite find_length_n_words_trace.
  assert (Hsound : forall tr p,
    start_trace stop_len_word n board words = Ok tr -> p ∈ tr.*1 ->
    Spec.simple_path board p /\
    exists w, Spec.spelled_word board p = Some w /\
              Z.of_nat (String.length w) = n /\ w ∈ words).
  { intros tr p Htr ([q w] & -> & Hx)%list_elem_of_fmap.
    destruct (start_trace_sound _ _ _ _ _ Htr _ Hx)
      as (Hstop & Hw & Hsimple & Hsp).
    simpl in *. apply bool_decide_eq_true in Hstop. eauto 10. }
  split.
  - intros l p.
    destruct (start_trace stop_len_word n board words) as [tr| |] eqn:Htr;
      [|done..].
    intros [= <-]. by apply Hsound.
  - intros [Hrect Hne].
    destruct (start_trace_returns stop_len_word n board words Hrect)
      as [tr Htr].
    rewrite Htr. exists tr.*1. split; [done|]. intros p. split.
    + by apply Hsound.
    + intros (Hsimple & w & Hsp & Hlen & Hw).
      apply list_elem_of_fmap. exists (p, w). split; [done|].
      assert (Hstop : stop_len_word n p w = true)
        by by apply bool_decide_eq_true.
      apply (start_trace_complete stop_len_word n board words tr p w);
        try done.
      intros q1 q2 w1 Hq _ Hq2 Hw1.
      by apply (stop_len_word_first board n p q1 q2 w w1).
Qed.

Lemma find_length_n_words_exact_witness :
  let board := [["C"; "A"; "T"]; ["X"; "X"; "X"]; ["X"; "X"; "X"]] in
  exists l, find_length_n_words 2 board ["CAT"; "AT"; "CA"] = Ok l /\
    forall p : Path,
      p ∈ l <->
      Spec.simple_path board p /\
      exists w, Spec.spelled_word board p = Some w /\
                Z.of_nat (String.length w) = 2 /\ w ∈ ["CAT"; "AT"; "CA"].
Proof.
  intros board.
  apply (proj2 (find_length_n_words_exact 2 board ["CAT"; "AT"; "CA"])).
  split.
  - unfold Spec.rectangular. repeat constructor.
  - unfold Spec.no_empty_symbol. repeat constructor; discriminate.
Defined.

(** C4. On a grid of the data model, [find_length_n_paths] and
    [find_length_n_words] return the empty list for every [n <= 0],
    without raising; and with an empty word collection the three search
    modes return the empty list on every board. *)
Theorem search_degenerate (board : Board) (words : list string) (n : Z) :
  (Spec.grid board -> n <= 0 ->
   find_length_n_paths n board words = Ok [] /\
   find_length_n_words n board words = Ok []) /\
  (words = [] ->
   find_length_n_paths n board words = Ok [] /\
   find_length_n_words n board words = Ok [] /\
   max_score_paths board words = Ok []).
Proof.
  split.
  - intros [Hrect Hne] Hn.
    rewrite find_length_n_paths_trace, find_length_n_words_trace.
    destruct (start_trace_returns stop_len_path n board words Hrect)
      as [tr1 Htr1].
    destruct (start_trace_returns stop_len_word n board words Hrect)
      as [tr2 Htr2].
    rewrite Htr1, Htr2. res_simpl.
    rewrite (list_empty_no_elem tr1), (list_empty_no_elem tr2); [done| |].
    + intros x Hx.
      destruct (start_trace_sound _ _ _ _ _ Htr2 _ Hx)
        as (Hstop & _ & (Hq & _) & Hsp).
      apply bool_decide_eq_true in Hstop.
      pose proof (spelled_word_not_empty board _ _ Hne Hq Hsp). lia.
    + intros x Hx.
      destruct (start_trace_sound _ _ _ _ _ Htr1 _ Hx)
        as (Hstop & _ & (Hq & _) & _).
      apply bool_decide_eq_true in Hstop.
      destruct x.1; [done|]. simpl in Hstop. lia.
  - intros ->.
    rewrite find_length_n_paths_trace, find_length_n_words_trace.
    rewrite !start_trace_no_words. done.
Qed.

Lemma search_degenerate_witness :
  let board := [["C"; "A"; "T"]; ["X"; "X"; "X"]; ["X"; "X"; "X"]] in
  (find_length_n_paths 0 board ["CAT"; "AT"; "CA"] = Ok [] /\
   find_length_n_words 0 board ["CAT"; "AT"; "CA"] = Ok []) /\
  (find_length_n_paths 3 board [] = Ok [] /\
   find_length_n_words 3 board [] = Ok [] /\
   max_score_paths board [] = Ok []).
Proof.
  intros board. split.
  - apply (proj1 (search_degenerate board ["CAT"; "AT"; "CA"] 0)).
    + split.
      * unfold Spec.rectangular. repeat constructor.
      * unfold Spec.no_empty_symbol. repeat constructor; discriminate.
    + lia.
  - apply (proj2 (search_degenerate board [] 3)). reflexivity.
Defined.

(** ** The maximal score mode *)

Module MaxScoreFacts.

Import Utils Trace GridFacts SearchFacts.

(** *** [max(l, key=len)] *)

Lemma py_max_len_from_spec {A : Type} (before after : list (list A))
  (best : list A) (l : list (list A)) :
  (forall q, q ∈ before -> (length q < length best)%nat) ->
  (forall q, q ∈ after -> (length q <= length best)%nat) ->
  exists l1 l2,
    before ++ best :: after ++ l = l1 ++ py_max_len_from best l :: l2 /\
    (forall q, q ∈ l1 -> (length q < length (py_max_len_from best l))%nat) /\
    (forall q, q ∈ l2 -> (length q <= length (py_max_len_from best l))%nat).
Proof.
  revert before after best. induction l as [|x l IH];
    intros before after best Hb Ha; simpl.
  - exists before, after. by rewrite app_nil_r.
  - destruct (Nat.ltb_spec (length best) (length x)) as [Hlt|Hge].
    + destruct (IH (before ++ best :: after) [] x) as (l1 & l2 & Heq & H);
        [|by intros ? ?%elem_of_nil|].
      * intros q [Hq|[->|Hq]%elem_of_cons]%elem_of_app;
          [specialize (Hb q Hq) | | specialize (Ha q Hq)]; lia.
      * exists l1, l2. split; [|done]. rewrite <- Heq.
        by rewrite <- app_assoc.
    + destruct (IH before (after ++ [x]) best) as (l1 & l2 & Heq & H);
        [done| |].
      * intros q [Hq| ->%list_elem_of_singleton]%elem_of_app;
          [by apply Ha | done].
      * exists l1, l2. split; [|done]. rewrite <- Heq.
        by rewrite <- app_assoc.
Qed.

(** The result is the first element of maximal length. *)
Lemma py_max_len_spec {A : Type} (l : list (list A)) (p : list A) :
  py_max_len l = Ok p ->
  exists l1 l2, l = l1 ++ p :: l2 /\
    (forall q, q ∈ l1 -> (length q < length p)%nat) /\
    (forall q, q ∈ l2 -> (length q <= length p)%nat).
Proof.
  destruct l as [|best l]; [done|]. simpl. intros [= <-].
  apply (py_max_len_from_spec [] [] best l); by intros ? ?%elem_of_nil.
Qed.

Lemma py_max_len_returns {A : Type} (l : list (list A)) :
  l <> [] -> exists p, py_max_len l = Ok p.
Proof. destruct l; [done|]. simpl. eauto. Qed.

(** *** The dict *)

Lemma paths_for_snoc (k w : string) (p : Path) (tr : list (Path * string)) :
  paths_for k (tr ++ [(p, w)])
  = paths_for k tr ++ (if decide (w = k) then [p] else []).
Proof.
  unfold paths_for. rewrite filter_app, fmap_app. f_equal.
  rewrite filter_cons, filter_nil. simpl. by destruct (decide (w = k)).
Qed.

Lemma paths_for_elem (k : string) (tr : list (Path * string)) (p : Path) :
  p ∈ paths_for k tr <-> (p, k) ∈ tr.
Proof.
  unfold paths_for. rewrite list_elem_of_fmap. split.
  - intros ([q w] & -> & [Hw Hx]%list_elem_of_filter). simpl in *. by subst.
  - intros Hx. exists (p, k). split; [done|]. by apply list_elem_of_filter.
Qed.

Lemma dict_append_keys (w : string) (p : Path) (d : Dict) :
  (dict_append w p d).*1 = d.*1.
Proof.
  induction d as [|[k lst] d IH]; [done|].
  unfold dict_append in *. simpl.
  f_equal; [by destruct (decide (k = w)) | exact IH].
Qed.

Lemma dict_append_elem (w : string) (p : Path) (d : Dict) (k : string)
  (lst : list Path) :
  (k, lst) ∈ dict_append w p d ->
  exists lst0, (k, lst0) ∈ d /\
               lst = if decide (k = w) then lst0 ++ [p] else lst0.
Proof.
  unfold dict_append. intros Hin. apply list_elem_of_In, in_map_iff in Hin.
  destruct Hin as ([k' lst0] & Heq & Hin%list_elem_of_In). symmetry in Heq.
  simpl in Heq. destruct (decide (k' = w)) as [->|Hne].
  - injection Heq as -> ->. exists lst0. by rewrite decide_True.
  - injection Heq as -> ->. exists lst0. by rewrite decide_False.
Qed.

Lemma dict_records_update (tr : list (Path * string)) (d : Dict) (p : Path)
  (w : string) :
  dict_records tr d -> dict_records (tr ++ [(p, w)]) (update_dict d p w).
Proof.
  intros (Hnd & Hkeys & Hent). unfold update_dict.
  destruct (bool_decide (w ∈ d.*1)) eqn:Hmem;
    [apply bool_decide_eq_true in Hmem | apply bool_decide_eq_false in Hmem].
  - split; [by rewrite dict_append_keys|]. split.
    + rewrite dict_append_keys.
      intros x [Hx| ->%list_elem_of_singleton]%elem_of_app; [auto|done].
    + intros k lst (lst0 & Hin & ->)%dict_append_elem.
      destruct (Hent k lst0 Hin) as [Hne ->].
      rewrite paths_for_snoc.
      destruct (decide (k = w)) as [->|Hkw].
      * rewrite decide_True by done. split; [|done].
        by destruct (paths_for w tr).
      * rewrite decide_False by done. by rewrite app_nil_r.
  - split; [|split].
    + rewrite dict_append_keys, fmap_app. simpl.
      apply NoDup_app. split; [done|]. split; [|apply NoDup_singleton].
      by intros x Hx ->%list_elem_of_singleton.
    + rewrite dict_append_keys, fmap_app. simpl.
      intros x [Hx| ->%list_elem_of_singleton]%elem_of_app;
        apply elem_of_app; [left; auto | right; left].
    + intros k lst (lst0 & Hin & ->)%dict_append_elem.
      rewrite paths_for_snoc.
      apply elem_of_app in Hin as [Hin|Hin].
      * destruct (Hent k lst0 Hin) as [Hne ->].
        assert (k <> w).
        { intros ->. apply Hmem, list_elem_of_fmap. by exists (w, paths_for w tr). }
        rewrite !decide_False by done. by rewrite app_nil_r.
      * apply list_elem_of_singleton in Hin. injection Hin as -> ->.
        rewrite !decide_True by done. split; [done|].
        replace (paths_for w tr) with (@nil Path); [done|].
        symmetry. apply list_empty_no_elem. intros q Hq%paths_for_elem.
        apply Hmem. by apply (Hkeys (q, w)).
Qed.

Lemma dict_records_feed (tr0 tr : list (Path * string)) (d : Dict) :
  dict_records tr0 d -> dict_records (tr0 ++ tr) (feed update_dict tr d).
Proof.
  revert tr0 d. induction tr as [|[p w] tr IH]; intros tr0 d Hd.
  - by rewrite app_nil_r.
  - change (feed update_dict ((p, w) :: tr) d)
      with (feed update_dict tr (update_dict d p w)).
    replace (tr0 ++ (p, w) :: tr) with ((tr0 ++ [(p, w)]) ++ tr)
      by (by rewrite <- app_assoc).
    by apply IH, dict_records_update.
Qed.

Lemma dict_records_nil : dict_records [] [].
Proof.
  split; [apply NoDup_nil_2|].
  split; [by intros ? ?%elem_of_nil | by intros ? ? ?%elem_of_nil].
Qed.

(** *** The two loops of [max_score_paths] *)

(** The first result of [max(..., key=len)] for every entry of the dict,
    in the order of the entries. *)
Lemma longest_paths_loop (d : Dict) (acc : list Path) :
  (forall kv, kv ∈ d -> kv.2 <> []) ->
  exists R,
    for_each (fun (longest_paths : list Path) (lst_paths : list Path) =>
                p ← py_max_len lst_paths; Ok (longest_paths ++ [p]))
      d.*2 acc = Ok (acc ++ R) /\
    Forall2 (fun kv p => py_max_len kv.2 = Ok p) d R.
Proof.
  revert acc. induction d as [|[k lst] d IH]; intros acc Hne.
  - exists []. by rewrite app_nil_r.
  - destruct (py_max_len_returns lst) as [p Hp].
    { apply (Hne (k, lst)). left. }
    destruct (IH (acc ++ [p])) as (R & HR & HF).
    { intros kv Hkv. apply Hne. by right. }
    exists (p :: R). split; [|by constructor].
    rewrite fmap_cons. cbn [for_each snd]. rewrite Hp. res_simpl.
    rewrite HR. by rewrite <- app_assoc.
Qed.

Lemma max_score_paths_trace (board : Board) (words : list string) :
  max_score_paths board words
  = (tr ← collect (fun length : Z =>
                     start_trace stop_len_word length board words)
            (elements (list_to_set
                         (map (fun s => Z.of_nat (String.length s)) words)
                       : gset Z));
     for_each (fun (longest_paths : list Path) (lst_paths : list Path) =>
                 p ← py_max_len lst_paths; Ok (longest_paths ++ [p]))
       (feed update_dict tr []).*2 []).
Proof.
  unfold max_score_paths.
  rewrite (for_each_collect (fun _ => True)
             (fun (d : Dict) (x : Path * string) => update_dict d x.1 x.2)
             _
             (fun length : Z => start_trace stop_len_word length board words));
    [|done| |done].
  - by destruct (collect _ _) as [tr| |].
  - intros d length _ _. apply backtracking_start_trace.
Qed.

Section Lists.

Context {A B : Type}.

(** In a loop over distinct elements, what one round hands over is a
    segment of the whole, the rest coming from the other rounds. *)
Lemma collect_split (f : A -> res (list B)) (l : list A) (x : A)
  (rs : list B) :
  NoDup l -> x ∈ l -> collect f l = Ok rs ->
  exists r1 r r2,
    f x = Ok r /\ rs = r1 ++ r ++ r2 /\
    forall y, y ∈ r1 ++ r2 ->
              exists x' r', x' <> x /\ x' ∈ l /\ f x' = Ok r' /\ y ∈ r'.
Proof.
  revert rs. induction l as [|a l IH]; intros rs Hnd Hx Hc;
    [by apply elem_of_nil in Hx|].
  apply NoDup_cons in Hnd as [Ha Hnd]. simpl in Hc.
  destruct (f a) as [ra| |] eqn:Hfa; res_simpl in Hc; [|done..].
  destruct (collect f l) as [rs'| |] eqn:Hrs'; res_simpl in Hc; [|done..].
  injection Hc as <-.
  apply elem_of_cons in Hx as [->|Hx].
  - exists [], ra, rs'. split; [done|]. split; [done|]. simpl.
    intros y Hy. apply (collect_ok _ _ _ Hrs') in Hy as (x' & r' & Hx' & ?).
    exists x', r'. split; [by intros ->|]. split; [by right|done].
  - destruct (IH rs' Hnd Hx eq_refl) as (r1 & r & r2 & Hfx & -> & Hrest).
    exists (ra ++ r1), r, r2. split; [done|].
    split; [by rewrite <- app_assoc|].
    intros y Hy. rewrite <- app_assoc in Hy.
    apply elem_of_app in Hy as [Hy|Hy].
    + exists a, ra. split; [by intros ->|]. split; [left|done].
    + destruct (Hrest y Hy) as (x' & r' & ? & ? & ?).
      exists x', r'. split; [done|]. split; [by right|done].
Qed.

Lemma filter_none (P : B -> Prop) `{forall y, Decision (P y)} (l : list B) :
  (forall y, y ∈ l -> ~ P y) -> filter P l = [].
Proof.
  intros Hl. apply list_empty_no_elem.
  intros y [HP Hy]%list_elem_of_filter. by apply (Hl y).
Qed.

(** A split of the filtered list is a split of the list. *)
Lemma filter_split (P : B -> Prop) `{forall y, Decision (P y)} (l : list B)
  (f1 f2 : list B) (p : B) :
  filter P l = f1 ++ p :: f2 ->
  exists l1 l2, l = l1 ++ p :: l2 /\ filter P l1 = f1 /\ filter P l2 = f2.
Proof.
  revert f1. induction l as [|y l IH]; intros f1 Hf.
  - by destruct f1.
  - rewrite filter_cons in Hf. destruct (decide (P y)) as [Hy|Hy].
    + destruct f1 as [|z f1]; simpl in Hf; injection Hf as -> Hf.
      * exists [], l. by rewrite filter_nil.
      * destruct (IH f1 Hf) as (l1 & l2 & -> & <- & <-).
        exists (z :: l1), l2. split; [done|].
        by rewrite filter_cons, decide_True.
    + destruct (IH f1 Hf) as (l1 & l2 & -> & <- & <-).
      exists (y :: l1), l2. split; [done|].
      by rewrite filter_cons, decide_False.
Qed.

Lemma Forall2_elem_of_r (R : A -> B -> Prop) (l : list A) (k : list B)
  (y : B) :
  Forall2 R l k -> y ∈ k -> exists x, x ∈ l /\ R x y.
Proof.
  induction 1 as [|x y' l k HR _ IH]; [by intros ?%elem_of_nil|].
  intros [->|Hy]%elem_of_cons.
  - exists x. split; [left|done].
  - destruct (IH Hy) as (x' & ? & ?). exists x'. split; [by right|done].
Qed.

Lemma Forall2_elem_of_l (R : A -> B -> Prop) (l : list A) (k : list B)
  (x : A) :
  Forall2 R l k -> x ∈ l -> exists y, y ∈ k /\ R x y.
Proof.
  induction 1 as [|x' y l k HR _ IH]; [by intros ?%elem_of_nil|].
  intros [->|Hx]%elem_of_cons.
  - exists y. split; [left|done].
  - destruct (IH Hx) as (y' & ? & ?). exists y'. split; [by right|done].
Qed.

Lemma Forall2_impl_elem (R R' : A -> B -> Prop) (l : list A) (k : list B) :
  Forall2 R l k -> (forall x y, x ∈ l -> R x y -> R' x y) -> Forall2 R' l k.
Proof.
  induction 1 as [|x y l k HR _ IH]; intros Himpl; constructor.
  - apply Himpl; [left | done].
  - apply IH. intros x' y' Hx'. apply Himpl. by right.
Qed.

End Lists.

(** The paths handed over with a word are the paths of the trace that
    spell it. *)
Lemma paths_for_spelled (board : Board) (w : string)
  (tr : list (Path * string)) :
  (forall x, x ∈ tr -> Spec.spelled_word board x.1 = Some x.2) ->
  paths_for w tr
  = filter (fun q => Spec.spelled_word board q = Some w) tr.*1.
Proof.
  unfold paths_for. induction tr as [|[q v] tr IH]; intros Hsp; [done|].
  rewrite fmap_cons, !filter_cons. simpl.
  pose proof (Hsp (q, v) ltac:(left)) as Hq. simpl in Hq. rewrite Hq.
  rewrite <- IH by (intros x Hx; apply Hsp; by right).
  destruct (decide (v = w)) as [->|Hne].
  - by rewrite decide_True.
  - rewrite decide_False; [done|]. by intros [= ->].
Qed.

(** The spelled words of the results are the keys of the dict. *)
Lemma longest_paths_words (board : Board) (d : Dict) (R : list Path) :
  Forall2 (fun (kv : string * list Path) p =>
             Spec.spelled_word board p = Some kv.1) d R ->
  Spec.spelled_word board <$> R = Some <$> d.*1.
Proof.
  induction 1 as [|kv p d R Hp _ IH]; [done|].
  rewrite !fmap_cons. by rewrite Hp, IH.
Qed.

End MaxScoreFacts.

Import MaxScoreFacts.

(** C3. On a grid of the data model [max_score_paths] returns a list of
    paths of the data model whose spelled words are in [words] and are
    pairwise distinct, with a path for every word that a path on the grid
    spells. The path returned for a word has at least as many cells as
    every path of the data model that spells this word; and in the list
    [find_length_n_words] returns for the length of the word, which is
    the order in which the traversal meets the paths, every path before
    it that spells the word has fewer cells. *)
Theorem max_score_paths_spec (board : Board) (words : list string) :
  Spec.grid board ->
  exists R : list Path,
    max_score_paths board words = Ok R /\
    NoDup (Spec.spelled_word board <$> R) /\
    (forall (q : Path) (w : string),
       Spec.simple_path board q -> Spec.spelled_word board q = Some w ->
       w ∈ words ->
       exists p, p ∈ R /\ Spec.spelled_word board p = Some w) /\
    forall p : Path, p ∈ R ->
      exists (w : string) (l l1 l2 : list Path),
        Spec.spelled_word board p = Some w /\ w ∈ words /\
        Spec.simple_path board p /\
        (forall q : Path,
           Spec.simple_path board q -> Spec.spelled_word board q = Some w ->
           (length q <= length p)%nat) /\
        find_length_n_words (Z.of_nat (String.length w)) board words = Ok l /\
        l = l1 ++ p :: l2 /\
        (forall q : Path,
           q ∈ l1 -> Spec.spelled_word board q = Some w ->
           (length q < length p)%nat).
Proof.
  intros [Hrect Hne]. rewrite max_score_paths_trace.
  set (lens := elements (_ : gset Z)).
  set (pass := fun length : Z => start_trace stop_len_word length board words).
  destruct (collect_returns pass lens) as [TR HTR].
  { intros L _. by apply start_trace_returns. }
  rewrite HTR. res_simpl.
  (* the passes *)
  assert (Hlens : forall w, w ∈ words -> Z.of_nat (String.length w) ∈ lens).
  { intros w Hw. apply elem_of_elements, elem_of_list_to_set.
    apply list_elem_of_In, in_map_iff. exists w.
    split; [done | by apply list_elem_of_In]. }
  assert (Hpass : forall w, w ∈ words ->
    exists trL r1 r2,
      pass (Z.of_nat (String.length w)) = Ok trL /\ TR = r1 ++ trL ++ r2 /\
      paths_for w TR = paths_for w trL).
  { intros w Hw.
    destruct (collect_split pass lens (Z.of_nat (String.length w)) TR)
      as (r1 & trL & r2 & HtrL & -> & Hrest);
      [apply NoDup_elements | by apply Hlens | done |].
    exists trL, r1, r2. split; [done|]. split; [done|].
    assert (Hother : forall y, y ∈ r1 ++ r2 -> y.2 <> w).
    { intros y (L' & r' & HL' & _ & Hr' & Hy)%Hrest Heq.
      destruct (start_trace_sound _ _ _ _ _ Hr' _ Hy) as (Hstop & _).
      apply bool_decide_eq_true in Hstop. apply HL'.
      by rewrite <- Hstop, Heq. }
    unfold paths_for. rewrite !filter_app.
    rewrite (filter_none _ r1), (filter_none _ r2).
    - by rewrite app_nil_r.
    - intros y Hy. apply Hother, elem_of_app. by right.
    - intros y Hy. apply Hother, elem_of_app. by left. }
  assert (Hsound : forall x, x ∈ TR ->
    x.2 ∈ words /\ Spec.simple_path board x.1 /\
    Spec.spelled_word board x.1 = Some x.2).
  { intros x (L & r & _ & Hr & Hx)%(collect_ok _ _ _ HTR).
    by destruct (start_trace_sound _ _ _ _ _ Hr _ Hx) as (_ & ? & ? & ?). }
  assert (Hcomplete : forall q w,
    Spec.simple_path board q -> Spec.spelled_word board q = Some w ->
    w ∈ words -> (q, w) ∈ TR).
  { intros q w Hq Hsp Hw.
    destruct (Hpass w Hw) as (trL & r1 & r2 & HtrL & HTReq & _).
    rewrite HTReq. apply elem_of_app. right. apply elem_of_app. left.
    apply (start_trace_complete stop_len_word (Z.of_nat (String.length w))
             board words trL q w);
      try done.
    - by apply bool_decide_eq_true.
    - intros q1 q2 w1 Hq12 _ Hq2 Hw1.
      apply (stop_len_word_first board _ q q1 q2 w w1); try done.
      by apply bool_decide_eq_true. }
  (* the dict *)
  pose proof (dict_records_feed [] TR [] dict_records_nil) as Hrec.
  simpl in Hrec. set (d := feed update_dict TR []) in *.
  destruct Hrec as (Hnd & Hkeys & Hent).
  destruct (longest_paths_loop d []) as (R & HR & HF).
  { intros [k lst] Hkv. by apply (Hent k lst). }
  assert (Hmax : forall kv p, kv ∈ d -> py_max_len kv.2 = Ok p ->
                              (p, kv.1) ∈ TR).
  { intros [k lst] p Hkv Hp. simpl in *.
    apply py_max_len_spec in Hp as (f1 & f2 & Hlst & _).
    apply paths_for_elem. destruct (Hent k lst Hkv) as [_ <-].
    rewrite Hlst. apply elem_of_app. right. left. }
  assert (Hword : forall kv p, kv ∈ d -> py_max_len kv.2 = Ok p ->
                               Spec.spelled_word board p = Some kv.1).
  { intros kv p Hkv Hp. by destruct (Hsound _ (Hmax kv p Hkv Hp)) as (_ & _ & ?). }
  exists R. split; [done|]. split; [|split].
  - rewrite (longest_paths_words board d R).
    + apply (NoDup_fmap_2 Some), Hnd.
    + by apply (Forall2_impl_elem _ _ _ _ HF).
  - intros q w Hq Hsp Hw.
    pose proof (Hkeys _ (Hcomplete q w Hq Hsp Hw)) as Hk. simpl in Hk.
    apply list_elem_of_fmap in Hk as ([k lst] & -> & Hkv).
    destruct (Forall2_elem_of_l _ _ _ _ HF Hkv) as (p & Hp & Hpm).
    exists p. split; [done|]. by apply (Hword (k, lst)).
  - intros p Hp.
    destruct (Forall2_elem_of_r _ _ _ _ HF Hp) as ([w lst] & Hkv & Hpm).
    destruct (Hsound _ (Hmax _ _ Hkv Hpm)) as (Hw & Hsimple & Hsp).
    simpl in Hw, Hsimple, Hsp, Hpm.
    destruct (Hpass w Hw) as (trL & r1 & r2 & HtrL & HTReq & Hfor).
    destruct (Hent w lst Hkv) as [_ Hlst].
    rewrite Hfor in Hlst.
    rewrite (paths_for_spelled board w trL) in Hlst.
    2: { intros x Hx.
         by destruct (start_trace_sound _ _ _ _ _ HtrL _ Hx) as (_ & _ & _ & ?). }
    apply py_max_len_spec in Hpm as (f1 & f2 & Hsplit & Hf1 & Hf2).
    rewrite Hsplit in Hlst. symmetry in Hlst.
    apply filter_split in Hlst as (l1 & l2 & Hl & Hl1 & Hl2).
    exists w, trL.*1, l1, l2.
    split; [done|]. split; [done|]. split; [done|]. split; [|split; [|split]].
    + intros q Hq Hqsp.
      assert (Hin : q ∈ trL.*1).
      { apply list_elem_of_fmap. exists (q, w). split; [done|].
        apply (start_trace_complete stop_len_word
                 (Z.of_nat (String.length w)) board words trL q w);
          try done.
        - by apply bool_decide_eq_true.
        - intros q1 q2 w1 Hq12 _ Hq2 Hw1.
          apply (stop_len_word_first board _ q q1 q2 w w1); try done.
          by apply bool_decide_eq_true. }
      rewrite Hl in Hin.
      apply elem_of_app in Hin as [Hin|[->|Hin]%elem_of_cons].
      * apply Nat.lt_le_incl, Hf1. rewrite <- Hl1.
        by apply list_elem_of_filter.
      * done.
      * apply Hf2. rewrite <- Hl2. by apply list_elem_of_filter.
    + rewrite find_length_n_words_trace. fold (pass (Z.of_nat (String.length w))).
      by rewrite HtrL.
    + done.
    + intros q Hq Hqsp. apply Hf1. rewrite <- Hl1.
      by apply list_elem_of_filter.
Qed.

Lemma max_score_paths_spec_witness :
  let board := [["Q"; "u"; "Qu"]; ["i"; "t"; "i"]] in
  let words := ["Quit"; "it"] in
  exists R : list Path,
    max_score_paths board words = Ok R /\
    NoDup (Spec.spelled_word board <$> R) /\
    (forall (q : Path) (w : string),
       Spec.simple_path board q -> Spec.spelled_word board q = Some w ->
       w ∈ words ->
       exists p, p ∈ R /\ Spec.spelled_word board p = Some w) /\
    forall p : Path, p ∈ R ->
      exists (w : string) (l l1 l2 : list Path),
        Spec.spelled_word board p = Some w /\ w ∈ words /\
        Spec.simple_path board p /\
        (forall q : Path,
           Spec.simple_path board q -> Spec.spelled_word board q = Some w ->
           (length q <= length p)%nat) /\
        find_length_n_words (Z.of_nat (String.length w)) board words = Ok l /\
        l = l1 ++ p :: l2 /\
        (forall q : Path,
           q ∈ l1 -> Spec.spelled_word board q = Some w ->
           (length q < length p)%nat).
Proof.
  intros board words.
  apply (max_score_paths_spec board words). split.
  - unfold Spec.rectangular. repeat constructor.
  - unfold Spec.no_empty_symbol. repeat constructor; discriminate.
Defined.

(** * Further properties *)

(** ** utils.py: the grid helpers *)

Module GridMore.

Import Utils GridFacts.

Lemma adjacent8_sym (a b : Coord) : Spec.adjacent8 a b -> Spec.adjacent8 b a.
Proof.
  intros (Hr & Hc & Hne). split; [lia|]. split; [lia|]. by intros ->.
Qed.

Lemma adjacent8_dec (a b : Coord) :
  Spec.adjacent8 a b \/ ~ Spec.adjacent8 a b.
Proof.
  destruct (are_neighbours a b) eqn:E.
  - left. by apply are_neighbours_adjacent8.
  - right. intros H%are_neighbours_adjacent8. congruence.
Qed.

Lemma linked_dec (p : Path) : Spec.linked p \/ ~ Spec.linked p.
Proof.
  induction p as [|a p IH]; [by left|].
  destruct p as [|b p]; [by left|].
  destruct (adjacent8_dec a b) as [Hab|Hab]; [|right; by intros [? _]].
  destruct IH as [Hl|Hl]; [left; by split | right; by intros [_ ?]].
Qed.

(** On a path of the grid the loop of [is_valid_path] ends with the
    spelled word when every step is to a touching cell, and with the
    early [return None] otherwise. *)
Lemma is_valid_path_loop_grid (board : Board) (path : Path)
  (acc w : string) :
  path <> [] ->
  Spec.spelled_word board path = Some w ->
  (Spec.linked path /\
   is_valid_path_loop board path acc = Ok (Some (acc +:+ w))) \/
  (~ Spec.linked path /\ is_valid_path_loop board path acc = Ok None).
Proof.
  revert acc w. induction path as [|c path IH]; [done|].
  intros acc w _ Hw. simpl in Hw.
  destruct (Spec.cell board c) as [v|] eqn:Hv; [|done]. simpl in Hw.
  destruct (Spec.spelled_word board path) as [w'|] eqn:Hw'; [|done].
  injection Hw as <-. apply get_value_cell in Hv.
  destruct path as [|c' path].
  - left. split; [done|]. simpl in Hw'. injection Hw' as <-.
    simpl. rewrite Hv. simpl. by rewrite str_app_nil_r.
  - change (is_valid_path_loop board (c :: c' :: path) acc)
      with (if are_neighbours c c'
            then v ← get_value_by_coordinate board c;
                 is_valid_path_loop board (c' :: path) (acc +:+ v)
            else Ok None).
    destruct (are_neighbours c c') eqn:Hn.
    + rewrite Hv. apply are_neighbours_adjacent8 in Hn.
      destruct (IH (acc +:+ v) w' ltac:(done) eq_refl) as [[Hl Hr]|[Hl Hr]].
      * left. split; [by split|].
        change (is_valid_path_loop board (c' :: path) (acc +:+ v)
                = Ok (Some (acc +:+ v +:+ w'))).
        by rewrite Hr, str_app_assoc.
      * right. split; [by intros [_ ?]|]. exact Hr.
    + right. split; [|done]. intros [Ha _].
      apply are_neighbours_adjacent8 in Ha. congruence.
Qed.

(** What has a prefix starts with it, and with every prefix of it. *)
Lemma str_prefix_inv (p w : string) :
  String.prefix p w = true -> exists s, w = p +:+ s.
Proof.
  revert w. induction p as [|a p IH]; intros w; [by exists w|].
  destruct w as [|b w]; simpl; [done|].
  destruct (ascii_dec a b) as [<-|]; [|done].
  intros [s ->]%IH. by exists s.
Qed.

Lemma str_prefix_app_l (p s w : string) :
  String.prefix (p +:+ s) w = true -> String.prefix p w = true.
Proof.
  intros [t ->]%str_prefix_inv. rewrite str_app_assoc. apply str_prefix_app.
Qed.

End GridMore.

Import GridMore.

(** X1. [__are_neighbours] holds exactly of two coordinates at distance 1,
    the larger of the row and column differences; it is symmetric and
    fails on a coordinate and itself. *)
Theorem are_neighbours_distance (a b : Coord) :
  (are_neighbours a b = true <->
   Z.max (Z.abs (a.1 - b.1)) (Z.abs (a.2 - b.2)) = 1) /\
  are_neighbours a b = are_neighbours b a /\
  are_neighbours a a = false.
Proof.
  assert (Hdist : forall x y : Coord,
    Spec.adjacent8 x y <->
    Z.max (Z.abs (x.1 - y.1)) (Z.abs (x.2 - y.2)) = 1).
  { intros [r1 c1] [r2 c2]. unfold Spec.adjacent8. simpl. split.
    - intros (Hr & Hc & Hne).
      assert (r1 <> r2 \/ c1 <> c2) as [?|?]; [|lia..].
      destruct (decide (r1 = r2)) as [->|]; [right|by left].
      intros ->. done.
    - intros H. split; [lia|]. split; [lia|]. intros [= -> ->]. lia. }
  split; [|split].
  - by rewrite are_neighbours_adjacent8.
  - apply eq_true_iff_eq. rewrite !are_neighbours_adjacent8.
    split; apply adjacent8_sym.
  - apply not_true_is_false. rewrite are_neighbours_adjacent8.
    by intros (_ & _ & ?).
Qed.

(** X2. On a non-empty path whose coordinates are cells of the grid
    [is_valid_path] does not raise and decides: it returns the spelled
    word when every step is to a touching cell and the word is in
    [words], and [None] otherwise. On the empty path it raises
    [IndexError]. *)
Theorem is_valid_path_decides (board : Board) (path : Path)
  (words : list string) :
  (path = [] -> is_valid_path board path words = Raise IndexError) /\
  forall w : string,
    path <> [] ->
    Spec.spelled_word board path = Some w ->
    (Spec.linked path /\ w ∈ words /\
     is_valid_path board path words = Ok (Some w)) \/
    (~ (Spec.linked path /\ w ∈ words) /\
     is_valid_path board path words = Ok None).
Proof.
  split; [by intros ->|]. intros w Hne Hw. unfold is_valid_path.
  destruct (is_valid_path_loop_grid board path "" w Hne Hw)
    as [[Hl ->]|[Hl ->]]; simpl.
  - destruct (decide (w ∈ words)) as [Hin|Hin].
    + left. by rewrite bool_decide_true.
    + right. rewrite bool_decide_false by done. split; [|done].
      by intros [_ ?].
  - right. split; [|done]. by intros [? _].
Qed.

Lemma is_valid_path_decides_witness :
  let board := [["C"; "A"; "T"]; ["X"; "X"; "X"]] in
  let path := [(0, 0); (0, 2)] in
  (Spec.linked path /\ "CT" ∈ ["CAT"; "CT"] /\
   is_valid_path board path ["CAT"; "CT"] = Ok (Some "CT")) \/
  (~ (Spec.linked path /\ "CT" ∈ ["CAT"; "CT"]) /\
   is_valid_path board path ["CAT"; "CT"] = Ok None).
Proof.
  intros board path.
  apply (proj2 (is_valid_path_decides board path ["CAT"; "CT"]) "CT").
  - discriminate.
  - reflexivity.
Defined.

(** X3. On a rectangular board the bounds test
    [__is_coordinate_in_board] accepts exactly the cells of the grid, and
    at every coordinate it accepts [__get_value_by_coordinate] returns the
    symbol of the cell. *)
Theorem is_coordinate_in_board_cells (board : Board) (c : Coord) :
  Spec.rectangular board ->
  (is_coordinate_in_board board c = true <-> Spec.in_grid board c) /\
  (is_coordinate_in_board board c = true ->
   exists v, Spec.cell board c = Some v /\
             get_value_by_coordinate board c = Ok v).
Proof.
  intros Hrect.
  assert (Hiff : is_coordinate_in_board board c = true <->
                 Spec.in_grid board c).
  { rewrite is_coordinate_in_board_rectangle.
    by apply in_rectangle_in_grid. }
  split; [done|]. intros [v Hv]%Hiff. exists v. split; [done|].
  by apply get_value_cell.
Qed.

Lemma is_coordinate_in_board_cells_witness :
  let board := [["C"; "A"; "T"]; ["X"; "X"; "X"]] in
  (is_coordinate_in_board board (1, 2) = true <->
   Spec.in_grid board (1, 2)) /\
  (is_coordinate_in_board board (1, 2) = true ->
   exists v, Spec.cell board (1, 2) = Some v /\
             get_value_by_coordinate board (1, 2) = Ok v).
Proof.
  intros board. apply (is_coordinate_in_board_cells board (1, 2)).
  unfold Spec.rectangular. repeat constructor.
Defined.

(** X4. Filtering by a longer prefix a set already filtered by a shorter
    one gives what filtering the whole set by the longer prefix gives,
    which is why the traversal may hand the filtered set down; and the
    filtered set is empty exactly when no word of the set starts with the
    prefix. *)
Theorem filter_words_set_by_prefix_nested (ws : gset string)
  (p q : string) :
  filter_words_set_by_prefix (filter_words_set_by_prefix ws p) (p +:+ q)
  = filter_words_set_by_prefix ws (p +:+ q) /\
  (size (filter_words_set_by_prefix ws p) = 0%nat <->
   forall w, w ∈ ws -> String.prefix p w = false).
Proof.
  split; [|apply filter_words_size_zero].
  apply set_eq. intros w. rewrite !filter_words_elem. split; [tauto|].
  intros [Hp Hw]. split; [done|]. split; [|done].
  by apply (str_prefix_app_l p q).
Qed.

(** ** utils.py: the list modes of the search *)

Module SearchMore.

Import Utils Trace GridFacts SearchFacts.

Section CollectMore.

Context {A B C : Type}.

Lemma collect_ext (f f' : A -> res (list B)) (l : list A) :
  (forall x, x ∈ l -> f x = f' x) -> collect f l = collect f' l.
Proof.
  induction l as [|x l IH]; intros Hf; [done|].
  simpl. rewrite (Hf x) by left. rewrite IH; [done|].
  intros x' Hx'. apply Hf. by right.
Qed.

(** What rounds over distinct elements hand over has no repetition when
    no round repeats itself and no two rounds hand over the same. *)
Lemma collect_NoDup (g : B -> C) (f : A -> res (list B)) (l : list A)
  (rs : list B) :
  NoDup l ->
  (forall x r, x ∈ l -> f x = Ok r -> NoDup (g <$> r)) ->
  (forall x x' r r' y y',
     x ∈ l -> x' ∈ l -> x <> x' -> f x = Ok r -> f x' = Ok r' ->
     y ∈ r -> y' ∈ r' -> g y <> g y') ->
  collect f l = Ok rs -> NoDup (g <$> rs).
Proof.
  revert rs. induction l as [|a l IH]; intros rs Hnd Hself Hcross Hc.
  - injection Hc as <-. apply NoDup_nil_2.
  - apply NoDup_cons in Hnd as [Ha Hnd]. simpl in Hc.
    destruct (f a) as [ra| |] eqn:Hfa; res_simpl in Hc; [|done..].
    destruct (collect f l) as [rs'| |] eqn:Hrs'; res_simpl in Hc; [|done..].
    injection Hc as <-. rewrite fmap_app. apply NoDup_app.
    split; [apply (Hself a); [left|done]|]. split.
    + intros z (y & -> & Hy)%list_elem_of_fmap
        (y' & Heq & Hy')%list_elem_of_fmap.
      apply (collect_ok _ _ _ Hrs') in Hy' as (x' & r' & Hx' & Hfx' & Hy').
      apply (Hcross a x' ra r' y y'); try done.
      * left.
      * by right.
      * by intros ->.
    + apply IH; try done.
      * intros x r Hx. apply Hself. by right.
      * intros x x' r r' y y' Hx Hx'. apply Hcross; by right.
Qed.

End CollectMore.

Lemma snoc_not_nil {A : Type} (l : list A) (x : A) : l ++ [x] <> [].
Proof. by destruct l. Qed.

Lemma find_neighbour_coordinate_inj (b d d' : Coord) :
  find_neighbour_coordinate b d = find_neighbour_coordinate b d' -> d = d'.
Proof.
  destruct b, d, d'. unfold find_neighbour_coordinate. simpl.
  intros [= ? ?]. f_equal; lia.
Qed.

Lemma delta_values_NoDup : NoDup delta_values.
Proof.
  unfold delta_values. simpl.
  repeat (apply NoDup_cons; split;
          [rewrite ?elem_of_cons, elem_of_nil; intros H;
           repeat (destruct H as [H|H]; [discriminate|]); done|]).
  apply NoDup_nil_2.
Qed.

Lemma py_range_NoDup (k : nat) : NoDup (py_range k).
Proof.
  unfold py_range. apply (NoDup_fmap_2 Z.of_nat), NoDup_seq.
Qed.

Section TraceMore.

Variable stop_condition : Z -> Path -> string -> bool.
Variable n : Z.
Variable board : Board.

(** Whatever the traversal hands over from a path extends that path. *)
Lemma action_trace_extends (fuel : nat) (ws : gset string) (path : Path)
  (word : string) (tr : list (Path * string)) :
  path <> [] ->
  action_trace stop_condition n board fuel ws path word = Ok tr ->
  forall x, x ∈ tr -> exists k, x.1 = path ++ k.
Proof.
  revert ws path word tr.
  induction fuel as [|fuel IH]; intros ws path word tr Hne; [done|].
  cbn [action_trace]. destruct (stop_condition n path word).
  - destruct (bool_decide (word ∈ ws)); intros [= <-] x Hx.
    + apply list_elem_of_singleton in Hx as ->. exists []. simpl.
      by rewrite app_nil_r.
    + by apply elem_of_nil in Hx.
  - intros Hc x (d & r & Hd & Hr & Hx)%(collect_ok _ _ _ Hc).
    destruct (exists_last Hne) as (p & b & ->).
    destruct (branch_cases board
                (action_trace stop_condition n board fuel) ws p b word d Hd)
      as [H|[(_ & _ & H)|(v & _ & _ & _ & _ & H)]];
      rewrite H in Hr.
    + injection Hr as <-. by apply elem_of_nil in Hx.
    + done.
    + destruct (IH _ _ _ _ (snoc_not_nil _ _) Hr x Hx) as [k ->].
      eexists. by rewrite <- app_assoc.
Qed.

(** The traversal hands no path over twice. *)
Lemma action_trace_NoDup (fuel : nat) (ws : gset string) (path : Path)
  (word : string) (tr : list (Path * string)) :
  path <> [] ->
  action_trace stop_condition n board fuel ws path word = Ok tr ->
  NoDup tr.*1.
Proof.
  revert ws path word tr.
  induction fuel as [|fuel IH]; intros ws path word tr Hne; [done|].
  cbn [action_trace]. destruct (stop_condition n path word).
  - destruct (bool_decide (word ∈ ws)); intros [= <-];
      [apply NoDup_singleton | apply NoDup_nil_2].
  - destruct (exists_last Hne) as (p & b & ->).
    assert (Hcase : forall d r, d ∈ delta_values ->
      branch board (action_trace stop_condition n board fuel) ws
        (p ++ [b]) word d = Ok r ->
      r = [] \/
      action_trace stop_condition n board fuel
        (filter_words_set_by_prefix ws
           (word +:+ default "" (Spec.cell board
                                   (find_neighbour_coordinate b d))))
        ((p ++ [b]) ++ [find_neighbour_coordinate b d])
        (word +:+ default "" (Spec.cell board
                                (find_neighbour_coordinate b d))) = Ok r).
    { intros d r Hd Hr.
      destruct (branch_cases board
                  (action_trace stop_condition n board fuel) ws p b word d Hd)
        as [H|[(_ & _ & H)|(v & _ & _ & _ & Hv & H)]];
        rewrite H in Hr.
      - left. by injection Hr as <-.
      - done.
      - right. by rewrite Hv. }
    apply (collect_NoDup fst); [apply delta_values_NoDup| |].
    + intros d r Hd Hr. destruct (Hcase d r Hd Hr) as [->|Hrec].
      * apply NoDup_nil_2.
      * apply (IH _ _ _ _ (snoc_not_nil _ _) Hrec).
    + intros d d' r r' y y' Hd Hd' Hne' Hr Hr' Hy Hy' Heq.
      destruct (Hcase d r Hd Hr) as [->|Hrec];
        [by apply elem_of_nil in Hy|].
      destruct (Hcase d' r' Hd' Hr') as [->|Hrec'];
        [by apply elem_of_nil in Hy'|].
      destruct (action_trace_extends _ _ _ _ _
                  (snoc_not_nil _ _) Hrec y Hy) as [k Hk].
      destruct (action_trace_extends _ _ _ _ _
                  (snoc_not_nil _ _) Hrec' y' Hy') as [k' Hk'].
      rewrite Hk, Hk', <- !app_assoc in Heq.
      do 2 apply app_inv_head in Heq.
      change (find_neighbour_coordinate b d :: k
              = find_neighbour_coordinate b d' :: k') in Heq.
      apply (f_equal (hd b)) in Heq. cbn [hd] in Heq.
      by apply Hne', (find_neighbour_coordinate_inj b).
Qed.

Lemma start_cell_extends (ws : gset string) (r c : Z)
  (tr : list (Path * string)) :
  start_cell stop_condition n board ws r c = Ok tr ->
  NoDup tr.*1 /\ forall x, x ∈ tr -> exists k, x.1 = (r, c) :: k.
Proof.
  unfold start_cell.
  destruct (get_value_by_coordinate board (r, c)) as [v| |];
    res_simpl; [|done..].
  destruct (bool_decide (size _ = 0%nat)).
  - intros [= <-]. split; [apply NoDup_nil_2 | by intros ? ?%elem_of_nil].
  - intros Htr. split; [by apply action_trace_NoDup in Htr|].
    intros x Hx.
    destruct (action_trace_extends _ _ _ _ _ (snoc_not_nil [] _) Htr x Hx)
      as [k ->].
    by exists k.
Qed.

Lemma start_trace_NoDup (words : list string) (tr : list (Path * string)) :
  start_trace stop_condition n board words = Ok tr -> NoDup tr.*1.
Proof.
  unfold start_trace.
  set (cells := fun r : Z =>
         row ← py_index board r;
         collect (start_cell stop_condition n board (list_to_set words) r)
           (py_range (length row))).
  assert (Hrow : forall r rs, cells r = Ok rs ->
    NoDup rs.*1 /\ forall x, x ∈ rs -> exists c k, x.1 = (r, c) :: k).
  { intros r rs. unfold cells.
    destruct (py_index board r) as [row| |]; res_simpl; [|done..].
    intros Hrs. split.
    - apply (collect_NoDup fst _ _ _ (py_range_NoDup _)) in Hrs; [done| |].
      + intros c tr' _ Htr'. by apply start_cell_extends in Htr' as [? _].
      + intros c c' tr1 tr2 y y' _ _ Hcc Htr1 Htr2 Hy Hy' Heq.
        apply start_cell_extends in Htr1 as [_ H1].
        apply start_cell_extends in Htr2 as [_ H2].
        destruct (H1 y Hy) as [k Hk]. destruct (H2 y' Hy') as [k' Hk'].
        congruence.
    - intros x (c & tr' & _ & Htr' & Hx)%(collect_ok _ _ _ Hrs).
      apply start_cell_extends in Htr' as [_ H1].
      destruct (H1 x Hx) as [k Hk]. eauto. }
  intros Htr.
  apply (collect_NoDup fst _ _ _ (py_range_NoDup _)) in Htr; [done| |].
  - intros r rs _ Hrs. by apply Hrow in Hrs as [? _].
  - intros r r' rs rs' y y' _ _ Hrr Hrs Hrs' Hy Hy' Heq.
    apply Hrow in Hrs as [_ H1]. apply Hrow in Hrs' as [_ H2].
    destruct (H1 y Hy) as (c & k & Hk).
    destruct (H2 y' Hy') as (c' & k' & Hk'). congruence.
Qed.

End TraceMore.

Lemma stop_len_path_first (n : Z) (q q1 q2 : Path) (w w1 : string) :
  stop_len_path n q w = true ->
  q = q1 ++ q2 -> q2 <> [] ->
  stop_len_path n q1 w1 = false.
Proof.
  intros Hstop -> Hq2.
  apply bool_decide_eq_true in Hstop. rewrite length_app in Hstop.
  apply bool_decide_eq_false. destruct q2; [done|]. simpl in Hstop. lia.
Qed.

(** The round of the loop depends on the recursive call only at a fresh
    cell of the grid. *)
Lemma branch_ext (board : Board)
  (rec rec' : gset string -> Path -> string -> res (list (Path * string)))
  (ws : gset string) (path : Path) (word : string) (d : Coord) :
  (forall c v,
     Spec.cell board c = Some v -> c ∉ path ->
     rec (filter_words_set_by_prefix ws (word +:+ v)) (path ++ [c])
       (word +:+ v)
     = rec' (filter_words_set_by_prefix ws (word +:+ v)) (path ++ [c])
         (word +:+ v)) ->
  branch board rec ws path word d = branch board rec' ws path word d.
Proof.
  intros Hrec. unfold branch.
  destruct (py_index path (-1)) as [b| |]; res_simpl; [|done..].
  destruct (is_coordinate_in_board board _) eqn:Hin; simpl; [|done].
  destruct (bool_decide (_ ∈ path)) eqn:Hmem; [done|].
  apply bool_decide_eq_false in Hmem.
  destruct (get_value_by_coordinate board _) as [v| |] eqn:Hv;
    res_simpl; [|done..].
  destruct (bool_decide (size _ = 0%nat)); [done|].
  apply Hrec; [|done]. by apply in_board_value_cell.
Qed.

(** With one character per symbol the word has as many characters as the
    path has cells, and the two stop predicates agree all along. *)
Lemma cell_single_char (board : Board) (c : Coord) (v : string) :
  Spec.single_char board -> Spec.cell board c = Some v ->
  String.length v = 1%nat.
Proof.
  unfold Spec.cell. intros Hone.
  destruct (_ && _); [|done].
  destruct (board !! Z.to_nat c.1) as [row|] eqn:Hrow; [|done]. simpl.
  intros Hv. eapply Forall_lookup_1 in Hone; [|done].
  by eapply Forall_lookup_1 in Hone.
Qed.

Lemma action_trace_single_char (n : Z) (board : Board) (fuel : nat)
  (ws : gset string) (path : Path) (word : string) :
  Spec.single_char board ->
  String.length word = length path ->
  action_trace stop_len_path n board fuel ws path word
  = action_trace stop_len_word n board fuel ws path word.
Proof.
  intros Hone. revert ws path word.
  induction fuel as [|fuel IH]; intros ws path word Hlen; [done|].
  cbn [action_trace]. unfold stop_len_path, stop_len_word. rewrite Hlen.
  destruct (bool_decide (Z.of_nat (length path) = n)); [done|].
  apply collect_ext. intros d Hd. apply branch_ext. intros c v Hv _.
  apply IH. rewrite str_length_app, length_app, Hlen.
  by rewrite (cell_single_char board c v).
Qed.

Lemma start_trace_single_char (n : Z) (board : Board)
  (words : list string) :
  Spec.single_char board ->
  start_trace stop_len_path n board words
  = start_trace stop_len_word n board words.
Proof.
  intros Hone. unfold start_trace. apply collect_ext. intros r Hr.
  destruct (py_index board r) as [row| |] eqn:Hrow; res_simpl; [|done..].
  apply collect_ext. intros c Hc. unfold start_cell.
  destruct (start_cell_value board r c row Hr Hrow Hc) as (v & -> & Hv).
  res_simpl. destruct (bool_decide (size _ = 0%nat)); [done|].
  apply action_trace_single_char; [done|].
  by rewrite (cell_single_char board (r, c) v).
Qed.

End SearchMore.

Import SearchMore.

(** X5. On a rectangular board [find_length_n_paths] returns, and the list
    it returns holds exactly the paths of the data model that have [n]
    cells and spell a word of [words]: the prefix filter removes none. *)
Theorem find_length_n_paths_exact (n : Z) (board : Board)
  (words : list string) :
  Spec.rectangular board ->
  exists l, find_length_n_paths n board words = Ok l /\
    forall p : Path,
      p ∈ l <->
      Spec.simple_path board p /\ Z.of_nat (length p) = n /\
      exists w, Spec.spelled_word board p = Some w /\ w ∈ words.
Proof.
  intros Hrect. rewrite find_length_n_paths_trace.
  destruct (start_trace_returns stop_len_path n board words Hrect)
    as [tr Htr].
  rewrite Htr. exists tr.*1. split; [done|]. intros p. split.
  - intros ([q w] & -> & Hx)%list_elem_of_fmap.
    destruct (start_trace_sound _ _ _ _ _ Htr _ Hx)
      as (Hstop & Hw & Hsimple & Hsp).
    simpl in *. apply bool_decide_eq_true in Hstop. eauto 10.
  - intros (Hsimple & Hlen & w & Hsp & Hw).
    apply list_elem_of_fmap. exists (p, w). split; [done|].
    assert (Hstop : stop_len_path n p w = true)
      by by apply bool_decide_eq_true.
    apply (start_trace_complete stop_len_path n board words tr p w);
      try done.
    intros q1 q2 w1 Hq _ Hq2 _.
    by apply (stop_len_path_first n p q1 q2 w w1).
Qed.

Lemma find_length_n_paths_exact_witness :
  let board := [["C"; "A"; "T"]; ["X"; "X"; "X"]; ["X"; "X"; "X"]] in
  exists l, find_length_n_paths 3 board ["CAT"; "AT"; "CA"] = Ok l /\
    forall p : Path,
      p ∈ l <->
      Spec.simple_path board p /\ Z.of_nat (length p) = 3 /\
      exists w, Spec.spelled_word board p = Some w /\
                w ∈ ["CAT"; "AT"; "CA"].
Proof.
  intros board.
  apply (find_length_n_paths_exact 3 board ["CAT"; "AT"; "CA"]).
  unfold Spec.rectangular. repeat constructor.
Defined.

(** X6. Neither list mode returns a path twice. *)
Theorem find_length_n_no_repetition (n : Z) (board : Board)
  (words : list string) (l : list Path) :
  (find_length_n_paths n board words = Ok l -> NoDup l) /\
  (find_length_n_words n board words = Ok l -> NoDup l).
Proof.
  rewrite find_length_n_paths_trace, find_length_n_words_trace.
  split.
  - destruct (start_trace stop_len_path n board words) as [tr| |] eqn:Htr;
      [|done..].
    intros [= <-]. by apply start_trace_NoDup in Htr.
  - destruct (start_trace stop_len_word n board words) as [tr| |] eqn:Htr;
      [|done..].
    intros [= <-]. by apply start_trace_NoDup in Htr.
Qed.

Lemma find_length_n_no_repetition_witness :
  NoDup [[(0, 0); (0, 1)]; [(0, 1); (0, 2)]].
Proof.
  apply (proj2 (find_length_n_no_repetition 2
                  [["C"; "A"; "T"]; ["X"; "X"; "X"]; ["X"; "X"; "X"]]
                  ["CAT"; "AT"; "CA"] [[(0, 0); (0, 1)]; [(0, 1); (0, 2)]])).
  vm_compute. reflexivity.
Defined.

(** X7. On a rectangular board there is no path with more cells than the
    board has: [find_length_n_paths] returns the empty list for every [n]
    above the number of cells. *)
Theorem find_length_n_paths_too_long (n : Z) (board : Board)
  (words : list string) :
  Spec.rectangular board ->
  Z.of_nat (length board * length (hd [] board)) < n ->
  find_length_n_paths n board words = Ok [].
Proof.
  intros Hrect Hn. rewrite find_length_n_paths_trace.
  destruct (start_trace_returns stop_len_path n board words Hrect)
    as [tr Htr].
  rewrite Htr. res_simpl. rewrite (list_empty_no_elem tr); [done|].
  intros x Hx.
  destruct (start_trace_sound _ _ _ _ _ Htr _ Hx)
    as (Hstop & _ & (_ & Hnd & Hin & _) & _).
  apply bool_decide_eq_true in Hstop.
  pose proof (rectangle_pigeonhole board x.1 Hnd) as Hle.
  unfold area in Hle. cut (length x.1 <= length board * length (hd [] board))%nat; [lia|].
  apply Hle. eapply Forall_impl; [exact Hin|].
  intros c Hc. by apply in_rectangle_in_grid.
Qed.

Lemma find_length_n_paths_too_long_witness :
  find_length_n_paths 7 [["C"; "A"; "T"]; ["X"; "X"; "X"]] ["CAT"] = Ok [].
Proof.
  apply (find_length_n_paths_too_long 7 [["C"; "A"; "T"]; ["X"; "X"; "X"]]).
  - unfold Spec.rectangular. repeat constructor.
  - simpl. lia.
Defined.

(** X8. With one character per symbol the two list modes are one: for
    every [n], [find_length_n_paths] and [find_length_n_words] have the
    same outcome, the same list in the same order when they return. *)
Theorem find_length_n_modes_agree (n : Z) (board : Board)
  (words : list string) :
  Spec.single_char board ->
  find_length_n_paths n board words = find_length_n_words n board words.
Proof.
  intros Hone. rewrite find_length_n_paths_trace, find_length_n_words_trace.
  by rewrite start_trace_single_char.
Qed.

Lemma find_length_n_modes_agree_witness :
  find_length_n_paths 2 [["C"; "A"; "T"]; ["X"; "X"; "X"]] ["CAT"; "AT"]
  = find_length_n_words 2 [["C"; "A"; "T"]; ["X"; "X"; "X"]] ["CAT"; "AT"].
Proof.
  apply find_length_n_modes_agree.
  unfold Spec.single_char. repeat constructor.
Defined.

(** X9. [__backtracking_action] with the closures of the two list modes
    returns and cleans up after itself. On a rectangular board, from a
    path whose cells after the first are distinct cells of the rectangle,
    with a depth budget above the number of cells not yet on the path,
    the call returns; the path it leaves is the path it was given; the
    list it leaves is the list it was given followed by the paths found;
    and every path found extends the path given. *)
Theorem backtracking_action_restores_path
  (stop_condition : Z -> Path -> string -> bool) (n : Z) (board : Board)
  (fuel : nat) (words_set : gset string) (list_paths : list Path)
  (c0 : Coord) (rest : Path) (curr_word : string) :
  stop_condition = stop_len_path \/ stop_condition = stop_len_word ->
  Spec.rectangular board ->
  NoDup rest -> Forall (Spec.in_rectangle board) rest ->
  (area board < fuel + length rest)%nat ->
  exists found : list Path,
    backtracking_action stop_condition update_list n board fuel words_set
      list_paths (c0 :: rest) curr_word
    = Ok (list_paths ++ found, c0 :: rest) /\
    forall p, p ∈ found -> exists k, p = (c0 :: rest) ++ k.
Proof.
  intros _ Hrect Hnd Hin Hfuel. rewrite backtracking_action_trace.
  destruct (action_trace stop_condition n board fuel words_set (c0 :: rest)
              curr_word) as [tr|e|] eqn:Htr.
  - exists tr.*1. res_simpl. rewrite feed_update_list. split; [done|].
    intros p (x & -> & Hx)%list_elem_of_fmap.
    by apply (action_trace_extends stop_condition n board fuel words_set
                (c0 :: rest) curr_word tr).
  - by apply action_trace_not_raise in Htr.
  - by apply action_trace_not_timeout in Htr.
Qed.

Lemma backtracking_action_restores_path_witness :
  exists found : list Path,
    backtracking_action stop_len_path update_list 3 [["C"; "A"; "T"]]
      (depth_budget [["C"; "A"; "T"]]) (list_to_set ["CAT"]) [] [(0, 0)] "C"
    = Ok ([] ++ found, [(0, 0)]) /\
    forall p, p ∈ found -> exists k, p = [(0, 0)] ++ k.
Proof.
  apply (backtracking_action_restores_path stop_len_path 3
           [["C"; "A"; "T"]] (depth_budget [["C"; "A"; "T"]])
           (list_to_set ["CAT"]) [] (0, 0) [] "C").
  - by left.
  - unfold Spec.rectangular. repeat constructor.
  - constructor.
  - constructor.
  - vm_compute. lia.
Defined.

(** ** utils.py: the maximal score *)

Module MaxScoreMore.

Import Utils Trace GridFacts SearchFacts MaxScoreFacts.

Lemma total_score_app (l1 l2 : list Path) :
  Spec.total_score (l1 ++ l2) = Spec.total_score l1 + Spec.total_score l2.
Proof.
  induction l1 as [|p l1 IH]; simpl; [done|]. rewrite IH. lia.
Qed.

Lemma total_score_nonneg (l : list Path) : 0 <= Spec.total_score l.
Proof.
  induction l as [|p l IH]; simpl; [done|]. unfold Spec.path_score. lia.
Qed.

Lemma path_score_mono (q p : Path) :
  (length q <= length p)%nat -> Spec.path_score q <= Spec.path_score p.
Proof.
  intros H. unfold Spec.path_score. apply Z.pow_le_mono_l. lia.
Qed.

(** A selection with one path per word scores no more than a list that
    holds, for the word of each of its paths, a path at least as long. *)
Lemma total_score_dominated (board : Board) (Q R : list Path) :
  NoDup (Spec.spelled_word board <$> Q) ->
  (forall q, q ∈ Q ->
     exists p, p ∈ R /\
       Spec.spelled_word board p = Spec.spelled_word board q /\
       (length q <= length p)%nat) ->
  Spec.total_score Q <= Spec.total_score R.
Proof.
  revert R. induction Q as [|q Q IH]; intros R Hnd Hdom.
  - apply total_score_nonneg.
  - rewrite fmap_cons in Hnd. apply NoDup_cons in Hnd as [Hq Hnd].
    destruct (Hdom q ltac:(left)) as (p & Hp & Hw & Hlen).
    apply list_elem_of_split in Hp as (R1 & R2 & ->).
    rewrite total_score_app. simpl.
    pose proof (path_score_mono q p Hlen).
    cut (Spec.total_score Q <= Spec.total_score (R1 ++ R2)).
    { rewrite total_score_app. lia. }
    apply IH; [done|]. intros q' Hq'.
    destruct (Hdom q' ltac:(by right)) as (p' & Hp' & Hw' & Hlen').
    exists p'. split; [|done].
    apply elem_of_app in Hp' as [Hp'|[->|Hp']%elem_of_cons];
      apply elem_of_app; [by left| |by right].
    exfalso. apply Hq. rewrite <- Hw, Hw'.
    apply list_elem_of_fmap. by exists q'.
Qed.

(** The result of [max_score_paths] holds, for every word a path of the
    data model spells, a path spelling it that is at least as long. *)
Lemma max_score_paths_dominates (board : Board) (words : list string) :
  Spec.grid board ->
  exists R : list Path,
    max_score_paths board words = Ok R /\
    forall (q : Path) (w : string),
      Spec.simple_path board q -> Spec.spelled_word board q = Some w ->
      w ∈ words ->
      exists p, p ∈ R /\ Spec.spelled_word board p = Some w /\
                (length q <= length p)%nat.
Proof.
  intros [Hrect Hne]. rewrite max_score_paths_trace.
  set (lens := elements (_ : gset Z)).
  set (pass := fun length : Z => start_trace stop_len_word length board words).
  destruct (collect_returns pass lens) as [TR HTR].
  { intros L _. by apply start_trace_returns. }
  rewrite HTR. res_simpl.
  assert (Hsound : forall x, x ∈ TR ->
    Spec.spelled_word board x.1 = Some x.2).
  { intros x (L & r & _ & Hr & Hx)%(collect_ok _ _ _ HTR).
    by destruct (start_trace_sound _ _ _ _ _ Hr _ Hx) as (_ & _ & _ & ?). }
  assert (Hcomplete : forall q w,
    Spec.simple_path board q -> Spec.spelled_word board q = Some w ->
    w ∈ words -> (q, w) ∈ TR).
  { intros q w Hq Hsp Hw.
    assert (HL : Z.of_nat (String.length w) ∈ lens).
    { apply elem_of_elements, elem_of_list_to_set.
      apply list_elem_of_In, in_map_iff. exists w.
      split; [done | by apply list_elem_of_In]. }
    destruct (collect_ok_inv _ _ _ HTR _ HL) as [trL HtrL].
    apply (collect_ok _ _ _ HTR). exists (Z.of_nat (String.length w)), trL.
    split; [done|]. split; [done|].
    apply (start_trace_complete stop_len_word (Z.of_nat (String.length w))
             board words trL q w);
      try done.
    - by apply bool_decide_eq_true.
    - intros q1 q2 w1 Hq12 _ Hq2 Hw1.
      apply (stop_len_word_first board _ q q1 q2 w w1); try done.
      by apply bool_decide_eq_true. }
  pose proof (dict_records_feed [] TR [] dict_records_nil) as Hrec.
  simpl in Hrec. set (d := feed update_dict TR []) in *.
  destruct Hrec as (Hnd & Hkeys & Hent).
  destruct (longest_paths_loop d []) as (R & HR & HF).
  { intros [k lst] Hkv. by apply (Hent k lst). }
  exists R. split; [done|]. intros q w Hq Hsp Hw.
  pose proof (Hcomplete q w Hq Hsp Hw) as HqTR.
  pose proof (Hkeys _ HqTR) as Hk. simpl in Hk.
  apply list_elem_of_fmap in Hk as ([k lst] & -> & Hkv).
  destruct (Forall2_elem_of_l _ _ _ _ HF Hkv) as (p & Hp & Hpm).
  simpl in *. exists p. split; [done|].
  apply py_max_len_spec in Hpm as (f1 & f2 & Hlst & Hf1 & Hf2).
  destruct (Hent k lst Hkv) as [_ Hpaths].
  assert (Hpin : (p, k) ∈ TR).
  { apply paths_for_elem. rewrite <- Hpaths, Hlst.
    apply elem_of_app. right. left. }
  split; [exact (Hsound _ Hpin)|].
  assert (Hqin : q ∈ lst) by (rewrite Hpaths; by apply paths_for_elem).
  rewrite Hlst in Hqin.
  apply elem_of_app in Hqin as [Hqin|[->|Hqin]%elem_of_cons].
  - by apply Nat.lt_le_incl, Hf1.
  - done.
  - by apply Hf2.
Qed.

End MaxScoreMore.

Import MaxScoreMore.

(** X10. [max_score_paths] gives the maximal score: on a grid of the data
    model, a selection of paths of the data model spelling words of
    [words], no two of them the same word, never scores more, a path
    counting for the square of its number of cells, than the list
    [max_score_paths] returns. *)
Theorem max_score_paths_optimal (board : Board) (words : list string) :
  Spec.grid board ->
  exists R : list Path,
    max_score_paths board words = Ok R /\
    forall Q : list Path,
      NoDup (Spec.spelled_word board <$> Q) ->
      (forall q, q ∈ Q ->
         Spec.simple_path board q /\
         exists w, Spec.spelled_word board q = Some w /\ w ∈ words) ->
      Spec.total_score Q <= Spec.total_score R.
Proof.
  intros Hgrid.
  destruct (max_score_paths_dominates board words Hgrid) as (R & HR & Hdom).
  exists R. split; [done|]. intros Q Hnd HQ.
  apply (total_score_dominated board); [done|]. intros q Hq.
  destruct (HQ q Hq) as (Hsimple & w & Hw & Hin).
  destruct (Hdom q w Hsimple Hw Hin) as (p & Hp & Hpw & Hlen).
  exists p. split; [done|]. split; [congruence | done].
Qed.

Lemma max_score_paths_optimal_witness :
  let board := [["Q"; "u"; "Qu"]; ["i"; "t"; "i"]] in
  exists R : list Path,
    max_score_paths board ["Quit"; "it"] = Ok R /\
    forall Q : list Path,
      NoDup (Spec.spelled_word board <$> Q) ->
      (forall q, q ∈ Q ->
         Spec.simple_path board q /\
         exists w, Spec.spelled_word board q = Some w /\
                   w ∈ ["Quit"; "it"]) ->
      Spec.total_score Q <= Spec.total_score R.
Proof.
  intros board. apply (max_score_paths_optimal board ["Quit"; "it"]). split.
  - unfold Spec.rectangular. repeat constructor.
  - unfold Spec.no_empty_symbol. repeat constructor; discriminate.
Defined.

(** ** model.py: the session *)

Module SessionMore.

Import Utils Model GridFacts SessionFacts SearchFacts SearchMore.

(** What [get_buttons_to_enable] returns on a non-empty path: the last
    cell, then the neighbours that pass the two tests, in the order of
    the deltas. *)
Lemma get_buttons_to_enable_unfold (self : Model) (p : Path) (b : Coord) :
  self.(current_path) = p ++ [b] ->
  get_buttons_to_enable self
  = Ok (b :: (find_neighbour_coordinate b <$>
              filter (fun d : Coord =>
                        is_coordinate_in_board self.(board)
                          (find_neighbour_coordinate b d)
                        && bool_decide (find_neighbour_coordinate b d
                                        ∉ self.(current_path)) = true)
                     delta_values)).
Proof.
  intros Hp. unfold get_buttons_to_enable.
  rewrite Hp, py_index_last. destruct b as [br bc].
  cbn [mbind res_bind bind].
  rewrite (fold_left_select
    (fun d : Coord =>
       is_coordinate_in_board self.(board)
         (find_neighbour_coordinate (br, bc) d)
       && bool_decide (find_neighbour_coordinate (br, bc) d ∉ p ++ [(br, bc)]))
    (find_neighbour_coordinate (br, bc)))
    by (by intros acc [dr dc]).
  done.
Qed.

Lemma get_buttons_to_enable_elem (self : Model) (p : Path) (b c : Coord)
  (l : list Coord) :
  self.(current_path) = p ++ [b] ->
  get_buttons_to_enable self = Ok l ->
  c ∈ l <->
  c = b \/
  (Spec.adjacent8 b c /\ Spec.in_rectangle self.(board) c /\
   c ∉ self.(current_path)).
Proof.
  intros Hp. rewrite (get_buttons_to_enable_unfold self p b Hp).
  intros [= <-]. rewrite elem_of_cons, list_elem_of_fmap.
  setoid_rewrite list_elem_of_filter. split.
  - intros [->|(d & -> & Hkeep & Hd)]; [by left|]. right.
    apply andb_true_iff in Hkeep as [Hin Hnot].
    apply bool_decide_eq_true in Hnot.
    apply is_coordinate_in_board_rectangle in Hin.
    split; [|done]. by apply delta_adjacent8.
  - intros [->|(Hadj & Hin & Hnot)]; [by left|]. right.
    apply adjacent8_delta in Hadj as (d & Hd & <-).
    exists d. split; [done|]. split; [|done].
    apply andb_true_iff. split.
    + by apply is_coordinate_in_board_rectangle.
    + by apply bool_decide_eq_true.
Qed.

(** Removing the first occurrence of an element of [l] from [l ++ k]
    removes it from [l]. *)
Lemma py_remove_app {A : Type} `{EqDecision A} (x : A) (l k : list A) :
  x ∈ l ->
  exists l1 l2, l = l1 ++ x :: l2 /\ (x ∉ l1) /\
                py_remove x (l ++ k) = Ok (l1 ++ l2 ++ k).
Proof.
  induction l as [|y l IH]; [by intros ?%elem_of_nil|].
  intros Hx. simpl. destruct (decide (y = x)) as [->|Hne].
  - exists [], l. split; [done|]. split; [apply not_elem_of_nil | done].
  - apply elem_of_cons in Hx as [->|Hx]; [done|].
    destruct (IH Hx) as (l1 & l2 & -> & Hfresh & ->).
    exists (y :: l1), l2. split; [done|]. split; [|done].
    apply not_elem_of_cons. split; [by intros ->|done].
Qed.

Lemma linked_app_inv_l (p q : Path) : Spec.linked (p ++ q) -> Spec.linked p.
Proof.
  induction p as [|a p IH]; [done|].
  destruct p as [|a' p]; simpl; [done|].
  intros [Ha H]. split; [done|]. by apply IH.
Qed.

(** The three ways through [check_word]. *)
Lemma check_word_absent (self : Model) :
  self.(current_word) ∉ self.(words_collection) ->
  check_word self = (self, msg_not_a_word self.(current_word)).
Proof. intros H. unfold check_word. by rewrite bool_decide_true. Qed.

Lemma check_word_known (self : Model) :
  self.(current_word) ∈ self.(words_collection) ->
  self.(current_word) ∈ self.(words_found) ->
  check_word self = (self, msg_already_found self.(current_word)).
Proof.
  intros Hin Hf. unfold check_word.
  rewrite bool_decide_false by (by intros H; apply H).
  by rewrite bool_decide_true.
Qed.

Lemma check_word_fresh (self : Model) :
  self.(current_word) ∈ self.(words_collection) ->
  self.(current_word) ∉ self.(words_found) ->
  check_word self
  = (mkModel self.(board) self.(words_collection)
       ({[ self.(current_word) ]} ∪ self.(words_found))
       self.(current_word) self.(current_path)
       (self.(score) + int_pow2 (Z.of_nat (length self.(current_path)))),
     if Z.of_nat (String.length self.(current_word)) <? 6
     then msg_found self.(current_word)
     else msg_found_nice self.(current_word)).
Proof.
  intros Hin Hf. unfold check_word.
  rewrite bool_decide_false by (by intros H; apply H).
  rewrite bool_decide_false by done.
  cbn [increase_score set_words_found set_score fst current_word
       current_path score board words_collection words_found].
  by destruct (Z.of_nat (String.length (current_word self)) <? 6).
Qed.

End SessionMore.

Import SessionMore.

(** X11. [check_word] does not score a word twice: a second call right
    after a first leaves the session as the first left it, and answers
    that the word is not a word, when it is not in the collection, or
    that it was already found. *)
Theorem check_word_twice (self : Model) :
  let s1 := (check_word self).1 in
  (check_word s1).1 = s1 /\
  (s1.(current_word) ∉ s1.(words_collection) ->
   (check_word s1).2 = msg_not_a_word s1.(current_word)) /\
  (s1.(current_word) ∈ s1.(words_collection) ->
   (check_word s1).2 = msg_already_found s1.(current_word)).
Proof.
  intros s1. subst s1.
  destruct (decide (self.(current_word) ∈ self.(words_collection)))
    as [Hin|Hin].
  - destruct (decide (self.(current_word) ∈ self.(words_found))) as [Hf|Hf].
    + rewrite (check_word_known self Hin Hf). cbn [fst].
      rewrite (check_word_known self Hin Hf). done.
    + rewrite (check_word_fresh self Hin Hf). cbn [fst].
      rewrite check_word_known; cbn [current_word words_collection
                                     words_found]; [done..|].
      apply elem_of_union. left. by apply elem_of_singleton_2.
  - rewrite (check_word_absent self Hin). cbn [fst].
    rewrite (check_word_absent self Hin). done.
Qed.

(** X12. What [check_word] keeps: the board, the collection, the word and
    the path are untouched; the score never decreases and the words found
    only grow; words found that were all in the collection still are; and
    the score changes only when the current word joins the words found. *)
Theorem check_word_keeps (self : Model) :
  let s1 := (check_word self).1 in
  s1.(board) = self.(board) /\
  s1.(words_collection) = self.(words_collection) /\
  s1.(current_word) = self.(current_word) /\
  s1.(current_path) = self.(current_path) /\
  self.(score) <= s1.(score) /\
  self.(words_found) ⊆ s1.(words_found) /\
  (self.(words_found) ⊆ self.(words_collection) ->
   s1.(words_found) ⊆ s1.(words_collection)) /\
  (s1.(score) <> self.(score) ->
   (self.(current_word) ∉ self.(words_found)) /\
   self.(current_word) ∈ s1.(words_found)).
Proof.
  intros s1. subst s1.
  destruct (decide (self.(current_word) ∈ self.(words_collection)))
    as [Hin|Hin].
  - destruct (decide (self.(current_word) ∈ self.(words_found))) as [Hf|Hf].
    + rewrite (check_word_known self Hin Hf). cbn [fst].
      repeat split; done || lia.
    + rewrite (check_word_fresh self Hin Hf).
      cbn [fst board words_collection words_found current_word current_path
           score].
      repeat split; try done.
      * unfold int_pow2. nia.
      * apply union_subseteq_r.
      * intros Hsub. apply union_subseteq. split; [|done].
        by apply singleton_subseteq_l.
      * apply elem_of_union. left. by apply elem_of_singleton_2.
  - rewrite (check_word_absent self Hin). cbn [fst].
    repeat split; done || lia.
Qed.

(** X13. The controller tells a credited word by the answer starting with
    "You found": the answer of [check_word] starts so exactly when the
    current word is in the collection and was not found before. *)
Theorem check_word_you_found (self : Model) :
  String.prefix "You found" (check_word self).2 = true <->
  self.(current_word) ∈ self.(words_collection) /\
  (self.(current_word) ∉ self.(words_found)).
Proof.
  destruct (decide (self.(current_word) ∈ self.(words_collection)))
    as [Hin|Hin].
  - destruct (decide (self.(current_word) ∈ self.(words_found))) as [Hf|Hf].
    + rewrite (check_word_known self Hin Hf). cbn [snd].
      split; [by vm_compute | by intros [_ ?]].
    + rewrite (check_word_fresh self Hin Hf). cbn [snd].
      split; [done|]. intros _.
      by destruct (Z.of_nat (String.length (current_word self)) <? 6);
        vm_compute.
  - rewrite (check_word_absent self Hin). cbn [snd].
    split; [by vm_compute | by intros [? _]].
Qed.

(** The move of a legal toggle, for the proofs below. *)
Lemma update_word_and_path_legal (self : Model) (c : Coord) :
  Spec.rectangular self.(board) ->
  Spec.in_step self.(board) self.(current_path) self.(current_word) ->
  (self.(current_path) = [] /\ Spec.in_grid self.(board) c) \/
  (exists l, get_buttons_to_enable self = Ok l /\ c ∈ l) ->
  let s1 := (update_word_and_path self c).1 in
  (update_word_and_path self c).2 = Ok () /\
  s1.(board) = self.(board) /\
  s1.(words_collection) = self.(words_collection) /\
  s1.(words_found) = self.(words_found) /\
  s1.(score) = self.(score) /\
  (s1.(current_path) = self.(current_path) ++ [c] \/
   self.(current_path) = s1.(current_path) ++ [c]) /\
  Spec.in_step s1.(board) s1.(current_path) s1.(current_word).
Proof.
  intros Hrect (Hnd & Hin & Hl & Hw) Hlegal.
  assert (Hadd : forall v,
    Spec.cell self.(board) c = Some v -> c ∉ self.(current_path) ->
    (forall b, last self.(current_path) = Some b -> Spec.adjacent8 b c) ->
    let s1 := (update_word_and_path self c).1 in
    (update_word_and_path self c).2 = Ok () /\
    s1.(board) = self.(board) /\
    s1.(words_collection) = self.(words_collection) /\
    s1.(words_found) = self.(words_found) /\
    s1.(score) = self.(score) /\
    (s1.(current_path) = self.(current_path) ++ [c] \/
     self.(current_path) = s1.(current_path) ++ [c]) /\
    Spec.in_step s1.(board) s1.(current_path) s1.(current_word)).
  { intros v Hv Hfresh Hadj.
    rewrite (update_word_and_path_add self c v).
    - cbn [fst snd board words_collection words_found score current_path
           current_word].
      repeat split; try done; [by left| | | |].
      + apply NoDup_app. split; [done|]. split; [|apply NoDup_singleton].
        by intros x Hx ->%list_elem_of_singleton.
      + apply Forall_app. split; [done|]. apply Forall_singleton.
        by exists v.
      + destruct (decide (self.(current_path) = [])) as [->|Hne]; [done|].
        destruct (exists_last Hne) as (p & b & Hp). rewrite Hp in *.
        apply linked_snoc; [done|]. apply Hadj, last_snoc.
      + by apply spelled_word_snoc.
    - intros Hlast. by apply Hfresh, last_elem_of.
    - by apply get_value_cell. }
  destruct Hlegal as [[Hempty [v Hv]]|(l & Hbuttons & Hc)].
  - apply (Hadd v Hv); rewrite Hempty; [apply not_elem_of_nil | done].
  - destruct (decide (self.(current_path) = [])) as [Hempty|Hne].
    { unfold get_buttons_to_enable in Hbuttons. by rewrite Hempty in Hbuttons. }
    destruct (exists_last Hne) as (p & b & Hp).
    apply (get_buttons_to_enable_elem self p b c l Hp Hbuttons) in Hc
      as [->|(Hadj & Hrc & Hfresh)].
    + destruct self as [bd wc wf w path s]. simpl in *. subst path.
      apply NoDup_app in Hnd as (Hndp & Hdisj & _).
      apply Forall_app in Hin as [Hinp Hinb].
      apply spelled_word_app in Hw as (wp & v & Hwp & Hv & ->).
      apply spelled_word_singleton in Hv.
      rewrite (update_word_and_path_retract bd wc wf wp v p b s).
      * cbn [fst snd board words_collection words_found score current_path
             current_word].
        repeat split; try done; [by right|].
        by apply linked_app_inv_l in Hl.
      * intros Hb. apply (Hdisj b Hb). left.
      * by apply get_value_cell.
    + apply (in_rectangle_in_grid _ _ Hrect) in Hrc as [v Hv].
      apply (Hadd v Hv Hfresh). rewrite Hp, last_snoc. by intros ? [= <-].
Qed.

(** X14. A legal move keeps path and word in step. On a rectangular board,
    when the path has no repetition, stays on the grid with touching
    steps and spells the current word, toggling a cell that
    [get_buttons_to_enable] offers, or any cell of the grid when the path
    is empty, returns normally, changes nothing but path and word, moves
    the path by one cell, and leaves path and word in step again. *)
Theorem update_word_and_path_legal_move (self : Model) (c : Coord) :
  Spec.rectangular self.(board) ->
  Spec.in_step self.(board) self.(current_path) self.(current_word) ->
  (self.(current_path) = [] /\ Spec.in_grid self.(board) c) \/
  (exists l, get_buttons_to_enable self = Ok l /\ c ∈ l) ->
  let s1 := (update_word_and_path self c).1 in
  (update_word_and_path self c).2 = Ok () /\
  s1.(board) = self.(board) /\
  s1.(words_collection) = self.(words_collection) /\
  s1.(words_found) = self.(words_found) /\
  s1.(score) = self.(score) /\
  (s1.(current_path) = self.(current_path) ++ [c] \/
   self.(current_path) = s1.(current_path) ++ [c]) /\
  Spec.in_step s1.(board) s1.(current_path) s1.(current_word).
Proof. apply update_word_and_path_legal. Qed.

Lemma update_word_and_path_legal_move_witness :
  let self := mkModel [["C"; "A"; "T"]] ∅ ∅ "C" [(0, 0)] 0 in
  let s1 := (update_word_and_path self (0, 1)).1 in
  (update_word_and_path self (0, 1)).2 = Ok () /\
  s1.(board) = self.(board) /\
  s1.(words_collection) = self.(words_collection) /\
  s1.(words_found) = self.(words_found) /\
  s1.(score) = self.(score) /\
  (s1.(current_path) = self.(current_path) ++ [(0, 1)] \/
   self.(current_path) = s1.(current_path) ++ [(0, 1)]) /\
  Spec.in_step s1.(board) s1.(current_path) s1.(current_word).
Proof.
  intros self.
  apply (update_word_and_path_legal_move self (0, 1)).
  - unfold Spec.rectangular. repeat constructor.
  - split; [apply NoDup_singleton|]. split; [|done].
    apply Forall_singleton. by exists "C".
  - right. exists [(0, 0); (0, 1)]. split; [reflexivity|]. right. left.
Defined.

(** X15. After a revisit the undo does not give the path back. When a
    cell that is in the path, and not its last, is toggled twice, the word
    is what it was, but the path has lost its first occurrence of the
    cell and ends with the cell instead: [list.remove] drops the first
    occurrence, not the last. *)
Theorem update_word_and_path_revisit_undo (self : Model) (c : Coord)
  (v : string) :
  c ∈ self.(current_path) ->
  last self.(current_path) <> Some c ->
  get_value_by_coordinate self.(board) c = Ok v ->
  let s2 := (update_word_and_path (update_word_and_path self c).1 c).1 in
  s2.(current_word) = self.(current_word) /\
  s2.(current_path) <> self.(current_path) /\
  exists p1 p2,
    self.(current_path) = p1 ++ c :: p2 /\ (c ∉ p1) /\
    s2.(current_path) = p1 ++ p2 ++ [c].
Proof.
  intros Hc Hlast Hv.
  rewrite (update_word_and_path_add self c v Hlast Hv). cbn [fst].
  destruct (py_remove_app c self.(current_path) [c] Hc)
    as (p1 & p2 & Hp & Hfresh & Hrm).
  assert (Hs2 :
    update_word_and_path
      (mkModel self.(board) self.(words_collection) self.(words_found)
         (self.(current_word) +:+ v) (self.(current_path) ++ [c])
         self.(score)) c
    = (mkModel self.(board) self.(words_collection) self.(words_found)
         self.(current_word) (p1 ++ p2 ++ [c]) self.(score), Ok ())).
  { unfold update_word_and_path. destruct c as [y x].
    cbn [current_path board current_word].
    rewrite (proj2 (last_is_spec (self.(current_path) ++ [(y, x)]) (y, x)))
      by apply last_snoc.
    rewrite Hrm.
    cbn [set_current_path set_current_word current_path board current_word
         words_collection words_found score].
    by rewrite Hv, py_slice_to_app. }
  rewrite Hs2. cbn [fst current_word current_path].
  split; [done|]. split; [|by exists p1, p2].
  intros Heq. apply Hlast. rewrite <- Heq, !app_assoc. apply last_snoc.
Qed.

Lemma update_word_and_path_revisit_undo_witness :
  let self := mkModel [["a"; "b"]] ∅ ∅ "ab" [(0, 0); (0, 1)] 0 in
  let s2 :=
    (update_word_and_path (update_word_and_path self (0, 0)).1 (0, 0)).1 in
  s2.(current_word) = "ab" /\
  s2.(current_path) <> [(0, 0); (0, 1)] /\
  exists p1 p2,
    [(0, 0); (0, 1)] = p1 ++ (0, 0) :: p2 /\ ((0, 0) ∉ p1) /\
    s2.(current_path) = p1 ++ p2 ++ [(0, 0)].
Proof.
  intros self.
  apply (update_word_and_path_revisit_undo self (0, 0) "a").
  - left.
  - discriminate.
  - reflexivity.
Defined.

(** X16. [get_buttons_to_enable] offers between one and nine cells, no cell
    twice, and of the cells of the path none but the last. *)
Theorem get_buttons_to_enable_distinct (self : Model) (l : list Coord) :
  get_buttons_to_enable self = Ok l ->
  NoDup l /\ (1 <= length l <= 9)%nat /\
  forall c, c ∈ l -> c ∈ self.(current_path) ->
            last self.(current_path) = Some c.
Proof.
  intros Hl.
  destruct (decide (self.(current_path) = [])) as [Hempty|Hne].
  { unfold get_buttons_to_enable in Hl. by rewrite Hempty in Hl. }
  destruct (exists_last Hne) as (p & b & Hp).
  split; [|split].
  - rewrite (get_buttons_to_enable_unfold self p b Hp) in Hl.
    injection Hl as <-. apply NoDup_cons. split.
    + intros (d & Hb & [_ Hd]%list_elem_of_filter)%list_elem_of_fmap.
      destruct (delta_adjacent8 b d Hd) as (_ & _ & Hne'). by apply Hne'.
    + apply NoDup_fmap_2_strong; [|apply NoDup_filter, delta_values_NoDup].
      intros d d' _ _. apply find_neighbour_coordinate_inj.
  - rewrite (get_buttons_to_enable_unfold self p b Hp) in Hl.
    injection Hl as <-. simpl. rewrite length_fmap.
    pose proof (length_filter
                  (fun d : Coord =>
                     is_coordinate_in_board self.(board)
                       (find_neighbour_coordinate b d)
                     && bool_decide (find_neighbour_coordinate b d
                                     ∉ self.(current_path)) = true)
                  delta_values) as Hlen.
    change (length delta_values) with 8%nat in Hlen. lia.
  - intros c Hc Hpath.
    apply (get_buttons_to_enable_elem self p b c l Hp Hl) in Hc
      as [->|(_ & _ & Hfresh)]; [|done].
    rewrite Hp. apply last_snoc.
Qed.

Lemma get_buttons_to_enable_distinct_witness :
  let self := mkModel [["C"; "A"; "T"]] ∅ ∅ "C" [(0, 0)] 0 in
  NoDup [(0, 0); (0, 1)] /\ (1 <= length [(0, 0); (0, 1)] <= 9)%nat /\
  forall c, c ∈ [(0, 0); (0, 1)] -> c ∈ self.(current_path) ->
            last self.(current_path) = Some c.
Proof.
  intros self.
  apply (get_buttons_to_enable_distinct self [(0, 0); (0, 1)]).
  reflexivity.
Defined.

(** ** boggle.py: a round *)

Module RoundFacts.

Import Utils Model GridFacts SessionFacts SearchFacts SearchMore SessionMore.
Import Controller Round.

(** *** The board buttons *)

Lemma set_all_lookup (g : Gui.GUI) (s : Gui.tk_state) (k : Coord) :
  (Gui.set_all_board_buttons_state g s).(Gui.buttons_board) !! k
  = (fun _ => s) <$> g.(Gui.buttons_board) !! k.
Proof. unfold Gui.set_all_board_buttons_state. simpl. apply lookup_fmap. Qed.

(** When each of the coordinates has a button the loop returns; the
    buttons of the coordinates are then in state [NORMAL], the others as
    they were, and nothing else has changed. *)
Lemma enable_given_returns (g : Gui.GUI) (l : list Coord) :
  (forall c, c ∈ l -> is_Some (g.(Gui.buttons_board) !! c)) ->
  exists b',
    Gui.enable_given_board_buttons g l
    = (Gui.set_buttons_board g b', Gui.Returned) /\
    forall k,
      b' !! k
      = (fun s => if bool_decide (k ∈ l) then Gui.NORMAL else s)
          <$> g.(Gui.buttons_board) !! k.
Proof.
  revert g. induction l as [|c l IH]; intros g Hkeys.
  - exists g.(Gui.buttons_board). split; [by destruct g|].
    intros k. by destruct (Gui.buttons_board g !! k).
  - destruct (Hkeys c ltac:(left)) as [s Hs]. simpl. rewrite Hs.
    destruct (IH (Gui.set_buttons_board g
                    (<[c := Gui.NORMAL]> g.(Gui.buttons_board))))
      as (b' & Hb' & Hlook).
    { intros c' Hc'. simpl. apply lookup_insert_is_Some'. right.
      apply Hkeys. by right. }
    exists b'. split; [by rewrite Hb'|].
    intros k. rewrite Hlook. simpl.
    destruct (decide (k = c)) as [->|Hne].
    + rewrite lookup_insert_eq, Hs. simpl.
      rewrite (bool_decide_true (c ∈ c :: l)) by left.
      by destruct (bool_decide (c ∈ l)).
    + rewrite lookup_insert_ne by done.
      destruct (Gui.buttons_board g !! k) as [s'|]; simpl; [|done].
      destruct (decide (k ∈ l)) as [Hin|Hin].
      * rewrite !bool_decide_true; [done| by right | done].
      * rewrite !bool_decide_false; [done| |done].
        by intros [?|?]%elem_of_cons.
Qed.

(** *** One callback *)

(** On a non-empty path the cells offered are the cells
    [get_buttons_to_enable] returns. *)
Lemma offered_buttons (m : Model) (p : Path) (b : Coord) (l : list Coord)
  (c : Coord) :
  Spec.rectangular m.(board) ->
  Forall (Spec.in_grid m.(board)) m.(current_path) ->
  m.(current_path) = p ++ [b] ->
  get_buttons_to_enable m = Ok l ->
  offered m c <-> c ∈ l.
Proof.
  intros Hrect Hin Hp Hl.
  rewrite (get_buttons_to_enable_elem m p b c l Hp Hl).
  unfold offered. rewrite Hp, last_snoc. split.
  - intros (Hc & [Hnil|[[= ->]|(b' & [= <-] & Hadj & Hfresh)]]).
    + by destruct p.
    + by left.
    + right. split; [done|]. split; [|done].
      by apply in_rectangle_in_grid.
  - intros [->|(Hadj & Hc & Hfresh)].
    + split; [|by right; left].
      rewrite Hp in Hin. apply Forall_app in Hin as [_ Hb].
      by apply Forall_inv in Hb.
    + split; [by apply in_rectangle_in_grid|]. right. right.
      by exists b.
Qed.

Lemma press_agree (self : Controller) (c : Coord) :
  agree self ->
  self.(gui).(Gui.buttons_board) !! c = Some Gui.NORMAL ->
  exists self',
    board_button_callback self c = (self', Gui.Returned) /\
    agree self' /\
    self'.(model).(board) = self.(model).(board) /\
    self'.(model).(words_collection) = self.(model).(words_collection) /\
    self'.(model).(score) = self.(model).(score) /\
    self'.(gui).(Gui.label_current_word).1
    = self'.(model).(current_word).
Proof.
  intros (Hrect & Hcover & Hstep & Hnormal & Hsub & Hlist & Hscore) Hc.
  destruct self as [m g]. cbn [model gui] in *.
  pose proof (proj1 (Hnormal c) Hc) as Hoff.
  assert (Hlegal :
    (m.(current_path) = [] /\ Spec.in_grid m.(board) c) \/
    (exists l, get_buttons_to_enable m = Ok l /\ c ∈ l)).
  { destruct (decide (m.(current_path) = [])) as [Hnil|Hne].
    - left. split; [done|]. by destruct Hoff.
    - right. destruct (exists_last Hne) as (p & b & Hp).
      eexists. split; [apply (get_buttons_to_enable_unfold m p b Hp)|].
      destruct Hstep as (_ & Hin & _).
      by apply (offered_buttons m p b _ c Hrect Hin Hp
                  (get_buttons_to_enable_unfold m p b Hp)). }
  destruct (update_word_and_path_legal m c Hrect Hstep Hlegal)
    as (Hok & Hboard & Hcoll & Hfound & Hsc & _ & Hstep').
  unfold board_button_callback. cbn [model gui].
  destruct (update_word_and_path m c) as [m' r]. cbn [fst snd] in *.
  rewrite Hok. rewrite Hboard in Hstep'.
  destruct (m'.(current_path)) as [|c0 path0] eqn:Hpath'.
  - eexists. split; [reflexivity|]. cbn [model gui].
    split; [|by rewrite Hboard, Hcoll, Hsc].
    unfold agree. cbn [model gui]. rewrite Hboard, Hcoll, Hfound, Hsc, Hpath'.
    split; [done|]. split; [|split; [done|split; [|done]]].
    + intros k. cbn [Gui.update_current_word Gui.buttons_board].
      rewrite set_all_lookup, <- Hcover.
      by rewrite fmap_is_Some.
    + intros k. cbn [Gui.update_current_word Gui.buttons_board].
      rewrite set_all_lookup. unfold offered. rewrite Hboard, Hpath'.
      rewrite <- Hcover.
      destruct (Gui.buttons_board g !! k) as [s|]; simpl; split.
      * intros _. split; [eauto | by left].
      * done.
      * done.
      * by intros [[? [=]] _].
  - rewrite <- Hpath' in Hstep'.
    assert (Hne : m'.(current_path) <> []) by by rewrite Hpath'.
    destruct (exists_last Hne) as (p' & b' & Hp').
    pose proof (get_buttons_to_enable_unfold m' p' b' Hp') as Hl'.
    set (l' := b' :: _) in Hl'. rewrite Hl'.
    assert (Hin' : Forall (Spec.in_grid m.(board)) m'.(current_path))
      by by destruct Hstep' as (_ & ? & _).
    assert (Hoff' : forall k, offered m' k <-> k ∈ l').
    { intros k. apply (offered_buttons m' p' b'); try done;
        by rewrite Hboard. }
    unfold Gui.update_board_buttons_state.
    destruct (enable_given_returns
                (Gui.set_all_board_buttons_state g Gui.DISABLED) l')
      as (bs & -> & Hbs).
    { intros k Hk%Hoff'. rewrite set_all_lookup, fmap_is_Some.
      apply Hcover. destruct Hk as [Hk _]. by rewrite Hboard in Hk. }
    eexists. split; [reflexivity|]. cbn [model gui].
    split; [|by rewrite Hboard, Hcoll, Hsc].
    unfold agree. cbn [model gui]. rewrite Hboard, Hcoll, Hfound, Hsc.
    split; [done|]. split; [|split; [done|split; [|done]]].
    + intros k. cbn [Gui.update_current_word Gui.buttons_board
                       Gui.set_buttons_board].
      rewrite Hbs, set_all_lookup, <- Hcover.
      by rewrite !fmap_is_Some.
    + intros k. cbn [Gui.update_current_word Gui.buttons_board
                       Gui.set_buttons_board].
      rewrite Hbs, set_all_lookup, Hoff'.
      destruct (Gui.buttons_board g !! k) as [s|] eqn:Hk; simpl.
      * destruct (decide (k ∈ l')) as [Hkl|Hkl].
        -- by rewrite bool_decide_true.
        -- by rewrite bool_decide_false.
      * split; [done|]. intros Hkl%Hoff'. destruct Hkl as [Hkl _].
        rewrite Hboard in Hkl. apply Hcover in Hkl.
        rewrite Hk in Hkl. by destruct Hkl.
Qed.

Lemma check_agree (self : Controller) :
  agree self ->
  let self' := on_check_button_pressed self in
  agree self' /\
  self'.(model).(board) = self.(model).(board) /\
  self'.(model).(words_collection) = self.(model).(words_collection) /\
  self.(model).(score) <= self'.(model).(score) /\
  self'.(model).(current_path) = [].
Proof.
  intros (Hrect & Hcover & Hstep & Hnormal & Hsub & Hlist & Hscore).
  destruct self as [m g]. cbn [model gui] in *.
  unfold on_check_button_pressed. cbn [model gui].
  assert (Hcase :
    exists m1 response,
      check_word m = (m1, response) /\
      m1.(board) = m.(board) /\
      m1.(words_collection) = m.(words_collection) /\
      m.(score) <= m1.(score) /\
      m1.(words_found) ⊆ m1.(words_collection) /\
      list_to_set
        (if String.prefix "You found" response
         then g.(Gui.label_words_found) ++ [m1.(current_word)]
         else g.(Gui.label_words_found))
      = m1.(words_found)).
  { destruct (decide (m.(current_word) ∈ m.(words_collection))) as [Hin|Hin].
    - destruct (decide (m.(current_word) ∈ m.(words_found))) as [Hf|Hf].
      + eexists _, _. split; [apply (check_word_known m Hin Hf)|].
        repeat split; done || lia.
      + eexists _, _. split; [apply (check_word_fresh m Hin Hf)|].
        cbn [board words_collection words_found score current_word].
        split; [done|]. split; [done|].
        split; [unfold int_pow2; nia|]. split.
        * apply union_subseteq. split; [|done].
          by apply singleton_subseteq_l.
        * replace (String.prefix "You found" _) with true
            by (by destruct (Z.of_nat (String.length (current_word m)) <? 6)).
          rewrite list_to_set_app_L, Hlist. simpl.
          rewrite (right_id_L ∅ (∪)). apply (comm_L (∪)).
    - eexists _, _. split; [apply (check_word_absent m Hin)|].
      repeat split; done || lia. }
  destruct Hcase as (m1 & response & -> & Hboard & Hcoll & Hsc & Hsub' & Hlist').
  cbn [model gui reset_current_input set_current_path
       set_current_word board words_collection words_found
       current_word current_path score].
  split; [|repeat split; done || lia].
  unfold agree. cbn [model gui reset_current_input set_current_path
                     set_current_word board words_collection words_found
                     current_word current_path score].
  rewrite Hboard.
  assert (Hbuttons : forall k,
    (if String.prefix "You found" response
     then Gui.add_word_to_words_found
            (Gui.update_score
               (Gui.button_check_on_press
                  (Gui.update_current_word g "" Gui.LIGHT_TEXT_FG_COLOR)
                  response) (score m1)) (current_word m1)
     else Gui.update_score
            (Gui.button_check_on_press
               (Gui.update_current_word g "" Gui.LIGHT_TEXT_FG_COLOR)
               response) (score m1)).(Gui.buttons_board) !! k
    = (fun _ => Gui.NORMAL) <$> g.(Gui.buttons_board) !! k).
  { intros k. destruct (String.prefix "You found" response);
      cbn [Gui.add_word_to_words_found Gui.update_score
           Gui.button_check_on_press Gui.update_current_word
           Gui.buttons_board Gui.set_all_board_buttons_state
           Gui.set_buttons_board];
      apply lookup_fmap. }
  split; [done|]. split; [|split; [|split; [|split; [done|split]]]].
  - intros k. rewrite Hbuttons, fmap_is_Some. apply Hcover.
  - split; [apply NoDup_nil_2|]. by split; [apply Forall_nil_2|].
  - intros k. rewrite Hbuttons. unfold offered.
    cbn [reset_current_input set_current_path set_current_word board
         current_path].
    rewrite Hboard, <- Hcover.
    destruct (Gui.buttons_board g !! k) as [s|]; simpl; split.
    + intros _. split; [eauto | by left].
    + done.
    + done.
    + by intros [[? [=]] _].
  - rewrite <- Hlist'. by destruct (String.prefix "You found" response).
  - by destruct (String.prefix "You found" response).
Qed.

(** A coordinate without a button makes the loop raise. *)
Lemma enable_given_key_error (g : Gui.GUI) (l : list Coord) (k : Coord) :
  k ∈ l -> g.(Gui.buttons_board) !! k = None ->
  exists g', Gui.enable_given_board_buttons g l = (g', Gui.RaisedKeyError) /\
             g'.(Gui.label_current_word) = g.(Gui.label_current_word).
Proof.
  revert g. induction l as [|c l IH]; intros g Hk Hnone;
    [by apply elem_of_nil in Hk|].
  simpl. destruct (Gui.buttons_board g !! c) as [s|] eqn:Hc; [|by exists g].
  apply elem_of_cons in Hk as [->|Hk]; [congruence|].
  destruct (IH (Gui.set_buttons_board g
                  (<[c := Gui.NORMAL]> g.(Gui.buttons_board))) Hk)
    as (g' & -> & Hlabel).
  - simpl. rewrite lookup_insert_ne; [done|]. intros ->. congruence.
  - by exists g'.
Qed.

End RoundFacts.

Import Controller Round RoundFacts.

(** X17. A round stays sound. From a state in which window and session
    agree, whatever the player does, pressing board buttons only while
    they are in state [NORMAL] and the check button at will, no callback
    raises and window and session agree again after the last event: the
    path is a path of the data model that spells the current word, the
    buttons in state [NORMAL] are the cells offered, the words listed are
    the words found. Board and collection are those of the start, and the
    score has not decreased. *)
Theorem round_stays_sound (self : Controller) (evs : list event) :
  agree self -> pressable self evs ->
  (run self evs).2 = Gui.Returned /\
  agree (run self evs).1 /\
  (run self evs).1.(model).(board) = self.(model).(board) /\
  (run self evs).1.(model).(words_collection)
  = self.(model).(words_collection) /\
  self.(model).(score) <= (run self evs).1.(model).(score).
Proof.
  revert self. induction evs as [|ev evs IH]; intros self Hagree Hpress.
  - cbn [run fst snd]. do 4 (split; [done|]). lia.
  - destruct Hpress as [Hev Hpress]. cbn [run].
    assert (Hstep : exists self',
      handle self ev = (self', Gui.Returned) /\ agree self' /\
      self'.(model).(board) = self.(model).(board) /\
      self'.(model).(words_collection) = self.(model).(words_collection) /\
      self.(model).(score) <= self'.(model).(score)).
    { destruct ev as [c|]; simpl.
      - destruct (press_agree self c Hagree Hev)
          as (self' & -> & ? & ? & ? & Hsc & _).
        exists self'. do 4 (split; [done|]). lia.
      - destruct (check_agree self Hagree) as (? & ? & ? & ? & _).
        eexists. do 4 (split; [done|]). done. }
    destruct Hstep as (self' & Hh & Hagree' & Hb & Hc & Hs).
    rewrite Hh in Hpress |- *. cbn [fst] in Hpress.
    destruct (IH self' Hagree' Hpress) as (Hr & Ha & Hb' & Hc' & Hs').
    split; [done|]. split; [done|].
    split; [congruence|]. split; [congruence | lia].
Qed.

Lemma round_stays_sound_witness :
  let self :=
    mkController (mkModel [["A"]] {[ "A" ]} ∅ "" [] 0)
      (Gui.mkGUI {[ (0, 0) := Gui.NORMAL ]} ("", Gui.LIGHT_TEXT_FG_COLOR) ""
         false 0 "0" []) in
  let evs := [PressBoard (0, 0); PressCheck] in
  (run self evs).2 = Gui.Returned /\
  agree (run self evs).1 /\
  (run self evs).1.(model).(board) = self.(model).(board) /\
  (run self evs).1.(model).(words_collection)
  = self.(model).(words_collection) /\
  self.(model).(score) <= (run self evs).1.(model).(score).
Proof.
  intros self evs.
  assert (Hgrid : forall c : Coord, Spec.in_grid [["A"]] c <-> c = (0, 0)).
  { intros [r k]. unfold Spec.in_grid, Spec.cell. simpl. split.
    - destruct (Z.leb_spec 0 r); [|by intros [? [=]]].
      destruct (Z.leb_spec 0 k); [|by intros [? [=]]]. simpl.
      destruct (Z.to_nat r) as [|[|?]] eqn:Hr; [|by intros [? [=]]..].
      simpl.
      destruct (Z.to_nat k) as [|[|?]] eqn:Hk; [|by intros [? [=]]..].
      intros _. f_equal; lia.
    - intros [= -> ->]. simpl. by eexists. }
  assert (Hkey : forall c : Coord,
    is_Some (({[ (0, 0) := Gui.NORMAL ]} : gmap Coord Gui.tk_state) !! c)
    <-> c = (0, 0)).
  { intros c. rewrite lookup_singleton_is_Some. split; by intros ->. }
  apply (round_stays_sound self evs).
  - split; [unfold Spec.rectangular; repeat constructor|].
    split; [intros c; cbn [self model gui board Gui.buttons_board];
            by rewrite Hkey, Hgrid|].
    split; [split; [apply NoDup_nil_2|]; by split; [apply Forall_nil_2|]|].
    split; [|split; [done|split; [done|done]]].
    intros c. unfold offered.
    cbn [self model gui board current_path Gui.buttons_board].
    rewrite Hgrid, lookup_singleton_Some. split.
    + intros [<- _]. split; [done | by left].
    + by intros [-> _].
  - cbn [pressable evs]. split; [reflexivity|]. split; exact I.
Defined.

(** X18. A cell offered without a button in the window makes the callback
    raise [KeyError] once the session has moved: when the toggle returns
    and one of the cells [get_buttons_to_enable] then offers has no
    button, [board_button_callback] raises, the session holds the new
    path and word, and the word shown is still the old one. *)
Theorem board_button_callback_key_error (self : Controller)
  (c k : Coord) (m' : Model) (l : list Coord) :
  update_word_and_path self.(model) c = (m', Ok ()) ->
  get_buttons_to_enable m' = Ok l ->
  k ∈ l ->
  self.(gui).(Gui.buttons_board) !! k = None ->
  (board_button_callback self c).2 = Gui.RaisedKeyError /\
  (board_button_callback self c).1.(model) = m' /\
  (board_button_callback self c).1.(gui).(Gui.label_current_word)
  = self.(gui).(Gui.label_current_word).
Proof.
  intros Hupd Hl Hk Hnone. unfold board_button_callback. rewrite Hupd.
  destruct (m'.(current_path)) as [|c0 p0] eqn:Hpath.
  { unfold get_buttons_to_enable in Hl. by rewrite Hpath in Hl. }
  rewrite Hl. unfold Gui.update_board_buttons_state.
  destruct (enable_given_key_error
              (Gui.set_all_board_buttons_state self.(gui) Gui.DISABLED) l k Hk)
    as (g' & -> & Hlabel).
  - by rewrite set_all_lookup, Hnone.
  - done.
Qed.

Lemma board_button_callback_key_error_witness :
  let self :=
    mkController (mkModel [["A"; "B"]] ∅ ∅ "" [] 0)
      (Gui.mkGUI {[ (0, 0) := Gui.NORMAL ]} ("", Gui.LIGHT_TEXT_FG_COLOR) ""
         false 0 "0" []) in
  (board_button_callback self (0, 0)).2 = Gui.RaisedKeyError /\
  (board_button_callback self (0, 0)).1.(model)
  = mkModel [["A"; "B"]] ∅ ∅ "A" [(0, 0)] 0 /\
  (board_button_callback self (0, 0)).1.(gui).(Gui.label_current_word)
  = self.(gui).(Gui.label_current_word).
Proof.
  intros self.
  apply (board_button_callback_key_error self (0, 0) (0, 1)
           (mkModel [["A"; "B"]] ∅ ∅ "A" [(0, 0)] 0) [(0, 0); (0, 1)]).
  - reflexivity.
  - reflexivity.
  - right. left.
  - reflexivity.
Defined.

(** X19. What the check button does, in any state: the answer of
    [check_word] is shown, the input of the session is cleared, the score
    in the window is the score of the session, every board button is in
    state [NORMAL], and the word is added to the list of the window
    exactly when it is credited, that is, when it is in the collection
    and was not found before. *)
Theorem on_check_button_pressed_effect (self : Controller) :
  let self' := on_check_button_pressed self in
  let w := self.(model).(current_word) in
  self'.(model).(current_path) = [] /\
  self'.(model).(current_word) = "" /\
  self'.(gui).(Gui.label_word_input) = (check_word self.(model)).2 /\
  self'.(gui).(Gui.score) = self'.(model).(score) /\
  self'.(gui).(Gui.label_score) = Gui.py_str self'.(model).(score) /\
  (forall k, self'.(gui).(Gui.buttons_board) !! k
             = (fun _ => Gui.NORMAL) <$> self.(gui).(Gui.buttons_board) !! k) /\
  (w ∈ self.(model).(words_collection) ->
   w ∉ self.(model).(words_found) ->
   self'.(gui).(Gui.label_words_found)
   = self.(gui).(Gui.label_words_found) ++ [w] /\
   self'.(model).(words_found) = {[ w ]} ∪ self.(model).(words_found)) /\
  (~ (w ∈ self.(model).(words_collection) /\
      w ∉ self.(model).(words_found)) ->
   self'.(gui).(Gui.label_words_found) = self.(gui).(Gui.label_words_found) /\
   self'.(model).(words_found) = self.(model).(words_found) /\
   self'.(model).(score) = self.(model).(score)).
Proof.
  destruct self as [m g]. cbn [model gui]. unfold on_check_button_pressed.
  cbn [model gui].
  assert (Hcase :
    (m.(current_word) ∈ m.(words_collection) /\
     (m.(current_word) ∉ m.(words_found)) /\
     String.prefix "You found" (check_word m).2 = true /\
     (check_word m).1.(words_found)
     = {[ m.(current_word) ]} ∪ m.(words_found) /\
     (check_word m).1.(current_word) = m.(current_word)) \/
    (~ (m.(current_word) ∈ m.(words_collection) /\
        m.(current_word) ∉ m.(words_found)) /\
     String.prefix "You found" (check_word m).2 = false /\
     (check_word m).1 = m)).
  { destruct (decide (m.(current_word) ∈ m.(words_collection))) as [Hin|Hin].
    - destruct (decide (m.(current_word) ∈ m.(words_found))) as [Hf|Hf].
      + right. rewrite (check_word_known m Hin Hf).
        split; [by intros [_ ?]|]. split; [by vm_compute | done].
      + left. rewrite (check_word_fresh m Hin Hf). cbn [fst snd words_found
                                                          current_word].
        do 2 (split; [done|]). split; [|done].
        by destruct (Z.of_nat (String.length (current_word m)) <? 6);
          vm_compute.
    - right. rewrite (check_word_absent m Hin).
      split; [by intros [? _]|]. split; [by vm_compute | done]. }
  destruct (check_word m) as [m1 response]. cbn [fst snd] in Hcase.
  cbn [model gui reset_current_input set_current_path set_current_word
       current_path current_word score words_found].
  destruct Hcase as [(Hin & Hf & -> & Hfound & Hword)|(Hnot & -> & ->)];
    cbn [Gui.add_word_to_words_found Gui.update_score
         Gui.button_check_on_press Gui.update_current_word
         Gui.set_all_board_buttons_state Gui.set_buttons_board
         Gui.buttons_board Gui.label_word_input Gui.score Gui.label_score
         Gui.label_words_found].
  - do 5 (split; [done|]). split; [intros k; apply lookup_fmap|].
    split; [by rewrite Hword|]. intros Hnot. destruct Hnot. done.
  - do 5 (split; [done|]). split; [intros k; apply lookup_fmap|].
    split; [|done]. intros Hin Hf. destruct Hnot. done.
Qed.

Lemma on_check_button_pressed_effect_witness :
  let self :=
    mkController (mkModel [["A"]] {[ "A" ]} ∅ "A" [(0, 0)] 0)
      (Gui.mkGUI {[ (0, 0) := Gui.NORMAL ]} ("A", Gui.LIGHT_TEXT_FG_COLOR) ""
         false 0 "0" []) in
  (on_check_button_pressed self).(gui).(Gui.label_words_found) = [] ++ ["A"] /\
  (on_check_button_pressed self).(model).(words_found) = {[ "A" ]} ∪ ∅.
Proof.
  intros self.
  apply (proj1 (proj2 (proj2 (proj2 (proj2 (proj2 (proj2
           (on_check_button_pressed_effect self)))))))).
  - change ("A" ∈ ({[ "A" ]} : gset string)). by apply elem_of_singleton_2.
  - change ("A" ∉ (∅ : gset string)). apply not_elem_of_empty.
Defined.

(** X20. The validator accepts what the search finds: every path of a list
    that [find_length_n_paths] or [find_length_n_words] returns is
    accepted by [is_valid_path] with the same words, which returns the
    word the path spells. *)
Theorem find_length_n_accepted (n : Z) (board : Board)
  (words : list string) (l : list Path) (p : Path) :
  find_length_n_paths n board words = Ok l \/
  find_length_n_words n board words = Ok l ->
  p ∈ l ->
  exists w, Spec.spelled_word board p = Some w /\
            is_valid_path board p words = Ok (Some w).
Proof.
  rewrite find_length_n_paths_trace, find_length_n_words_trace.
  intros Hl Hp.
  assert (Hfacts : exists w,
    w ∈ words /\ Spec.simple_path board p /\
    Spec.spelled_word board p = Some w).
  { destruct Hl as [Hl|Hl].
    - destruct (start_trace stop_len_path n board words) as [tr| |] eqn:Htr;
        [|done..].
      injection Hl as <-.
      apply list_elem_of_fmap in Hp as ([q w] & -> & Hx).
      destruct (start_trace_sound _ _ _ _ _ Htr _ Hx) as (_ & ? & ? & ?).
      by exists w.
    - destruct (start_trace stop_len_word n board words) as [tr| |] eqn:Htr;
        [|done..].
      injection Hl as <-.
      apply list_elem_of_fmap in Hp as ([q w] & -> & Hx).
      destruct (start_trace_sound _ _ _ _ _ Htr _ Hx) as (_ & ? & ? & ?).
      by exists w. }
  destruct Hfacts as (w & Hw & (Hne & _ & _ & Hlinked) & Hsp).
  exists w. split; [done|]. unfold is_valid_path.
  destruct (is_valid_path_loop_grid board p "" w Hne Hsp)
    as [[_ ->]|[Hnl _]]; [|done].
  simpl. by rewrite bool_decide_true.
Qed.

Lemma find_length_n_accepted_witness :
  let board := [["C"; "A"; "T"]; ["X"; "X"; "X"]; ["X"; "X"; "X"]] in
  exists w, Spec.spelled_word board [(0, 0); (0, 1); (0, 2)] = Some w /\
            is_valid_path board [(0, 0); (0, 1); (0, 2)]
              ["CAT"; "AT"; "CA"] = Ok (Some w).
Proof.
  intros board.
  apply (find_length_n_accepted 3 board ["CAT"; "AT"; "CA"]
           [[(0, 0); (0, 1); (0, 2)]]).
  - left. vm_compute. reflexivity.
  - left.
Defined.
